(** * ProSystem print agent: receipt layout, job admission and start-up

    A shallow embedding of [printer-api.js] (the current revision) and of
    the earlier revision of the same file that still carries the
    [activePrintJobs] registry, together with the properties the
    specification states about them and, in the second part, further
    properties of the code: the dates, the padding and the word wrap,
    the receipt as a whole, the [/print-thermal] endpoint, the port
    check and the endings of a start-up, the list of printers with the
    tray menu of [main.js], the heartbeat of the WebSocket server and the
    thousands separators.

    Conventions of the embedding

    - A JavaScript string is a [list ascii]: one [ascii] per UTF-16 code
      unit, restricted to the code units below 256.  [str "..."] turns a
      literal into that representation.
    - A JavaScript number is [NaN] or a rational [Num q], which stands for
      the binary64 number nearest to [q]; the two infinities are left
      out.  Where the source computes with fractions (the cents of
      [CurrencyFormatted], the distances and the formula of
      [getOptimalCharacterWidth]) every operation rounds its exact result
      to binary64, [round64], and so does [parseInt]; arithmetic on
      whole numbers is exact, as it is in binary64 up to 2^53.  A number
      is compared with zero by the sign of [q], which is the sign of the
      binary64 number unless [q] is below 2^-1075 in absolute value.  A
      number is printed as the decimal form of [q], which is the string
      form of the binary64 number when [q] has at most 15 significant
      digits.
    - Lengths, indices and widths are [Z], as [substring], [lastIndexOf]
      and the width arguments can be negative. *)

From Stdlib Require Import ZArith QArith Qround Qabs Qpower Qcanon.
From Stdlib Require Import String Ascii List.
From Stdlib Require Import Lia Lqa Bool.
From Stdlib Require PrimFloat SpecFloat FloatOps.
From stdpp Require Import gmap strings list.
Import ListNotations.

Open Scope Z_scope.

(** ** Strings *)

Abbreviation jsstring := (list ascii).

Definition str (s : string) : jsstring := list_ascii_of_string s.

(** [s.length] *)
Definition len (s : jsstring) : Z := Z.of_nat (length s).

(** Clamping of an index argument into [0 .. s.length], as [substring]
    does with each of its arguments. *)
Definition clamp (s : jsstring) (i : Z) : nat :=
  Z.to_nat (Z.min (Z.max i 0) (len s)).

(** [s.substring(a, b)]: both ends are clamped and swapped when reversed. *)
Definition substring (s : jsstring) (a b : Z) : jsstring :=
  let a' := clamp s a in
  let b' := clamp s b in
  take (Nat.max a' b' - Nat.min a' b') (drop (Nat.min a' b') s).

(** [s.substring(a)] *)
Definition substring_from (s : jsstring) (a : Z) : jsstring :=
  drop (clamp s a) s.

(** White space in the sense of [String.prototype.trim], among the code
    units below 256: TAB, LF, VT, FF, CR, SPACE and NBSP. *)
Definition is_white_space (c : ascii) : bool :=
  let n := nat_of_ascii c in
  ((9 <=? n)%nat && (n <=? 13)%nat) || (n =? 32)%nat || (n =? 160)%nat.

Fixpoint trim_start (s : jsstring) : jsstring :=
  match s with
  | c :: s' => if is_white_space c then trim_start s' else s
  | [] => []
  end.

Definition trim_end (s : jsstring) : jsstring := rev (trim_start (rev s)).

(** [s.trim()] *)
Definition trim (s : jsstring) : jsstring := trim_end (trim_start s).

(** Position of the last [c] among the characters of [s] that start at
    index [i]; [-1] when there is none. *)
Fixpoint last_index_from (c : ascii) (i : Z) (s : jsstring) : Z :=
  match s with
  | [] => -1
  | d :: s' =>
      let r := last_index_from c (i + 1) s' in
      if r >=? 0 then r else if Ascii.eqb d c then i else -1
  end.

(** [s.lastIndexOf(c)] for a one-character search string. *)
Definition lastIndexOf (s : jsstring) (c : ascii) : Z := last_index_from c 0 s.

(** [' '.repeat(n)]; the source only calls it with [n >= 1]. *)
Definition repeat_space (n : Z) : jsstring := replicate (Z.to_nat n) " "%char.

(** [a.join(sep)] *)
Fixpoint join (sep : jsstring) (a : list jsstring) : jsstring :=
  match a with
  | [] => []
  | [x] => x
  | x :: rest => x ++ sep ++ join sep rest
  end.

(** ** Two-column lines *)

(** [createTwoColumnLine(leftText, rightText, totalWidth)] *)
Definition createTwoColumnLine (leftText rightText : jsstring) (totalWidth : Z)
  : jsstring :=
  let leftStr := leftText in
  let rightStr := rightText in
  let spaceNeeded := totalWidth - len leftStr - len rightStr in
  if spaceNeeded <? 1 then
    let truncatedLeft := substring leftStr 0 (totalWidth - len rightStr - 1) in
    truncatedLeft ++ str " " ++ rightStr
  else
    leftStr ++ repeat_space spaceNeeded ++ rightStr.

(** ** Word wrap *)

(** The break point chosen by one iteration of the loop of [wrapText]. *)
Definition breakPoint (maxWidth : Z) (remaining : jsstring) : Z :=
  let lastSpace := lastIndexOf (substring remaining 0 maxWidth) " "%char in
  if lastSpace >? 0 then lastSpace else maxWidth.

(** The line pushed, and the text left, by one iteration. *)
Definition wrap_line (maxWidth : Z) (remaining : jsstring) : jsstring :=
  trim (substring remaining 0 (breakPoint maxWidth remaining)).

Definition wrap_rest (maxWidth : Z) (remaining : jsstring) : jsstring :=
  trim (substring_from remaining (breakPoint maxWidth remaining)).

(** The [while] loop of [wrapText].  The loop of the source need not
    terminate, so the embedding counts iterations down from [fuel] and
    answers [None] when they run out. *)
Fixpoint wrap_loop (fuel : nat) (maxWidth : Z) (remaining : jsstring)
    (lines : list jsstring) : option (list jsstring) :=
  match fuel with
  | O => None
  | S fuel' =>
      if len remaining >? 0 then
        if len remaining <=? maxWidth then Some (lines ++ [remaining])
        else
          wrap_loop fuel' maxWidth (wrap_rest maxWidth remaining)
            (lines ++ [wrap_line maxWidth remaining])
      else Some lines
  end.

(** [wrapText(text, maxWidth)], with one more iteration allowed than the
    text has characters. *)
Definition wrapText (text : jsstring) (maxWidth : Z) : option (list jsstring) :=
  if len text <=? maxWidth then Some [text]
  else wrap_loop (S (length text)) maxWidth text [].

(** ** Numbers *)

Inductive number : Type :=
| NaN
| Num (q : Q).

Definition isNaN (x : number) : bool :=
  match x with NaN => true | Num _ => false end.

(** [x < y]; a comparison with [NaN] is false. *)
Definition num_lt (x y : number) : bool :=
  match x, y with
  | Num a, Num b => if Qlt_le_dec a b then true else false
  | _, _ => false
  end.

Definition num_of_Z (z : Z) : number := Num (inject_Z z).

Definition Math_abs (x : number) : number :=
  match x with NaN => NaN | Num q => Num (Qabs q) end.

(** [Math.round]: the nearest integer, a tie going up. *)
Definition Math_round (x : number) : number :=
  match x with NaN => NaN | Num q => num_of_Z (Qfloor (q + (1 # 2))) end.

(** *** Binary64

    The result of an arithmetic operation of the source is the exact
    result rounded to the nearest number with 53 significant bits, a tie
    going to the one whose last bit is even.  A binary64 number is held
    as the rational it is; the exponent has no upper bound here, since
    nothing in the source overflows on a finite argument. *)

(** [2 ^ e] for an exponent of either sign *)
Definition pow2 (e : Z) : Q := Qpower 2 e.

(** The exponent of the leading bit of a positive rational:
    [2 ^ ilog2 q <= q < 2 ^ (ilog2 q + 1)]. *)
Definition ilog2 (q : Q) : Z :=
  let l := Z.log2 (Qnum q) - Z.log2 (Zpos (Qden q)) in
  if Qle_bool (pow2 l) q then l else l - 1.

(** The nearest integer, a tie going to the even one. *)
Definition round_half_even (q : Q) : Z :=
  let f := Qfloor q in
  match (q - inject_Z f ?= 1 # 2)%Q with
  | Lt => f
  | Gt => f + 1
  | Eq => if Z.even f then f else f + 1
  end.

(** The exponent of the last bit that binary64 keeps of [q]: 52 places
    below the leading bit, and never below [2 ^ -1074]. *)
Definition ulp_exponent (q : Q) : Z := Z.max (ilog2 (Qabs q) - 52) (-1074).

(** The binary64 number nearest to [q], as a fraction in lowest terms. *)
Definition round64 (q : Q) : Q :=
  if Qeq_bool q 0 then 0
  else Qred (inject_Z (round_half_even (q / pow2 (ulp_exponent q)))
             * pow2 (ulp_exponent q)).

(** [a - b], [a * b] and [a / b] on binary64 numbers *)
Definition fsub (a b : Q) : Q := round64 (a - b).
Definition fmul (a b : Q) : Q := round64 (a * b).
Definition fdiv (a b : Q) : Q := round64 (a / b).

(** A number as the program holds it: a numeric literal of the source,
    or a number read from the JSON body of a request. *)
Definition double (x : number) : number :=
  match x with NaN => NaN | Num q => Num (round64 q) end.

(** [x + y] and [x * y] *)
Definition num_add (x y : number) : number :=
  match x, y with Num a, Num b => Num (round64 (a + b)) | _, _ => NaN end.

Definition num_mul (x y : number) : number :=
  match x, y with Num a, Num b => Num (round64 (a * b)) | _, _ => NaN end.

(** [x / y] where the quotient is only printed: the string form of the
    binary64 quotient is the shortest decimal that reads back as it,
    which is the decimal form of the exact quotient when that has at
    most 15 significant digits.  The quotient is kept exact. *)
Definition num_div (x y : number) : number :=
  match x, y with Num a, Num b => Num (a / b) | _, _ => NaN end.

(** *** Number to string *)

Definition digit_char (d : Z) : ascii := ascii_of_nat (48 + Z.to_nat d).
Arguments digit_char : simpl never.

Fixpoint digits_go (fuel : nat) (n : Z) (acc : jsstring) : jsstring :=
  match fuel with
  | O => acc
  | S fuel' =>
      let acc' := digit_char (n mod 10) :: acc in
      if n / 10 =? 0 then acc' else digits_go fuel' (n / 10) acc'
  end.

(** Decimal digits of a natural number, most significant first.  A number
    has no more decimal than binary digits, which bounds the iterations. *)
Definition digits (n : Z) : jsstring :=
  digits_go (S (Z.to_nat (Z.log2 n))) n [].

(** Digits after the decimal point of [r / den], for [0 <= r < den], by
    long division, at most [fuel] of them. *)
Fixpoint frac_digits (fuel : nat) (r den : Z) : jsstring :=
  match fuel with
  | O => []
  | S fuel' =>
      if r =? 0 then []
      else digit_char (r * 10 / den) :: frac_digits fuel' (r * 10 mod den) den
  end.

Definition is_zero_char (c : ascii) : bool := Ascii.eqb c "0"%char.

Fixpoint strip_leading_zeros (s : jsstring) : jsstring :=
  match s with
  | c :: s' => if is_zero_char c then strip_leading_zeros s' else s
  | [] => []
  end.

Definition strip_trailing_zeros (s : jsstring) : jsstring :=
  rev (strip_leading_zeros (rev s)).

(** Number of fractional digits the expansion is carried to. *)
Definition frac_precision : nat := 40.

(** The significant digits [s] of a positive rational and the position
    [n] of its decimal point: [q = 0.s * 10^n]. *)
Definition decimal_expansion (q : Q) : jsstring * Z :=
  let num := Qnum q in
  let den := Zpos (Qden q) in
  let ip := num / den in
  let fr := frac_digits frac_precision (num mod den) den in
  if ip =? 0 then
    let s0 := strip_leading_zeros fr in
    (strip_trailing_zeros s0, len s0 - len fr)
  else (strip_trailing_zeros (digits ip ++ fr), len (digits ip)).

(** The four shapes [Number::toString] gives to the digits [s] with the
    decimal point at [n]: an integer, a decimal, a decimal below one,
    and exponent notation. *)
Definition layout_digits (s : jsstring) (n : Z) : jsstring :=
  let k := len s in
  if k =? 0 then str "0"
  else if (k <=? n) && (n <=? 21) then s ++ replicate (Z.to_nat (n - k)) "0"%char
  else if (0 <? n) && (n <=? 21) then
    take (Z.to_nat n) s ++ str "." ++ drop (Z.to_nat n) s
  else if (-6 <? n) && (n <=? 0) then
    str "0." ++ replicate (Z.to_nat (- n)) "0"%char ++ s
  else
    let e := n - 1 in
    let sign := if e <? 0 then str "-" else str "+" in
    let mant := if k =? 1 then s else take 1 s ++ str "." ++ drop 1 s in
    mant ++ str "e" ++ sign ++ digits (Z.abs e).

(** [Number::toString] for a positive rational. *)
Definition string_of_positive (q : Q) : jsstring :=
  let '(s, n) := decimal_expansion q in layout_digits s n.

(** [String(x)], [new String(x)], [x.toString()] and [`${x}`] *)
Definition String_of_number (x : number) : jsstring :=
  match x with
  | NaN => str "NaN"
  | Num q =>
      match Qnum q ?= 0 with
      | Eq => str "0"
      | Lt => str "-" ++ string_of_positive (Qabs q)
      | Gt => string_of_positive q
      end
  end.

(** *** String to number *)

Definition digit_val (radix : Z) (c : ascii) : option Z :=
  let n := Z.of_nat (nat_of_ascii c) in
  let v :=
    if (48 <=? n) && (n <=? 57) then Some (n - 48)
    else if (97 <=? n) && (n <=? 122) then Some (n - 87)
    else if (65 <=? n) && (n <=? 90) then Some (n - 55)
    else None in
  match v with
  | Some d => if d <? radix then Some d else None
  | None => None
  end.

Arguments digit_val : simpl never.

(** Value of the longest prefix of [s] made of digits of the radix;
    [acc] is the value read so far, [None] before the first digit. *)
Fixpoint parse_digits (radix : Z) (s : jsstring) (acc : option Z) : option Z :=
  match s with
  | c :: s' =>
      match digit_val radix c with
      | Some d =>
          parse_digits radix s'
            (Some (match acc with Some a => a * radix + d | None => d end))
      | None => acc
      end
  | [] => acc
  end.

(** [parseInt(s)] with no radix argument: leading white space, a sign, an
    optional [0x] prefix, then the digits; [NaN] when there is no digit.
    The result is the binary64 number nearest to the integer read. *)
Definition parseInt_string (s : jsstring) : number :=
  let s1 := trim_start s in
  let '(sign, s2) :=
    match s1 with
    | c :: r =>
        if Ascii.eqb c "-"%char then (-1, r)
        else if Ascii.eqb c "+"%char then (1, r)
        else (1, s1)
    | [] => (1, s1)
    end in
  let '(radix, s3) :=
    match s2 with
    | c0 :: cx :: r =>
        if Ascii.eqb c0 "0"%char && (Ascii.eqb cx "x"%char || Ascii.eqb cx "X"%char)
        then (16, r) else (10, s2)
    | _ => (10, s2)
    end in
  match parse_digits radix s3 None with
  | Some v => double (num_of_Z (sign * v))
  | None => NaN
  end.

(** [parseInt(x)] of a number: [parseInt] converts its argument to a
    string first. *)
Definition parseInt_number (x : number) : number :=
  parseInt_string (String_of_number x).

(** [parseFloat(x)] of a number (or of [undefined], which is [NaN] here):
    the string form of a number reads back as that number. *)
Definition parseFloat (x : number) : number := double x.

(** ** More string primitives *)

(** [s.split(c)] for a one-character separator. *)
Fixpoint split_on (c : ascii) (s : jsstring) : list jsstring :=
  match s with
  | [] => [[]]
  | d :: s' =>
      if Ascii.eqb d c then [] :: split_on c s'
      else
        match split_on c s' with
        | p :: ps => (d :: p) :: ps
        | [] => [[d]]
        end
  end.

(** [s.substr(start, count)]; [count] is [None] when the argument is
    left out. *)
Definition substr (s : jsstring) (start : Z) (count : option Z) : jsstring :=
  let st := if start <? 0 then Z.max (len s + start) 0 else Z.min start (len s) in
  let cnt :=
    match count with
    | None => len s - st
    | Some c => Z.min (Z.max c 0) (len s - st)
    end in
  take (Z.to_nat cnt) (drop (Z.to_nat st) s).

Fixpoint jsstring_eqb (a b : jsstring) : bool :=
  match a, b with
  | [], [] => true
  | c :: a', d :: b' => Ascii.eqb c d && jsstring_eqb a' b'
  | _, _ => false
  end.

Definition ends_with (s suffix : jsstring) : bool :=
  jsstring_eqb (drop (length s - length suffix) s) suffix.

(** [s.replace(/\.00$/, '')] *)
Definition replace_trailing_dot00 (s : jsstring) : jsstring :=
  if ends_with s (str ".00") then take (length s - 3) s else s.

(** [s.indexOf(c) >= 0] *)
Definition contains_char (s : jsstring) (c : ascii) : bool :=
  existsb (fun d => Ascii.eqb d c) s.

(** [s.padStart(n, '0')] *)
Definition padStart0 (s : jsstring) (n : Z) : jsstring :=
  replicate (Z.to_nat (n - len s)) "0"%char ++ s.

(** [s.slice(-n)] for [n > 0] *)
Definition slice_last (s : jsstring) (n : Z) : jsstring :=
  drop (Z.to_nat (Z.max (len s - n) 0)) s.

(** ** Amount formatting *)

(** The [while] loop of [CommaFormatted]: every iteration moves the last
    three characters of [n] to the front of [a], so [length n] iterations
    are never used up. *)
Fixpoint comma_loop (fuel : nat) (n : jsstring) (a : list jsstring)
  : jsstring * list jsstring :=
  match fuel with
  | O => (n, a)
  | S fuel' =>
      if len n >? 3 then
        let nn := substr n (len n - 3) None in
        comma_loop fuel' (substr n 0 (Some (len n - 3))) (nn :: a)
      else (n, a)
  end.

(** [CommaFormatted(amount)] *)
Definition CommaFormatted (amount : jsstring) : jsstring :=
  let delimiter := str "," in
  let a := take 2 (split_on "."%char amount) in
  let d := match a with [_; d] => d | _ => [] end in
  let a0 := match a with a0 :: _ => a0 | [] => [] end in
  let i := parseInt_string a0 in
  if isNaN i then []
  else
    let minus := if num_lt i (num_of_Z 0) then str "-" else [] in
    let i := Math_abs i in
    let n := String_of_number i in
    let '(n, a) := comma_loop (length n) n [] in
    let a := if len n >? 0 then n :: a else a in
    let n := join delimiter a in
    let amount := if len d <? 1 then n else n ++ str "." ++ d in
    let amount := replace_trailing_dot00 amount in
    minus ++ amount.

(** [CurrencyFormatted(amount, currency = 'BDT')]; [currency] is [None]
    when the caller leaves the argument out. *)
Definition CurrencyFormatted (amount : number) (currency : option jsstring)
  : jsstring :=
  let currency := match currency with Some c => c | None => str "BDT" end in
  let i := parseFloat amount in
  let i := if negb (jsstring_eqb currency (str "BDT")) then Math_round i else i in
  let i := if isNaN i then Num 0 else i in
  let minus := if num_lt i (num_of_Z 0) then str "-" else [] in
  let i := Math_abs i in
  let i := parseInt_number
             (num_mul (num_add i (double (Num (5 # 1000)))) (num_of_Z 100)) in
  let i := num_div i (num_of_Z 100) in
  let s := String_of_number i in
  let s := if contains_char s "."%char then replace_trailing_dot00 s else s in
  minus ++ s.

(** ** Paper width to characters per line *)

(** The object literal [standardWidths], in the order [Object.keys]
    lists its integer keys. *)
Definition standardWidths : list (Z * Z) :=
  [(58, 32); (76, 42); (80, 48); (82, 48); (110, 64)].

Definition lookup_width (k : Z) : option Z :=
  snd <$> List.find (fun p => fst p =? k) standardWidths.

(** [a.reduce(f)] with no initial value, on a non-empty array. *)
Definition reduce1 {A : Type} (f : A -> A -> A) (a : list A) (dflt : A) : A :=
  match a with
  | x :: rest => fold_left f rest x
  | [] => dflt
  end.

Definition closer (widthMM : Q) (prev curr : Z) : Z :=
  if Qlt_le_dec (Qabs (fsub (inject_Z curr) widthMM))
                (Qabs (fsub (inject_Z prev) widthMM))
  then curr else prev.

Definition closestWidth (widthMM : Q) : Z :=
  let widths := map fst standardWidths in
  reduce1 (closer widthMM) widths 0.

(** [getOptimalCharacterWidth(widthMM)], in binary64 as the source
    computes it; [Math.floor], [Math.min] and [Math.max] are exact.  The
    argument is read as the binary64 number nearest to it, which is the
    number that the function receives. *)
Definition getOptimalCharacterWidth (widthMM : Q) : Z :=
  let widthMM := round64 widthMM in
  let closest := closestWidth widthMM in
  if Qle_bool (Qabs (fsub (inject_Z closest) widthMM)) 2 then
    match lookup_width closest with Some chars => chars | None => 0 end
  else
    let printableWidthMM := fsub widthMM 6 in
    let printableWidthCM := fdiv printableWidthMM 10 in
    let charsPerCM := round64 (59 # 10) in
    let calculatedChars := Qfloor (fmul printableWidthCM charsPerCM) in
    Z.max 32 (Z.min 64 calculatedChars).

(** ** Dates *)

(** The local-time fields of [new Date(date)] that the formatters read. *)
Record datetime : Type := {
  getDate : Z;
  getMonth : Z;
  getFullYear : Z;
  getHours : Z;
  getMinutes : Z
}.

Definition String_of_Z (z : Z) : jsstring := String_of_number (num_of_Z z).

(** [formatDate(date)]; [None] is a falsy argument. *)
Definition formatDate (date : option datetime) : jsstring :=
  match date with
  | None => []
  | Some d =>
      let day := padStart0 (String_of_Z (getDate d)) 2 in
      let month := padStart0 (String_of_Z (getMonth d + 1)) 2 in
      let year := slice_last (String_of_Z (getFullYear d)) 2 in
      day ++ str "/" ++ month ++ str "/" ++ year
  end.

(** [formatTime(time)] *)
Definition formatTime (time : option datetime) : jsstring :=
  match time with
  | None => []
  | Some d =>
      let hours := getHours d in
      let minutes := padStart0 (String_of_Z (getMinutes d)) 2 in
      let period := if hours >=? 12 then str "PM" else str "AM" in
      let hours := if Z.rem hours 12 =? 0 then 12 else Z.rem hours 12 in
      String_of_Z hours ++ str ":" ++ minutes ++ str " " ++ period
  end.

(** ** Optional fields *)

(** A string field that may be absent; [None] is [undefined]. *)
Definition truthy (o : option jsstring) : bool :=
  match o with Some (_ :: _) => true | _ => false end.

(** [a || b] *)
Definition or_else (a b : option jsstring) : option jsstring :=
  if truthy a then a else b.

(** [a || 'literal'] *)
Definition or_default (a : option jsstring) (b : jsstring) : jsstring :=
  match a with Some (c :: s) => c :: s | _ => b end.

(** The text of [`${a}`] *)
Definition template (a : option jsstring) : jsstring :=
  match a with Some s => s | None => str "undefined" end.

(** [l.filter(Boolean)] on optional strings *)
Definition filter_Boolean (l : list (option jsstring)) : list jsstring :=
  omap (fun o => if truthy o then o else None) l.

(** ** The receipt model *)

Record location : Type := {
  loc_binNumber : option jsstring;
  loc_vatFormNumber : option jsstring;
  loc_address : option jsstring;
  loc_phone : option jsstring;
  loc_email : option jsstring
}.

Record address : Type := {
  addressLine : option jsstring;
  area_label : option jsstring;
  city_label : option jsstring;
  zipcode : option jsstring;
  country : option jsstring
}.

Record customer : Type := {
  cust_name : option jsstring;
  cust_phone : option jsstring;
  cust_email : option jsstring;
  cust_addresses : list address
}.

(** [quantity] is [None] when the item has none (the field is missing or
    null): the builder calls its [toString]. *)
Record item : Type := {
  variantName : option jsstring;
  itemName : option jsstring;
  quantity : option number;
  unitPrice : number
}.

Record note : Type := {
  visibleOnInvoice : bool;
  note_text : option jsstring;
  note_createdAt : option datetime;
  note_author_name : option jsstring
}.

Record receipt : Type := {
  displayName : option jsstring;
  data_location : option location;
  binNumber : option jsstring;
  vatFormNumber : option jsstring;
  customDomain : option jsstring;
  invoiceNumber : option jsstring;
  createdAt : option datetime;
  data_customer : option customer;
  items : list item;
  notes : list note
}.

Record charge : Type := {
  applicationMethod : option jsstring;
  chargeLabel : option jsstring;
  calculatedValue : number
}.

Record payment : Type := {
  method : jsstring;
  amount : number;
  pay_createdAt : option datetime;
  user : option jsstring
}.

(** [totalQuantity] is [None] when it is missing: it is printed in a
    template, not computed with. *)
Record totals : Type := {
  totalQuantity : option number;
  subtotal : number;
  charges : list charge;
  grandTotal : number;
  payments : list payment;
  totalPaid : number;
  balanceDue : number
}.

(** ** The printer command sink *)

Inductive alignment : Type := LEFT | CENTER | RIGHT.

(** A cell of [tableCustom]; the text is [None] when the source passes
    [undefined]. *)
Record column : Type := {
  col_text : option jsstring;
  col_align : alignment;
  col_width : Q
}.

Inductive command : Type :=
| Bold (on : bool)
| Invert (on : bool)
| AlignCenter
| AlignLeft
| SetTextQuadArea
| SetTextNormal
| SetTextSize (height width : Z)
| SetTypeFontA
| SetTypeFontB
| Print (text : jsstring)
| Println (text : jsstring)
| NewLine
| DrawLine
| TableCustom (columns : list column)
| Cut.

(** How a run of the receipt builder ends. *)
Inductive result (A : Type) : Type :=
| Ok (a : A)
| TypeError
| Diverges.
Arguments Ok {A} a.
Arguments TypeError {A}.
Arguments Diverges {A}.

(** A computation that appends commands to the buffer of the printer
    object, or throws, or does not return. *)
Definition printing (A : Type) : Type := result (A * list command).

#[global] Instance printing_ret : MRet printing := fun A a => Ok (a, []).

#[global] Instance printing_bind : MBind printing := fun A B k m =>
  match m with
  | Ok (a, out1) =>
      match k a with
      | Ok (b, out2) => Ok (b, out1 ++ out2)
      | TypeError => TypeError
      | Diverges => Diverges
      end
  | TypeError => TypeError
  | Diverges => Diverges
  end.

Definition emit (c : command) : printing unit := Ok (tt, [c]).

Definition when (b : bool) (m : printing unit) : printing unit :=
  if b then m else mret tt.

(** [l.forEach((x, index) => f x index)], the index counted from [i]. *)
Fixpoint forEach_from {A : Type} (i : Z) (l : list A) (f : A -> Z -> printing unit)
  : printing unit :=
  match l with
  | [] => mret tt
  | x :: rest => f x i ;; forEach_from (i + 1) rest f
  end.

Definition forEach {A : Type} (l : list A) (f : A -> printing unit) : printing unit :=
  forEach_from 0 l (fun x _ => f x).

(** [l.length > 0] *)
Definition len_list_gt0 {A : Type} (l : list A) : bool :=
  Z.of_nat (length l) >? 0.

(** A call of [wrapText] from the builder. *)
Definition call_wrapText (text : jsstring) (maxWidth : Z) : printing (list jsstring) :=
  match wrapText text maxWidth with
  | Some lines => mret lines
  | None => Diverges
  end.

(** ** The receipt builder *)

(** [data.location?.f] *)
Definition loc_field (data : receipt) (f : location -> option jsstring)
  : option jsstring :=
  match data_location data with Some l => f l | None => None end.

(** [data.location.f]: a [TypeError] when [data.location] is absent. *)
Definition loc_field_strict (data : receipt) (f : location -> option jsstring)
  : printing (option jsstring) :=
  match data_location data with Some l => mret (f l) | None => TypeError end.

(** [x.toString()]: a [TypeError] when [x] is undefined or null. *)
Definition toString_strict (x : option number) : printing jsstring :=
  match x with Some n => mret (String_of_number n) | None => TypeError end.

(** The text of [`${x}`] for a number that may be missing. *)
Definition template_number (x : option number) : jsstring :=
  match x with Some n => String_of_number n | None => str "undefined" end.

(** [CommaFormatted(CurrencyFormatted(x))] *)
Definition money (x : number) : jsstring :=
  CommaFormatted (CurrencyFormatted x None).

(** From [printer.bold(true)] to the [drawLine] that closes the header. *)
Definition printHeader (charWidth : Z) (data : receipt) : printing unit :=
  emit (Bold true) ;;
  emit AlignCenter ;;
  emit SetTextQuadArea ;;
  emit (Bold true) ;;
  emit (Println (or_default (displayName data) (str "Organization"))) ;;
  emit (Invert false) ;;
  emit SetTextNormal ;;
  emit (Bold true) ;;
  emit (SetTextSize 0 0) ;;
  when (truthy (or_else (loc_field data loc_binNumber) (binNumber data)))
    (emit (Println (str "BIN: " ++
       template (or_else (loc_field data loc_binNumber) (binNumber data)))) ;;
     when (truthy (or_else (loc_field data loc_vatFormNumber) (vatFormNumber data)))
       (v ← loc_field_strict data loc_vatFormNumber ;
        emit (Println (str "Mushak - " ++
          template (or_else v (vatFormNumber data)))))) ;;
  when (truthy (loc_field data loc_address))
    (addressLines ← call_wrapText (template (loc_field data loc_address)) charWidth ;
     forEach addressLines (fun line => emit (Println line))) ;;
  when (truthy (or_else (loc_field data loc_phone) (loc_field data loc_email)))
    (when (truthy (loc_field data loc_phone))
       (emit (Print (template (loc_field data loc_phone))) ;;
        when (truthy (loc_field data loc_email)) (emit (Print (str ", ")))) ;;
     when (truthy (loc_field data loc_email))
       (emit (Print (template (loc_field data loc_email)))) ;;
     emit NewLine) ;;
  when (truthy (customDomain data))
    (emit (Println (template (customDomain data)))) ;;
  emit AlignLeft ;;
  emit DrawLine.

Definition printInvoiceInfo (charWidth : Z) (data : receipt) : printing unit :=
  emit (Println (createTwoColumnLine
    (str "INVOICE " ++ template (invoiceNumber data))
    (formatDate (createdAt data))
    charWidth)) ;;
  emit (Println (createTwoColumnLine
    []
    (formatTime (createdAt data))
    charWidth)).

Definition printCustomer (data : receipt) : printing unit :=
  match data_customer data with
  | None => mret tt
  | Some c =>
      emit DrawLine ;;
      emit (Println (str "CUSTOMER")) ;;
      when (truthy (cust_name c)) (emit (Println (template (cust_name c)))) ;;
      when (truthy (cust_phone c))
        (emit (Println (str "Phone: " ++ template (cust_phone c)))) ;;
      when (truthy (cust_email c))
        (emit (Println (str "Email: " ++ template (cust_email c)))) ;;
      match cust_addresses c with
      | addr :: _ =>
          let addrParts := join (str ", ") (filter_Boolean [
            addressLine addr;
            area_label addr;
            city_label addr;
            zipcode addr;
            country addr
          ]) in
          when (len addrParts >? 0)
            (emit (Println (str "Address: " ++ addrParts)))
      | [] => mret tt
      end
  end.

(** The callback of [data.items.forEach].  [Math.floor(charWidth * 0.54)]
    is the integer part of 54 hundredths of the width, which is also
    what binary64 gives for a width up to 2^40. *)
Definition printItem (charWidth : Z) (item : item) (index : Z) : printing unit :=
  let itemName :=
    join (str " - ") (filter_Boolean [variantName item; itemName item]) in
  let serialNum := String_of_Z (index + 1) ++ str "." in
  let itemColumnWidth := charWidth * 54 / 100 in
  wrappedLines ← call_wrapText itemName itemColumnWidth ;
  quantityText ← toString_strict (quantity item) ;
  emit (TableCustom [
    {| col_text := Some serialNum; col_align := LEFT; col_width := 8 # 100 |};
    {| col_text := head wrappedLines; col_align := LEFT; col_width := 54 # 100 |};
    {| col_text := Some quantityText;
       col_align := CENTER; col_width := 15 # 100 |};
    {| col_text := Some (money (unitPrice item));
       col_align := RIGHT; col_width := 23 # 100 |}
  ]) ;;
  forEach (tail wrappedLines) (fun line =>
    emit (TableCustom [
      {| col_text := Some []; col_align := LEFT; col_width := 8 # 100 |};
      {| col_text := Some line; col_align := LEFT; col_width := 54 # 100 |};
      {| col_text := Some []; col_align := CENTER; col_width := 15 # 100 |};
      {| col_text := Some []; col_align := RIGHT; col_width := 23 # 100 |}
    ])).

Definition printItems (charWidth : Z) (data : receipt) : printing unit :=
  emit DrawLine ;;
  emit (TableCustom [
    {| col_text := Some (str "Sl"); col_align := LEFT; col_width := 8 # 100 |};
    {| col_text := Some (str "Item"); col_align := LEFT; col_width := 54 # 100 |};
    {| col_text := Some (str "Qty"); col_align := CENTER; col_width := 15 # 100 |};
    {| col_text := Some (str "Price"); col_align := RIGHT; col_width := 23 # 100 |}
  ]) ;;
  emit DrawLine ;;
  forEach_from 0 (items data) (printItem charWidth).

Definition printSummary (charWidth : Z) (totals : totals) : printing unit :=
  emit DrawLine ;;
  emit (Println (createTwoColumnLine
    (str "Subtotal (" ++ template_number (totalQuantity totals) ++ str ")")
    (money (subtotal totals))
    charWidth)) ;;
  forEach (charges totals) (fun charge =>
    let inclusiveText :=
      match applicationMethod charge with
      | Some m => if jsstring_eqb m (str "INCLUSIVE") then str " (inc)" else []
      | None => []
      end in
    emit (Println (createTwoColumnLine
      (template (chargeLabel charge) ++ inclusiveText)
      (money (Math_abs (calculatedValue charge)))
      charWidth))) ;;
  emit (Println (createTwoColumnLine
    (str "TOTAL")
    (money (grandTotal totals))
    charWidth)).

Definition printPayments (charWidth : Z) (totals : totals) : printing unit :=
  when (len_list_gt0 (payments totals))
    (emit DrawLine ;;
     forEach (payments totals) (fun payment =>
       emit (Println (createTwoColumnLine
         (method payment)
         (money (amount payment))
         charWidth)) ;;
       match pay_createdAt payment with
       | Some _ =>
           let paymentDate :=
             formatDate (pay_createdAt payment) ++ str ", " ++
             formatTime (pay_createdAt payment) in
           emit (Println (str "  " ++ paymentDate ++ str ", " ++
             or_default (user payment) (str "Admin")))
       | None => mret tt
       end) ;;
     emit DrawLine ;;
     when (num_lt (num_of_Z 0) (totalPaid totals))
       (emit (Println (createTwoColumnLine
          (str "PAID")
          (money (totalPaid totals))
          charWidth))) ;;
     when (num_lt (num_of_Z 0) (balanceDue totals))
       (emit (Println (createTwoColumnLine
          (str "DUE")
          (money (balanceDue totals))
          charWidth)))).

Definition printNotes (data : receipt) : printing unit :=
  let visibleNotes := filter (fun n => visibleOnInvoice n = true) (notes data) in
  when (len_list_gt0 visibleNotes)
    (emit NewLine ;;
     emit DrawLine ;;
     emit (Println (str "Notes:")) ;;
     forEach visibleNotes (fun note =>
       emit (Println (str "- " ++ template (note_text note))) ;;
       match note_createdAt note with
       | Some _ =>
           let noteDate :=
             formatDate (note_createdAt note) ++ str ", " ++
             formatTime (note_createdAt note) in
           emit (Println (str "  " ++ noteDate ++ str ", " ++
             or_default (note_author_name note) (str "System")))
       | None => mret tt
       end)).

Definition printFooter : printing unit :=
  emit NewLine ;;
  emit AlignCenter ;;
  emit SetTextNormal ;;
  emit SetTypeFontB ;;
  emit (Println (str "Powered by ProSystem")) ;;
  emit SetTypeFontA ;;
  emit (Bold false) ;;
  emit Cut.

(** [buildThermalReceipt(printer, data, totals)], with [charWidth] for
    [printer.config.width] and the commands sent to [printer] as the
    output.  The blocks are those the comments of the source mark. *)
Definition buildThermalReceipt (charWidth : Z) (data : receipt) (totals : totals)
  : printing unit :=
  printHeader charWidth data ;;
  printInvoiceInfo charWidth data ;;
  printCustomer data ;;
  printItems charWidth data ;;
  printSummary charWidth totals ;;
  printPayments charWidth totals ;;
  printNotes data ;;
  printFooter.

(** ** HTTP responses of the print endpoints *)

Inductive response : Type :=
| NoContent                          (* res.sendStatus(204) *)
| BadRequest                         (* res.status(400).json(...) *)
| Conflict                           (* res.status(409).json(...) *)
| ServerError (message : jsstring).  (* res.status(500).json({ message }) *)

Definition status (r : response) : Z :=
  match r with
  | NoContent => 204
  | BadRequest => 400
  | Conflict => 409
  | ServerError _ => 500
  end.

(** [req.body.printer] *)
Record printer_info : Type := {
  printer_name : option jsstring
}.

(** What a step of a handler that may throw did. *)
Inductive attempt : Type :=
| Done
| Threw (message : option jsstring).

(** ** The [/print] endpoint *)

Module PrintHandler.

Record body : Type := {
  printer : option printer_info;
  html : jsstring;
  widthMM : number;
  heightMM : number
}.

(** What reaches the promise that wraps [win.webContents.print], in
    order of arrival: the 30 second timer, or a call of the callback. *)
Inductive print_event : Type :=
| TimerFires
| PrintCallback (success : bool) (failure : jsstring).

Inductive promise : Type :=
| Pending
| Resolved
| Rejected (message : jsstring).

Record print_state : Type := {
  callbackCalled : bool;
  settled : promise
}.

(** [resolve()] and [reject(e)] only act on a pending promise. *)
Definition settle (st : print_state) (p : promise) : print_state :=
  {| callbackCalled := true;
     settled := match settled st with Pending => p | s => s end |}.

Definition on_event (st : print_state) (ev : print_event) : print_state :=
  match ev with
  | TimerFires =>
      if callbackCalled st then st
      else settle st (Rejected (str "Print operation timed out after 30 seconds"))
  | PrintCallback success failure =>
      if callbackCalled st then st
      else if negb success then settle st Resolved
      else settle st Resolved
  end.

Definition await_print (events : list print_event) : promise :=
  settled (fold_left on_event events
             {| callbackCalled := false; settled := Pending |}).

(** The part of a request that the host decides. *)
Record environment : Type := {
  new_BrowserWindow : attempt;
  loadURL : attempt;
  print_events : list print_event
}.

(** The [catch] block. *)
Definition on_error (message : option jsstring) : response :=
  ServerError (or_default message (str "Unknown print error occurred")).

(** The handler of [api.post('/print', ...)]; [None] when it never
    answers. *)
Definition handle (req : body) (env : environment) : option response :=
  match printer req with
  | None => Some BadRequest
  | Some p =>
      if negb (truthy (printer_name p)) then Some BadRequest
      else
        match new_BrowserWindow env with
        | Threw e => Some (on_error e)
        | Done =>
            match loadURL env with
            | Threw e => Some (on_error e)
            | Done =>
                match await_print (print_events env) with
                | Resolved => Some NoContent
                | Rejected e => Some (on_error (Some e))
                | Pending => None
                end
            end
        end
  end.

(** The same events with every callback reporting success. *)
Definition as_success (ev : print_event) : print_event :=
  match ev with
  | TimerFires => TimerFires
  | PrintCallback _ failure => PrintCallback true failure
  end.

Definition all_success (env : environment) : environment :=
  {| new_BrowserWindow := new_BrowserWindow env;
     loadURL := loadURL env;
     print_events := map as_success (print_events env) |}.

End PrintHandler.

(** ** The job registry of the earlier revision *)

Module JobRegistry.

(** [activePrintJobs]: printer name to job key.  A name is any value a
    request can carry in [printer.name]; [None] is [undefined]. *)
Abbreviation registry := (gmap (option jsstring) jsstring).

Inductive endpoint : Type := PrintHtml | PrintThermal.

(** The fields of a request body that reach the registry code. *)
Record request : Type := {
  route : endpoint;
  printer : option printer_info;
  (** [data], [totals] and [widthMM] are all truthy ([/print-thermal]) *)
  payload_present : bool
}.

(** [`${printer.name}-${Date.now()}`] *)
Definition jobKey (name : option jsstring) (now : Z) : jsstring :=
  template name ++ str "-" ++ String_of_Z now.

Inductive admission_result : Type :=
| Refused (r : response)
| Accepted (name : option jsstring) (key : jsstring).

(** Validation of the body, by route. *)
Definition valid (req : request) : option (option jsstring) :=
  match route req, printer req with
  | PrintHtml, Some p =>
      if truthy (printer_name p) then Some (printer_name p) else None
  | PrintThermal, Some p =>
      if payload_present req then Some (printer_name p) else None
  | _, None => None
  end.

(** A handler from its entry to its first [await]: validation, the
    check of the registry and the marking of the printer as busy. *)
Definition acquire (activePrintJobs : registry) (req : request) (now : Z)
  : registry * admission_result :=
  match valid req with
  | None => (activePrintJobs, Refused BadRequest)
  | Some name =>
      let key := jobKey name now in
      if decide (is_Some (activePrintJobs !! name)) then
        (activePrintJobs, Refused Conflict)
      else
        (<[name := key]> activePrintJobs, Accepted name key)
  end.

(** [if (jobKey && activePrintJobs.get(name) === jobKey)
       activePrintJobs.delete(name)] *)
Definition release (activePrintJobs : registry) (name : option jsstring)
    (key : jsstring) : registry :=
  if decide (activePrintJobs !! name = Some key)
  then delete name activePrintJobs
  else activePrintJobs.

(** The end of an admitted job: after the awaited work returned
    ([Done]) or threw, the registry entry is removed and the response
    sent. *)
Definition finish (activePrintJobs : registry) (r : endpoint)
    (name : option jsstring) (key : jsstring) (outcome : attempt)
  : registry * response :=
  match outcome with
  | Done => (release activePrintJobs name key, NoContent)
  | Threw e =>
      (release activePrintJobs name key,
       ServerError (or_default e
         match r with
         | PrintHtml => str "Unknown print error occurred"
         | PrintThermal => str "Unknown thermal print error occurred"
         end))
  end.

(** *** The service as a transition system *)

Record job : Type := {
  job_route : endpoint;
  job_name : option jsstring;
  job_key : jsstring
}.

(** The registry together with the jobs that were admitted and have
    not finished. *)
Record service : Type := {
  activePrintJobs : registry;
  in_flight : list job
}.

Definition initial : service :=
  {| activePrintJobs := ∅; in_flight := [] |}.

Inductive event : Type :=
| Arrives (req : request) (now : Z)
| Finishes (j : job) (outcome : attempt).

#[global] Instance endpoint_eq_dec : EqDecision endpoint.
Proof. solve_decision. Defined.

#[global] Instance job_eq_dec : EqDecision job.
Proof. solve_decision. Defined.

(** One turn of the event loop. *)
Definition step (s : service) (e : event) : service * option response :=
  match e with
  | Arrives req now =>
      match acquire (activePrintJobs s) req now with
      | (m, Refused r) => ({| activePrintJobs := m; in_flight := in_flight s |}, Some r)
      | (m, Accepted name key) =>
          ({| activePrintJobs := m;
              in_flight :=
                {| job_route := route req; job_name := name; job_key := key |}
                :: in_flight s |},
           None)
      end
  | Finishes j outcome =>
      if decide (j ∈ in_flight s) then
        let '(m, r) :=
          finish (activePrintJobs s) (job_route j) (job_name j) (job_key j)
            outcome in
        ({| activePrintJobs := m;
            in_flight := filter (fun j' => j' ≠ j) (in_flight s) |},
         Some r)
      else (s, None)
  end.

Definition run (s : service) (events : list event) : service :=
  fold_left (fun s e => fst (step s e)) events s.

End JobRegistry.

(** ** Start-up and the service ports *)

Module Startup.

Definition MAX_STARTUP_ATTEMPTS : Z := 3.

(** What the start-up code does that can be seen from outside. *)
Inductive action : Type :=
| CheckingPorts                      (* a run of ensurePortsAvailable begins *)
| Probe (port : Z)                   (* isPortAvailable(port) *)
| ShutdownRequest (port : Z)         (* attemptGracefulShutdown(port) *)
| ForceKill (port : Z)               (* killProcessOnPort(port) *)
| RetryAfter (ms : Z)                (* setTimeout(() => startApi(...), ms) *)
| StartServices                      (* express, WebSocket server, listen *)
| ReportFailure (error : jsstring).  (* send('api-startup-failed', { error }) *)

#[global] Instance action_eq_dec : EqDecision action.
Proof. solve_decision. Defined.

(** How the code after the port check goes. *)
Inductive service_outcome : Type :=
| Listening
| ListenError (EADDRINUSE : bool)
| Throws (message : option jsstring).

(** How a start-up ends. *)
Inductive ending : Type :=
| Running
| StartupFailed
| Stopped.

(** A step of a port-acquisition sequence. *)
Definition port_action (a : action) : Prop :=
  match a with
  | Probe _ | ShutdownRequest _ | ForceKill _ => True
  | _ => False
  end.

Section WithHost.

(** The host: its state and its answers to the three port primitives
    and to the start of the services. *)
Context {World : Type}.
Variable isPortAvailable : Z -> World -> bool * World.
Variable attemptGracefulShutdown : Z -> World -> bool * World.
Variable killProcessOnPort : Z -> World -> bool * World.
Variable startServices : World -> service_outcome * World.
(** [globalWebContents] is truthy *)
Variable globalWebContents : bool.
(** Whether the callback given to [api.listen] also runs when the server
    fails to listen.  The source does not say which express it runs on:
    express 4 calls the callback on ['listening'] only; express 5 also
    registers it for ['error'], before the handler that the source adds
    with [httpServer.on('error', ...)], so it runs first. *)
Variable callbackOnListenError : bool.

Record machine : Type := {
  world : World;
  apiStartupAttempts : Z;
  trace : list action
}.

Definition io (A : Type) : Type := machine -> A * machine.

#[global] Instance io_ret : MRet io := fun A a m => (a, m).

#[global] Instance io_bind : MBind io := fun A B k c m =>
  let '(a, m') := c m in k a m'.

Definition log (a : action) : io unit := fun m =>
  (tt, {| world := world m;
          apiStartupAttempts := apiStartupAttempts m;
          trace := trace m ++ [a] |}).

Definition host {A : Type} (f : World -> A * World) : io A := fun m =>
  let '(a, w) := f (world m) in
  (a, {| world := w;
         apiStartupAttempts := apiStartupAttempts m;
         trace := trace m |}).

Definition get_attempts : io Z := fun m => (apiStartupAttempts m, m).

Definition set_attempts (n : Z) : io unit := fun m =>
  (tt, {| world := world m; apiStartupAttempts := n; trace := trace m |}).

Definition probe (port : Z) : io bool :=
  log (Probe port) ;; host (isPortAvailable port).

(** [ensurePortsAvailable(ports)] *)
Fixpoint ensurePortsAvailable (ports : list Z) : io bool :=
  match ports with
  | [] => mret true
  | port :: rest =>
      available ← probe port ;
      if available : bool then ensurePortsAvailable rest
      else
        log (ShutdownRequest port) ;;
        graceful ← host (attemptGracefulShutdown port) ;
        nowAvailable ← (if graceful : bool then probe port else mret false) ;
        if nowAvailable : bool then ensurePortsAvailable rest
        else
          log (ForceKill port) ;;
          _ ← host (killProcessOnPort port) ;
          finalCheck ← probe port ;
          if finalCheck : bool then ensurePortsAvailable rest
          else mret false
  end.

Definition report (error : jsstring) : io unit :=
  if globalWebContents then log (ReportFailure error) else mret tt.

(** [startApi(webContents)], each [setTimeout] followed through to the
    call it schedules; [fuel] bounds the number of calls and [None]
    says that it ran out. *)
Fixpoint startApi (fuel : nat) : io (option ending) :=
  match fuel with
  | O => mret None
  | S fuel' =>
      log CheckingPorts ;;
      portsAvailable ← ensurePortsAvailable [21321; 21322] ;
      if negb portsAvailable then
        n ← get_attempts ;
        set_attempts (n + 1) ;;
        if n + 1 <? MAX_STARTUP_ATTEMPTS then
          log (RetryAfter 3000) ;; startApi fuel'
        else
          report (str "Ports 21321 and 21322 are occupied and cannot be freed") ;;
          mret (Some StartupFailed)
      else
        log StartServices ;;
        outcome ← host startServices ;
        match outcome with
        | Listening => set_attempts 0 ;; mret (Some Running)
        | ListenError EADDRINUSE =>
            (if callbackOnListenError then set_attempts 0 else mret tt) ;;
            if EADDRINUSE then
              n ← get_attempts ;
              set_attempts (n + 1) ;;
              if n + 1 <? MAX_STARTUP_ATTEMPTS then
                log (RetryAfter 3000) ;; startApi fuel'
              else mret (Some Stopped)
            else mret (Some Stopped)
        | Throws message =>
            n ← get_attempts ;
            set_attempts (n + 1) ;;
            if n + 1 <? MAX_STARTUP_ATTEMPTS then
              log (RetryAfter 3000) ;; startApi fuel'
            else
              report (or_default message (str "Unknown startup error")) ;;
              mret (Some StartupFailed)
        end
  end.

(** A run that only adds port actions to the trace and leaves the
    counter alone. *)
Definition port_run {A : Type} (c : io A) : Prop :=
  forall m, exists pt,
    apiStartupAttempts (snd (c m)) = apiStartupAttempts m /\
    trace (snd (c m)) = trace m ++ pt /\
    Forall port_action pt.

(** A fresh process: the counter is zero and nothing has happened. *)
Definition boot (w : World) : machine :=
  {| world := w; apiStartupAttempts := 0; trace := [] |}.

End WithHost.

(** Number of port-acquisition sequences in a trace. *)
Definition attempts_made (t : list action) : nat :=
  length (filter (fun a => a = CheckingPorts) t).

(** An action that neither begins a port-acquisition sequence nor
    schedules one. *)
Definition quiet (a : action) : Prop :=
  match a with
  | CheckingPorts => False
  | RetryAfter _ => False
  | _ => True
  end.

(** A trace that does not begin with a new port-acquisition sequence. *)
Definition continues (t : list action) : Prop :=
  match t with
  | CheckingPorts :: _ => False
  | _ => True
  end.

(** Every delay is the same 3000 ms, and every port-acquisition
    sequence but the first comes right after one; [prev] is the action
    before the trace. *)
Fixpoint backed_off (prev : option action) (t : list action) : bool :=
  match t with
  | [] => true
  | a :: t' =>
      match a with
      | CheckingPorts =>
          match prev with
          | None => true
          | Some (RetryAfter ms) => ms =? 3000
          | Some _ => false
          end
      | RetryAfter ms => ms =? 3000
      | _ => true
      end && backed_off (Some a) t'
  end.

End Startup.

(** ** Reference notions for the amounts *)

(** A decimal digit. *)
Definition is_dec_digit (c : ascii) : Prop :=
  exists d, 0 <= d <= 9 /\ c = digit_char d.

(** The cents of an amount as the source computes them,
    [(Math.abs(i) + .005) * 100] in binary64. *)
Definition cents64 (x : Q) : Q :=
  round64 (round64 (Qabs (round64 x) + round64 (5 # 1000)) * 100).

(** Removal of a trailing ".00" from a string that has a point. *)
Definition strip_dot00 (s : jsstring) : jsstring :=
  if contains_char s "."%char then replace_trailing_dot00 s else s.

(** The expressions of the source on the primitive binary64 numbers of
    Rocq, to check [round64] against them at concrete inputs. *)
Module Binary64.
Import PrimFloat SpecFloat FloatOps.

(** [(i + .005) * 100] *)
Definition cents (i : float) : float := ((i + 0.005) * 100)%float.

(** [((widthMM - 6) / 10) * 5.9] *)
Definition width_formula (widthMM : float) : float :=
  ((widthMM - 6) / 10 * 5.9)%float.

(** [Math.abs(s - widthMM)] *)
Definition distance (s widthMM : float) : float := abs (s - widthMM)%float.

(** The rational value of a finite binary64 number. *)
Definition rational (f : float) : option Q :=
  match Prim2SF f with
  | S754_zero _ => Some 0%Q
  | S754_finite s m e =>
      Some ((if s then -1 else 1) * inject_Z (Zpos m) * pow2 e)%Q
  | _ => None
  end.

(** [f] is the binary64 number [q]. *)
Definition is_rational (f : float) (q : Q) : bool :=
  match rational f with Some x => Qeq_bool x q | None => false end.

End Binary64.

(** ** Reference notions for the layout properties *)

(** The words of a text: its maximal runs of characters that are not
    white space.  [cur] is the word being read. *)
Definition flush (cur : jsstring) : list jsstring :=
  match cur with [] => [] | _ => [cur] end.

Fixpoint words_acc (cur : jsstring) (s : jsstring) : list jsstring :=
  match s with
  | [] => flush cur
  | c :: s' =>
      if is_white_space c then flush cur ++ words_acc [] s'
      else words_acc (cur ++ [c]) s'
  end.

Definition words (s : jsstring) : list jsstring := words_acc [] s.

(** Single-space normalisation: the words, one space between them. *)
Definition normalize (s : jsstring) : jsstring := join (str " ") (words s).

Definition starts_with_space (s : jsstring) : bool :=
  match s with c :: _ => is_white_space c | [] => false end.

(** The break of one iteration falls between two words: white space
    follows it or precedes it. *)
Definition break_between_words (maxWidth : Z) (remaining : jsstring) : bool :=
  let bp := breakPoint maxWidth remaining in
  starts_with_space (substring_from remaining bp)
  || starts_with_space (rev (substring remaining 0 bp)).

(** No iteration of the loop cuts a word in two. *)
Fixpoint no_word_cut (fuel : nat) (maxWidth : Z) (remaining : jsstring) : bool :=
  match fuel with
  | O => true
  | S fuel' =>
      if len remaining >? 0 then
        if len remaining <=? maxWidth then true
        else
          break_between_words maxWidth remaining
          && no_word_cut fuel' maxWidth (wrap_rest maxWidth remaining)
      else true
  end.

(** A text whose only white space is the space character, the one
    [wrapText] looks for. *)
Definition plain_spaces (s : jsstring) : Prop :=
  Forall (fun c => is_white_space c = true -> c = " "%char) s.

(** A text none of whose words is longer than the width. *)
Definition words_fit (maxWidth : Z) (s : jsstring) : Prop :=
  Forall (fun word => len word <= maxWidth) (words s).

(** Distance in millimetres from a standard width to the paper width. *)
Definition distance (s : Z) (widthMM : Q) : Q := Qabs (inject_Z s - widthMM).

(** The same distance as the source computes it,
    [Math.abs(s - widthMM)] in binary64. *)
Definition distance64 (s : Z) (widthMM : Q) : Q :=
  Qabs (fsub (inject_Z s) widthMM).

(** The formula of the source for a width that is not standard,
    [((widthMM - 6) / 10) * 5.9], in binary64. *)
Definition width_formula (widthMM : Q) : Q :=
  fmul (fdiv (fsub widthMM 6) 10) (round64 (59 # 10)).

(** ** Reference notions for the receipt *)

(** The commands a run sent to the printer. *)
Definition commands_of {A : Type} (m : printing A) : result (list command) :=
  match m with
  | Ok (_, out) => Ok out
  | TypeError => TypeError
  | Diverges => Diverges
  end.

(** The payments section in the words of the specification: nothing for
    an empty payment list; otherwise a separator, for each payment its
    row and, when it is dated, the indented line with date, time and
    user, a second separator, the PAID row when the total paid is
    positive and the DUE row when the balance due is positive. *)
Definition payment_rows (charWidth : Z) (p : payment) : list command :=
  Println (createTwoColumnLine (method p) (money (amount p)) charWidth) ::
  match pay_createdAt p with
  | Some _ =>
      [Println (str "  " ++ (formatDate (pay_createdAt p) ++ str ", " ++
                             formatTime (pay_createdAt p)) ++ str ", " ++
                or_default (user p) (str "Admin"))]
  | None => []
  end.

Definition positive (x : number) : bool := num_lt (num_of_Z 0) x.

Definition paid_row (charWidth : Z) (totalPaid : number) : list command :=
  if positive totalPaid
  then [Println (createTwoColumnLine (str "PAID") (money totalPaid) charWidth)]
  else [].

Definition due_row (charWidth : Z) (balanceDue : number) : list command :=
  if positive balanceDue
  then [Println (createTwoColumnLine (str "DUE") (money balanceDue) charWidth)]
  else [].

Definition payments_section (charWidth : Z) (payments : list payment)
    (totalPaid balanceDue : number) : list command :=
  match payments with
  | [] => []
  | _ :: _ =>
      [DrawLine] ++ flat_map (payment_rows charWidth) payments ++ [DrawLine]
      ++ paid_row charWidth totalPaid ++ due_row charWidth balanceDue
  end.

(** Emphasis after a run of commands that began with emphasis [on]:
    [bold] sets it and [setTextNormal] resets it, as the comments of the
    source say. *)
Definition emphasis_step (on : bool) (c : command) : bool :=
  match c with
  | Bold b => b
  | SetTextNormal => false
  | _ => on
  end.

Definition emphasis_after (cmds : list command) (on : bool) : bool :=
  fold_left emphasis_step cmds on.

(** A text line or a separator. *)
Definition is_row (c : command) : Prop :=
  match c with
  | Println _ | DrawLine => True
  | _ => False
  end.

(** A run that leaves the emphasis as it found it. *)
Definition keeps_emphasis {A : Type} (m : printing A) : Prop :=
  forall a out on, m = Ok (a, out) -> emphasis_after out on = on.

(** A run that leaves the emphasis on. *)
Definition ends_emphasized {A : Type} (m : printing A) : Prop :=
  forall a out on, m = Ok (a, out) -> emphasis_after out on = true.

(** The commands of [printFooter]. *)
Definition footer_commands : list command :=
  [NewLine; AlignCenter; SetTextNormal; SetTypeFontB;
   Println (str "Powered by ProSystem"); SetTypeFontA; Bold false; Cut].

(** Totals with the given summary fields and payment fields. *)
Definition make_totals (tq : option number) (sub : number) (ch : list charge)
    (gt : number)
    (pays : list payment) (tp bd : number) : totals :=
  {| totalQuantity := tq; subtotal := sub; charges := ch; grandTotal := gt;
     payments := pays; totalPaid := tp; balanceDue := bd |}.

(** A small receipt, for the examples. *)
Definition sample_receipt : receipt :=
  {| displayName := Some (str "Corner Shop");
     data_location := Some {| loc_binNumber := None;
                              loc_vatFormNumber := None;
                              loc_address := Some (str "12 Lake Road, Dhaka");
                              loc_phone := Some (str "01700000000");
                              loc_email := None |};
     binNumber := None;
     vatFormNumber := None;
     customDomain := None;
     invoiceNumber := Some (str "INV-7");
     createdAt := Some {| getDate := 21; getMonth := 7; getFullYear := 2025;
                          getHours := 13; getMinutes := 5 |};
     data_customer := None;
     items := [{| variantName := Some (str "Large"); itemName := Some (str "Tea");
                  quantity := Some (num_of_Z 2); unitPrice := Num (125 # 10) |}];
     notes := [] |}.

Definition sample_payment : payment :=
  {| method := str "CASH"; amount := num_of_Z 20; pay_createdAt := None;
     user := None |}.

(** The registry holds exactly the keys of the jobs in flight, and no two
    jobs in flight name the same printer. *)
Definition consistent (s : JobRegistry.service) : Prop :=
  NoDup (JobRegistry.job_name <$> JobRegistry.in_flight s) /\
  forall name key,
    JobRegistry.activePrintJobs s !! name = Some key <->
    exists j, j ∈ JobRegistry.in_flight s /\
              JobRegistry.job_name j = name /\ JobRegistry.job_key j = key.

(** A printer with a job in flight. *)
Definition busy (s : JobRegistry.service) (name : option jsstring) : Prop :=
  name ∈ JobRegistry.job_name <$> JobRegistry.in_flight s.

(** ** Reference notions for the start-up *)

(** The error reported when the ports cannot be freed. *)
Definition ports_occupied : jsstring :=
  str "Ports 21321 and 21322 are occupied and cannot be freed".

(** The actions of an attempt that finds both ports free and goes on to
    start the services. *)
Definition listen_attempt : list Startup.action :=
  [Startup.CheckingPorts; Startup.Probe 21321; Startup.Probe 21322;
   Startup.StartServices].

(** A host on which the ports never become free, for the examples. *)
Definition held_port (port : Z) (w : unit) : bool * unit := (false, w).

(** A host on which the ports are free when they are probed and the
    HTTP server then fails to listen because the address is in use. *)
Definition probed_free (port : Z) (w : unit) : bool * unit := (true, w).

Definition address_in_use (w : unit) : Startup.service_outcome * unit :=
  (Startup.ListenError true, w).

Definition no_effect (port : Z) (w : unit) : bool * unit := (false, w).

Definition not_reached (w : unit) : Startup.service_outcome * unit :=
  (Startup.Listening, w).

(** ** Padding *)

(** [padRight(str, length)] *)
Definition padRight (s : jsstring) (n : Z) : jsstring :=
  if len s >=? n then substring s 0 n
  else s ++ repeat_space (n - len s).

(** [padLeft(str, length)] *)
Definition padLeft (s : jsstring) (n : Z) : jsstring :=
  if len s >=? n then substring s 0 n
  else repeat_space (n - len s) ++ s.

(** ** Reference notions for the dates *)

(** The two decimal digits of a number below 100. *)
Definition two_digits (n : Z) : jsstring :=
  [digit_char (n / 10); digit_char (n mod 10)].

(** The hour of the 12-hour clock. *)
Definition hour12 (h : Z) : Z := if h mod 12 =? 0 then 12 else h mod 12.

(** A time of day. *)
Definition time_of_day (d : datetime) : Prop :=
  0 <= getHours d <= 23 /\ 0 <= getMinutes d <= 59.

(** A calendar date of a year with at least two digits; 275760 is the
    last year a [Date] can hold. *)
Definition calendar_date (d : datetime) : Prop :=
  1 <= getDate d <= 31 /\ 0 <= getMonth d <= 11 /\
  10 <= getFullYear d <= 275760.

(** ** Reference notions for the word wrap *)

(** The characters of a text that are not white space, in order. *)
Definition ink (s : jsstring) : jsstring :=
  List.filter (fun c => negb (is_white_space c)) s.

(** A text with no white space at either end. *)
Definition trimmed (s : jsstring) : Prop := trim s = s.

(** ** Reference notions for the receipt as a whole *)

(** A run all of whose commands satisfy [P]. *)
Definition emits (P : command -> Prop) {A : Type} (m : printing A) : Prop :=
  forall a out, m = Ok (a, out) -> Forall P out.

(** A run that neither throws nor goes on for ever. *)
Definition returns {A : Type} (m : printing A) : Prop :=
  exists a out, m = Ok (a, out).

(** A BIN and a VAT form number given beside a missing [location]. *)
Definition bin_and_vat_without_location (data : receipt) : bool :=
  match data_location data with
  | Some _ => false
  | None => truthy (binNumber data) && truthy (vatFormNumber data)
  end.

(** An item without a quantity, and a receipt that has one. *)
Definition lacks_quantity (i : item) : bool :=
  match quantity i with None => true | Some _ => false end.

Definition item_without_quantity (data : receipt) : bool :=
  existsb lacks_quantity (items data).

(** A command of the items table: a separator, or a row of four cells
    whose widths add up to the line, whose texts are all defined, and
    whose item cell fits the item column. *)
Definition items_table_row (charWidth : Z) (c : command) : Prop :=
  match c with
  | DrawLine => True
  | TableCustom [sl; name; qty; price] =>
      (col_width sl + col_width name + col_width qty + col_width price == 1)%Q /\
      (exists text, col_text name = Some text /\ len text <= charWidth * 54 / 100) /\
      col_text sl <> None /\ col_text qty <> None /\ col_text price <> None
  | _ => False
  end.

(** The notes section in words: nothing when no note is visible;
    otherwise a blank line, a separator, the heading, and for each
    visible note its text and, when it is dated, the indented line with
    date, time and author. *)
Definition note_rows (n : note) : list command :=
  Println (str "- " ++ template (note_text n)) ::
  match note_createdAt n with
  | Some _ =>
      [Println (str "  " ++ (formatDate (note_createdAt n) ++ str ", " ++
                             formatTime (note_createdAt n)) ++ str ", " ++
                or_default (note_author_name n) (str "System"))]
  | None => []
  end.

Definition notes_section (visible : list note) : list command :=
  match visible with
  | [] => []
  | _ :: _ => [NewLine; DrawLine; Println (str "Notes:")] ++ flat_map note_rows visible
  end.

Definition visible_notes (data : receipt) : list note :=
  filter (fun n => visibleOnInvoice n = true) (notes data).

(** A receipt with a BIN and a VAT form number and no [location]. *)
Definition receipt_without_location : receipt :=
  {| displayName := Some (str "Corner Shop");
     data_location := None;
     binNumber := Some (str "000123");
     vatFormNumber := Some (str "6.3");
     customDomain := None;
     invoiceNumber := Some (str "INV-8");
     createdAt := None;
     data_customer := None;
     items := [];
     notes := [] |}.

(** ** The [/print-thermal] endpoint *)

Module ThermalHandler.

(** [req.body]; a field is [None] when it is missing, and [widthMM] is
    [NaN] when it is missing. *)
Record body : Type := {
  printer : option printer_info;
  body_data : option receipt;
  body_totals : option totals;
  widthMM : number
}.

(** [!x] for a number *)
Definition falsy (x : number) : bool :=
  match x with
  | NaN => true
  | Num q => Qeq_bool (round64 q) 0
  end.

(** The promise that wraps the transport, and whether its timer has
    been cleared or has fired. *)
Record send_state : Type := {
  timer_spent : bool;
  settled : PrintHandler.promise
}.

(** [resolve] and [reject] only act on a pending promise. *)
Definition settle (st : send_state) (p : PrintHandler.promise) : send_state :=
  {| timer_spent := true;
     settled := match settled st with PrintHandler.Pending => p | s => s end |}.

Definition clear_timer (st : send_state) : send_state :=
  {| timer_spent := true; settled := settled st |}.

Definition waiting : send_state :=
  {| timer_spent := false; settled := PrintHandler.Pending |}.

(** *** Production: [printer.printDirect] with type RAW *)

(** What reaches the promise, in order of arrival: the 30 second timer,
    the [success] callback, the [error] callback. *)
Inductive raw_event : Type :=
| RawTimerFires
| RawSuccess (jobID : jsstring)
| RawError (err : jsstring).

Definition on_raw_event (st : send_state) (ev : raw_event) : send_state :=
  match ev with
  | RawTimerFires =>
      if timer_spent st then st
      else settle st (PrintHandler.Rejected
                        (str "Print operation timed out after 30 seconds"))
  | RawSuccess _ => settle st PrintHandler.Resolved
  | RawError err => settle st (PrintHandler.Rejected (str "Print failed: " ++ err))
  end.

(** [printDirect] is [Threw] when the call itself throws. *)
Definition send_raw (printDirect : attempt) (events : list raw_event)
  : PrintHandler.promise :=
  settled (fold_left on_raw_event events
    match printDirect with
    | Done => waiting
    | Threw message =>
        settle waiting (PrintHandler.Rejected
          (str "Failed to initialize print: " ++ template message))
    end).

(** *** Development: a TCP connection to the emulator *)

(** The 10 second timer and the events of the socket; [write] is
    [Threw] when [socket.write] or [socket.end] throws. *)
Inductive tcp_event : Type :=
| TcpTimerFires
| TcpConnect (write : attempt)
| TcpError (message : option jsstring)
| TcpClose.

Definition on_tcp_event (st : send_state) (ev : tcp_event) : send_state :=
  match ev with
  | TcpTimerFires =>
      if timer_spent st then st
      else settle st (PrintHandler.Rejected
                        (str "TCP connection timed out after 10 seconds"))
  | TcpConnect Done => clear_timer st
  | TcpConnect (Threw message) =>
      settle st (PrintHandler.Rejected
                   (str "Failed to write to emulator: " ++ template message))
  | TcpError message =>
      settle st (PrintHandler.Rejected
                   (str "Failed to connect to emulator: " ++ template message))
  | TcpClose => settle st PrintHandler.Resolved
  end.

(** [connect] is [Threw] when [net.connect] throws. *)
Definition send_tcp (connect : attempt) (events : list tcp_event)
  : PrintHandler.promise :=
  settled (fold_left on_tcp_event events
    match connect with
    | Done => waiting
    | Threw message =>
        settle waiting (PrintHandler.Rejected
          (str "Failed to create TCP connection: " ++ template message))
    end).

(** *** The handler *)

(** The part of a request that the host decides. *)
Record environment : Type := {
  isDevelopment : bool;
  new_ThermalPrinter : attempt;
  (** the message of a [TypeError] thrown by the receipt builder *)
  typeError_message : option jsstring;
  getBuffer : attempt;
  printDirect : attempt;
  raw_events : list raw_event;
  connect : attempt;
  tcp_events : list tcp_event
}.

Definition transport (env : environment) : PrintHandler.promise :=
  if isDevelopment env then send_tcp (connect env) (tcp_events env)
  else send_raw (printDirect env) (raw_events env).

(** The [catch] block. *)
Definition on_error (message : option jsstring) : response :=
  ServerError (or_default message (str "Unknown thermal print error occurred")).

(** The handler of [api.post('/print-thermal', ...)]; [None] when it
    never answers. *)
Definition handle (req : body) (env : environment) : option response :=
  match printer req, body_data req, body_totals req with
  | Some printerInfo, Some data, Some totals =>
      match widthMM req with
      | NaN => Some BadRequest
      | Num w =>
          if falsy (Num w) then Some BadRequest
          else
            let charWidth := getOptimalCharacterWidth w in
            match new_ThermalPrinter env with
            | Threw e => Some (on_error e)
            | Done =>
                match buildThermalReceipt charWidth data totals with
                | Diverges => None
                | TypeError => Some (on_error (typeError_message env))
                | Ok _ =>
                    match getBuffer env with
                    | Threw e => Some (on_error e)
                    | Done =>
                        match transport env with
                        | PrintHandler.Resolved => Some NoContent
                        | PrintHandler.Rejected e => Some (on_error (Some e))
                        | PrintHandler.Pending => None
                        end
                    end
                end
            end
      end
  | _, _, _ => Some BadRequest
  end.

End ThermalHandler.

(** ** Reference notions for the endpoints *)

(** A [/print] request that passes validation, on a host that creates
    the window and loads the page. *)
Definition print_job_started (req : PrintHandler.body)
    (env : PrintHandler.environment) : Prop :=
  (exists p, PrintHandler.printer req = Some p /\
             truthy (printer_name p) = true) /\
  PrintHandler.new_BrowserWindow env = Done /\
  PrintHandler.loadURL env = Done.

(** The registry entry of a job. *)
Definition job_entry (j : JobRegistry.job) : option jsstring * jsstring :=
  (JobRegistry.job_name j, JobRegistry.job_key j).

(** A body of [/print-thermal] with every field, for the examples. *)
Definition sample_thermal_body (w : number) : ThermalHandler.body :=
  {| ThermalHandler.printer := Some {| printer_name := Some (str "POS-80") |};
     ThermalHandler.body_data := Some sample_receipt;
     ThermalHandler.body_totals :=
       Some (make_totals (Some (num_of_Z 2)) (num_of_Z 25) [] (num_of_Z 25)
               [sample_payment] (num_of_Z 20) (num_of_Z 5));
     ThermalHandler.widthMM := w |}.

(** A production host on which everything works and the driver reports
    the events [events]. *)
Definition production (events : list ThermalHandler.raw_event)
  : ThermalHandler.environment :=
  {| ThermalHandler.isDevelopment := false;
     ThermalHandler.new_ThermalPrinter := Done;
     ThermalHandler.typeError_message := None;
     ThermalHandler.getBuffer := Done;
     ThermalHandler.printDirect := Done;
     ThermalHandler.raw_events := events;
     ThermalHandler.connect := Done;
     ThermalHandler.tcp_events := [] |}.

(** ** Reference notions for the port check *)

(** The four ways the check of one port can go: the port is free; it is
    freed by the graceful shutdown; the graceful shutdown fails, or
    succeeds and leaves the port in use, and the process is killed. *)
Definition port_sequences (port : Z) : list (list Startup.action) :=
  [ [Startup.Probe port];
    [Startup.Probe port; Startup.ShutdownRequest port; Startup.Probe port];
    [Startup.Probe port; Startup.ShutdownRequest port;
     Startup.ForceKill port; Startup.Probe port];
    [Startup.Probe port; Startup.ShutdownRequest port; Startup.Probe port;
     Startup.ForceKill port; Startup.Probe port] ].

(** The two that end with the process killed. *)
Definition kill_sequences (port : Z) : list (list Startup.action) :=
  drop 2 (port_sequences port).

(** What a run of the port check from the machine [m] gives: the
    ports are checked in order, each by one of its four sequences; the
    counter of attempts is left alone; the answer is [true] when every
    port has been checked, and [false] right after a port whose process
    was killed in vain, the ports after it not being looked at. *)
Definition port_check_outcome {World : Type} (ports : list Z)
    (m : @Startup.machine World) (x : bool * @Startup.machine World) : Prop :=
  exists seqs,
    Startup.trace x.2 = Startup.trace m ++ concat seqs /\
    Startup.apiStartupAttempts x.2 = Startup.apiStartupAttempts m /\
    Forall2 (fun port s => s ∈ port_sequences port)
      (take (length seqs) ports) seqs /\
    if x.1 then length seqs = length ports
    else exists port s,
      last seqs = Some s /\ ports !! (length seqs - 1)%nat = Some port /\
      s ∈ kill_sequences port.

(** An action that tells the shell nothing. *)
Definition silent (a : Startup.action) : Prop :=
  match a with
  | Startup.ReportFailure _ => False
  | _ => True
  end.

(** What the shell is told at each ending of a start-up that went
    through the actions [t] and left the counter at [attempts]: a
    failure is reported once, as the last action, when the start-up is
    given up and there is a shell to tell; a start-up that ends with
    the services running, or stopped by an error of the HTTP server,
    ends on the start of the services and reports nothing. *)
Definition ending_told (globalWebContents : bool) (e : Startup.ending)
    (attempts : Z) (t : list Startup.action) : Prop :=
  match e with
  | Startup.Running =>
      last t = Some Startup.StartServices /\ attempts = 0 /\ Forall silent t
  | Startup.Stopped =>
      last t = Some Startup.StartServices /\ Forall silent t
  | Startup.StartupFailed =>
      if globalWebContents
      then exists t0 error,
             t = t0 ++ [Startup.ReportFailure error] /\ Forall silent t0
      else Forall silent t
  end.

(** A host whose ports are free. *)
Definition free_port (port : Z) (w : unit) : bool * unit := (true, w).

(** A host whose HTTP server fails to listen for another reason than
    an address in use. *)
Definition listen_fails (w : unit) : Startup.service_outcome * unit :=
  (Startup.ListenError false, w).

(** ** The list of printers *)

(** [c.toLowerCase()] for a code unit below 256: the letters A to Z and
    the accented capitals of Latin-1. *)
Definition toLowerCase_char (c : ascii) : ascii :=
  let n := nat_of_ascii c in
  if ((65 <=? n)%nat && (n <=? 90)%nat)
     || ((192 <=? n)%nat && (n <=? 222)%nat && negb (n =? 215)%nat)
  then ascii_of_nat (n + 32)
  else c.

(** [s.toLowerCase()] *)
Definition toLowerCase (s : jsstring) : jsstring := map toLowerCase_char s.

(** [s.startsWith(sub)] *)
Fixpoint starts_with (s sub : jsstring) : bool :=
  match sub, s with
  | [], _ => true
  | c :: sub', d :: s' => Ascii.eqb c d && starts_with s' sub'
  | _ :: _, [] => false
  end.

(** [s.includes(sub)] *)
Fixpoint includes (s sub : jsstring) : bool :=
  starts_with s sub ||
  match s with
  | [] => false
  | _ :: s' => includes s' sub
  end.

(** *** The regular expression for the paper size *)

(** The two kinds of item the pattern is made of: a literal character,
    compared without regard to case as the flag [i] asks, and a
    capturing group [(class+)], which is greedy. *)
Inductive regex_item : Type :=
| Lit (c : ascii)
| Group (class : ascii -> bool).

(** [\d] or a point *)
Definition is_digit_or_point (c : ascii) : bool :=
  let n := nat_of_ascii c in
  ((48 <=? n)%nat && (n <=? 57)%nat) || Ascii.eqb c "."%char.

(** Length of the longest prefix of [s] made of characters of the class. *)
Fixpoint run_length (class : ascii -> bool) (s : jsstring) : nat :=
  match s with
  | c :: s' => if class c then S (run_length class s') else O
  | [] => O
  end.

(** A match of the pattern at the beginning of [s], by backtracking: a
    group first takes the longest run and gives characters back one at
    a time while the rest of the pattern fails.  The result is the list
    of the captured texts. *)
Fixpoint match_here (pattern : list regex_item) (s : jsstring)
  : option (list jsstring) :=
  match pattern with
  | [] => Some []
  | Lit c :: pattern' =>
      match s with
      | d :: s' =>
          if Ascii.eqb (toLowerCase_char c) (toLowerCase_char d)
          then match_here pattern' s' else None
      | [] => None
      end
  | Group class :: pattern' =>
      (fix give_back (k : nat) : option (list jsstring) :=
         match k with
         | O => None
         | S k' =>
             match match_here pattern' (drop k s) with
             | Some captures => Some (take k s :: captures)
             | None => give_back k'
             end
         end) (run_length class s)
  end.

(** [regex.exec(s)]: the match that begins leftmost. *)
Fixpoint exec (pattern : list regex_item) (s : jsstring)
  : option (list jsstring) :=
  match match_here pattern s with
  | Some captures => Some captures
  | None =>
      match s with
      | [] => None
      | _ :: s' => exec pattern s'
      end
  end.

(** [/([\d.]+)x([\d.]+)mm/i] *)
Definition mmRegex : list regex_item :=
  [Group is_digit_or_point; Lit "x"; Group is_digit_or_point; Lit "m"; Lit "m"].

(** [parseFloat(s)] for a text of digits and points, which is what a
    group of [mmRegex] captures: the value of the longest prefix that
    is a decimal number, [NaN] when there is none. *)
Definition is_digit (c : ascii) : bool :=
  let n := nat_of_ascii c in (48 <=? n)%nat && (n <=? 57)%nat.

Definition parseFloat_digits (s : jsstring) : number :=
  let k := run_length is_digit s in
  let int_part := take k s in
  let frac_part :=
    match drop k s with
    | c :: r => if Ascii.eqb c "."%char then take (run_length is_digit r) r else []
    | [] => []
    end in
  match parse_digits 10 (int_part ++ frac_part) None with
  | Some v => Num (inject_Z v / inject_Z (10 ^ len frac_part))
  | None => NaN
  end.

(** *** The entries *)

(** [p.options], a map from strings to strings of which three keys are
    read. *)
Record printer_options : Type := {
  media : option jsstring;
  media_default : option jsstring;
  ppi : option jsstring
}.

(** A printer as [getPrintersAsync] describes it. *)
Record raw_printer : Type := {
  raw_name : jsstring;
  raw_displayName : option jsstring;
  raw_isDefault : bool;
  raw_options : option printer_options
}.

(** An entry of the list the agent publishes. *)
Record printer_entry : Type := {
  entry_id : jsstring;
  entry_name : jsstring;
  entry_isDefault : bool;
  entry_widthMM : option number;
  entry_heightMM : option number;
  entry_dpi : number;
  entry_type : jsstring;
  entry_supportsThermal : bool
}.

(** [pdfPrinters] *)
Definition pdfPrinters : list jsstring :=
  [str "Microsoft Print to PDF";
   str "Microsoft XPS Document Writer";
   str "Adobe PDF";
   str "CutePDF Writer";
   str "PDFCreator";
   str "Foxit Reader PDF Printer";
   str "Bullzip PDF Printer";
   str "OneNote";
   str "Fax"].

(** [p.options?.key] *)
Definition option_read (p : raw_printer) (key : printer_options -> option jsstring)
  : option jsstring :=
  match raw_options p with Some o => key o | None => None end.

(** [p.displayName || p.name] *)
Definition shown_name (p : raw_printer) : jsstring :=
  or_default (raw_displayName p) (raw_name p).

Definition isPdfPrinter (p : raw_printer) : bool :=
  existsb (fun pdfPrinter =>
    includes (toLowerCase (shown_name p)) (toLowerCase pdfPrinter)) pdfPrinters.

Section WithNumber.

(** [Number(s)] for a string, as the engine computes it. *)
Variable Number_of_string : jsstring -> number.

(** The function mapped over [rawPrinters]. *)
Definition format_printer (p : raw_printer) : printer_entry :=
  let media :=
    or_default (or_else (option_read p media) (option_read p media_default)) [] in
  let m := exec mmRegex media in
  let widthMM :=
    match m with Some (w :: _) => Some (parseFloat_digits w) | _ => None end in
  let heightMM :=
    match m with Some (_ :: h :: _) => Some (parseFloat_digits h) | _ => None end in
  {| entry_id := raw_name p;
     entry_name := shown_name p;
     entry_isDefault := raw_isDefault p;
     entry_widthMM := widthMM;
     entry_heightMM := heightMM;
     entry_dpi :=
       match option_read p ppi with
       | Some (c :: s) => Number_of_string (c :: s)
       | _ => num_of_Z 203
       end;
     entry_type := if isPdfPrinter p then str "pdf" else str "physical";
     entry_supportsThermal := negb (isPdfPrinter p) |}.

(** [formatPrinterList(rawPrinters)] *)
Definition formatPrinterList (rawPrinters : list raw_printer) : list printer_entry :=
  map format_printer rawPrinters.

(** *** The tray menu *)

Inductive menu_item : Type :=
| Label (text : jsstring)        (* { label, enabled: false } *)
| Separator                      (* { type: 'separator' } *)
| Restart.                       (* { label: 'Restart', click } *)

(** What a run of [updateTrayMenu] sets and sends. *)
Record tray_update : Type := {
  contextMenu : list menu_item;
  toolTip : jsstring;
  broadcast : list printer_entry
}.

(** [updateTrayMenu(trayInstance, webContents)]; [getPrinters] is
    [None] when [getPrintersAsync] fails. *)
Definition updateTrayMenu (getPrinters : option (list raw_printer)) : tray_update :=
  match getPrinters with
  | Some rawPrinters =>
      let printers := formatPrinterList rawPrinters in
      let defaultPrinter := List.find entry_isDefault printers in
      let statusItem :=
        if len_list_gt0 printers
        then Label (str "Default: " ++
               or_default (entry_name <$> defaultPrinter) (str "(none)"))
        else Label (str "No Printers Found") in
      {| contextMenu := [statusItem; Separator; Restart];
         toolTip := if len_list_gt0 printers
                    then str "Print Agent is running"
                    else str "No printers detected";
         broadcast := printers |}
  | None =>
      {| contextMenu := [Label (str "Error detecting printers"); Restart];
         toolTip := str "Print Agent error";
         broadcast := [] |}
  end.

End WithNumber.

(** ** Reference notions for the list of printers *)

(** A text that names the paper size [w] by [h] millimetres after
    [before]. *)
Definition size_text (before : jsstring) (w h : Z) (after : jsstring) : jsstring :=
  before ++ digits w ++ str "x" ++ digits h ++ str "mm" ++ after.

(** A text in which no match of [mmRegex] can begin: it has no letter
    x, and does not end with a digit or a point. *)
Definition no_size_begins (before : jsstring) : Prop :=
  Forall (fun c => toLowerCase_char c <> "x"%char) before /\
  match last before with
  | Some c => is_digit_or_point c = false
  | None => True
  end.

(** A printer with the given names and media. *)
Definition printer_with (name : jsstring) (displayName media : option jsstring)
  : raw_printer :=
  {| raw_name := name;
     raw_displayName := displayName;
     raw_isDefault := false;
     raw_options := Some {| media := media; media_default := None; ppi := None |} |}.

(** ** The heartbeat of the WebSocket server *)

Module Heartbeat.

(** [wss.clients]: the sockets of the connected clients, each with the
    [isAlive] flag the server keeps on it.  The order in which a tick
    goes through the clients is not modelled. *)
Abbreviation clients := (gmap nat bool).

(** What the server does to a socket on a tick. *)
Inductive action : Type :=
| Ping (socket : nat)
| Terminate (socket : nat).

(** What happens to the server: a client connects, a pong arrives from
    a client, a client closes its connection, the 30 second interval
    fires. *)
Inductive event : Type :=
| Connects (socket : nat)
| Pong (socket : nat)
| Closes (socket : nat)
| Tick.

#[global] Instance event_eq_dec : EqDecision event.
Proof. solve_decision. Defined.

(** The body of the interval, for one client: a client whose flag is
    down is terminated; the flag of any other is lowered and it is
    pinged. *)
Definition beat (c : nat * bool) : action :=
  if c.2 then Ping c.1 else Terminate c.1.

(** The interval: [ws] takes a terminated socket out of [wss.clients]. *)
Definition tick (m : clients) : clients * list action :=
  ((fun _ => false) <$> filter (fun c => c.2 = true) m, beat <$> map_to_list m).

Definition step (m : clients) (e : event) : clients * list action :=
  match e with
  | Connects s => (<[s := true]> m, [])          (* socket.isAlive = true *)
  | Pong s => (alter (fun _ => true) s m, [])     (* socket.isAlive = true *)
  | Closes s => (delete s m, [])
  | Tick => tick m
  end.

(** The clients and the actions after a sequence of events. *)
Fixpoint run (m : clients) (events : list event) : clients * list action :=
  match events with
  | [] => (m, [])
  | e :: rest =>
      let '(m', acts) := step m e in
      let '(m'', acts') := run m' rest in
      (m'', acts ++ acts')
  end.

End Heartbeat.

(** ** Reference notions for the heartbeat *)

(** An event that is neither a pong from the socket nor a new
    connection of it. *)
Definition not_heard (s : nat) (e : Heartbeat.event) : Prop :=
  e <> Heartbeat.Pong s /\ e <> Heartbeat.Connects s.

(** The socket answers every ping: it does not close, and no two ticks
    go by without a pong from it between them.  [pinged] says that a
    tick has gone by since its last pong. *)
Fixpoint answers (s : nat) (pinged : bool) (events : list Heartbeat.event) : bool :=
  match events with
  | [] => true
  | Heartbeat.Tick :: rest => negb pinged && answers s true rest
  | Heartbeat.Pong s' :: rest =>
      answers s (if Nat.eqb s' s then false else pinged) rest
  | Heartbeat.Closes s' :: rest => negb (Nat.eqb s' s) && answers s pinged rest
  | Heartbeat.Connects s' :: rest =>
      answers s (if Nat.eqb s' s then false else pinged) rest
  end.

(** ** Reference notions for the thousands separators *)

(** Groups of digits as the separators set them off: a first group of
    one to three characters, and groups of exactly three after it. *)
Definition thousands (groups : list jsstring) : Prop :=
  match groups with
  | [] => False
  | first :: rest =>
      1 <= len first <= 3 /\ Forall (fun g => len g = 3) rest
  end.

(** The fraction that [CommaFormatted] prints after the digits: none
    when the text after the point is empty or is "00". *)
Definition printed_fraction (frac : jsstring) : jsstring :=
  if (len frac <? 1) || jsstring_eqb frac (str "00") then []
  else str "." ++ frac.

(** * Properties *)

(** ** Strings *)

Lemma len_nonneg (s : jsstring) : 0 <= len s.
Proof. unfold len. lia. Qed.

Lemma len_app (s t : jsstring) : len (s ++ t) = len s + len t.
Proof. unfold len. rewrite length_app. lia. Qed.

Lemma len_nil : len [] = 0.
Proof. reflexivity. Qed.

Lemma len_repeat_space (n : Z) : 0 <= n -> len (repeat_space n) = n.
Proof. intros Hn. unfold len, repeat_space. rewrite length_replicate. lia. Qed.

Lemma take_clamp (s : jsstring) (i : Z) : take (clamp s i) s = take (Z.to_nat i) s.
Proof.
  unfold clamp, len.
  destruct (Z.le_gt_cases i (Z.of_nat (length s))) as [Hle | Hgt].
  - f_equal. lia.
  - rewrite !take_ge; [reflexivity | lia | lia].
Qed.

Lemma drop_clamp (s : jsstring) (i : Z) : drop (clamp s i) s = drop (Z.to_nat i) s.
Proof.
  unfold clamp, len.
  destruct (Z.le_gt_cases i (Z.of_nat (length s))) as [Hle | Hgt].
  - f_equal. lia.
  - rewrite !drop_ge; [reflexivity | lia | lia].
Qed.

Lemma substring_0 (s : jsstring) (b : Z) : substring s 0 b = take (Z.to_nat b) s.
Proof.
  unfold substring.
  replace (clamp s 0) with 0%nat by (unfold clamp, len; lia).
  rewrite Nat.min_0_l, Nat.max_0_l, Nat.sub_0_r. simpl.
  apply take_clamp.
Qed.

Lemma substring_from_drop (s : jsstring) (a : Z) :
  substring_from s a = drop (Z.to_nat a) s.
Proof. apply drop_clamp. Qed.

Lemma len_take (s : jsstring) (n : nat) :
  len (take n s) = Z.min (Z.of_nat n) (len s).
Proof. unfold len. rewrite length_take. lia. Qed.

Lemma len_drop (s : jsstring) (n : nat) :
  len (drop n s) = Z.max 0 (len s - Z.of_nat n).
Proof. unfold len. rewrite length_drop. lia. Qed.

(** ** Two-column lines *)

Lemma createTwoColumnLine_fits (l r : jsstring) (w : Z) :
  len l + len r < w ->
  createTwoColumnLine l r w = l ++ repeat_space (w - len l - len r) ++ r.
Proof.
  intros H. unfold createTwoColumnLine.
  destruct (Z.ltb_spec (w - len l - len r) 1); [lia | reflexivity].
Qed.

Lemma createTwoColumnLine_truncates (l r : jsstring) (w : Z) :
  w <= len l + len r ->
  createTwoColumnLine l r w = take (Z.to_nat (w - len r - 1)) l ++ str " " ++ r.
Proof.
  intros H. unfold createTwoColumnLine.
  destruct (Z.ltb_spec (w - len l - len r) 1); [| lia].
  now rewrite substring_0.
Qed.

(** C3, as the code has it.  The line is [left], the spaces that fill
    it, and [right] when the two texts leave room for at least one space;
    otherwise [left] is cut to [totalWidth - right.length - 1] characters
    and one space precedes the whole of [right].  The line has exactly
    [totalWidth] characters whenever [right] is shorter than [totalWidth];
    when it is not, nothing is left of [left] and the line is one space
    and [right].  [createTwoColumnLine("TOTAL", "1,234", 20)] is "TOTAL",
    ten spaces and "1,234". *)
Theorem createTwoColumnLine_spec (l r : jsstring) (w : Z) :
  (len l + len r < w ->
     createTwoColumnLine l r w = l ++ repeat_space (w - len l - len r) ++ r) /\
  (w <= len l + len r ->
     createTwoColumnLine l r w = take (Z.to_nat (w - len r - 1)) l ++ str " " ++ r) /\
  (len r < w -> len (createTwoColumnLine l r w) = w) /\
  (w <= len r ->
     createTwoColumnLine l r w = str " " ++ r /\
     len (createTwoColumnLine l r w) = len r + 1) /\
  createTwoColumnLine (str "TOTAL") (str "1,234") 20
    = str "TOTAL" ++ replicate 10 " "%char ++ str "1,234".
Proof.
  split; [apply createTwoColumnLine_fits |].
  split; [apply createTwoColumnLine_truncates |].
  split; [| split; [| reflexivity]].
  - intros Hr.
    destruct (Z.lt_ge_cases (len l + len r) w) as [Hfit | Hcut].
    + rewrite createTwoColumnLine_fits by assumption.
      pose proof (len_nonneg l). pose proof (len_nonneg r).
      rewrite !len_app, len_repeat_space; lia.
    + rewrite createTwoColumnLine_truncates by assumption.
      pose proof (len_nonneg l). pose proof (len_nonneg r).
      rewrite !len_app, len_take. change (len (str " ")) with 1. lia.
  - intros Hr. pose proof (len_nonneg l).
    rewrite createTwoColumnLine_truncates by lia.
    replace (Z.to_nat (w - len r - 1)) with 0%nat by lia.
    split; [reflexivity |].
    simpl take. rewrite app_nil_l, len_app. change (len (str " ")) with 1. lia.
Qed.

Lemma createTwoColumnLine_spec_witness :
  len (createTwoColumnLine (str "Subtotal (3)") (str "1,234.5") 32) = 32 /\
  createTwoColumnLine (str "A long charge label") (str "1,234.5") 12
    = str "A lo 1,234.5" /\
  createTwoColumnLine (str "A") (str "12345") 3 = str " 12345".
Proof.
  split; [| split].
  - apply (createTwoColumnLine_spec (str "Subtotal (3)") (str "1,234.5") 32).
    vm_compute. reflexivity.
  - refine (eq_trans
      (proj1 (proj2 (createTwoColumnLine_spec (str "A long charge label")
                       (str "1,234.5") 12)) _) _).
    + vm_compute. discriminate.
    + reflexivity.
  - apply (createTwoColumnLine_spec (str "A") (str "12345") 3).
    vm_compute. discriminate.
Defined.

(** C3 as stated fails: a right text that does not fit is kept whole, so
    the line is longer than [totalWidth]. *)
Lemma createTwoColumnLine_width_counterexample :
  len (createTwoColumnLine (str "A") (str "12345") 3) <> 3.
Proof. vm_compute. discriminate. Qed.

(** ** Word wrap *)

Lemma length_trim_start (s : jsstring) : (length (trim_start s) <= length s)%nat.
Proof.
  induction s as [| c s IH]; simpl; [lia |].
  destruct (is_white_space c); simpl; lia.
Qed.

Lemma len_trim (s : jsstring) : len (trim s) <= len s.
Proof.
  unfold trim, trim_end, len. rewrite length_rev.
  pose proof (length_trim_start (rev (trim_start s))) as H1.
  rewrite length_rev in H1.
  pose proof (length_trim_start s). lia.
Qed.

Lemma last_index_from_spec (c : ascii) (s : jsstring) (i : Z) :
  last_index_from c i s = -1 \/
  (i <= last_index_from c i s < i + len s /\
   s !! Z.to_nat (last_index_from c i s - i) = Some c).
Proof.
  revert i. induction s as [| d s IH]; intros i; simpl; [now left |].
  destruct (IH (i + 1)) as [Hnone | [Hrange Hget]].
  - rewrite Hnone. simpl.
    destruct (Ascii.eqb_spec d c) as [-> | _]; [right | now left].
    unfold len. simpl length. split; [lia |].
    now replace (i - i) with 0 by lia.
  - destruct (Z.geb_spec (last_index_from c (i + 1) s) 0) as [_ | Hneg].
    + right. unfold len in *. simpl length. split; [lia |].
      replace (Z.to_nat (last_index_from c (i + 1) s - i))
        with (S (Z.to_nat (last_index_from c (i + 1) s - (i + 1)))) by lia.
      exact Hget.
    + destruct (Ascii.eqb_spec d c) as [-> | _]; [right | now left].
      unfold len. simpl length. split; [lia |].
      now replace (i - i) with 0 by lia.
Qed.

Lemma breakPoint_cases (w : Z) (remaining : jsstring) :
  breakPoint w remaining = w \/
  (0 < breakPoint w remaining < w /\
   breakPoint w remaining < len remaining /\
   remaining !! Z.to_nat (breakPoint w remaining) = Some " "%char).
Proof.
  unfold breakPoint, lastIndexOf.
  destruct (Z.gtb_spec (last_index_from " " 0 (substring remaining 0 w)) 0)
    as [Hpos | _]; [right | now left].
  destruct (last_index_from_spec " " (substring remaining 0 w) 0)
    as [Hnone | [Hrange Hget]]; [lia |].
  rewrite substring_0 in *. rewrite len_take in Hrange.
  rewrite Z.sub_0_r in Hget.
  apply lookup_take_Some in Hget as [Hget _].
  repeat split; try lia. exact Hget.
Qed.

Lemma wrap_line_short (w : Z) (remaining : jsstring) :
  0 <= w -> len (wrap_line w remaining) <= w.
Proof.
  intros Hw. unfold wrap_line.
  pose proof (len_trim (substring remaining 0 (breakPoint w remaining))) as Ht.
  rewrite substring_0 in *. rewrite len_take in Ht.
  destruct (breakPoint_cases w remaining) as [Heq | [Hlt _]]; lia.
Qed.

Lemma wrap_rest_shorter (w : Z) (remaining : jsstring) :
  1 <= w -> 0 < len remaining ->
  len (wrap_rest w remaining) < len remaining.
Proof.
  intros Hw Hlen. unfold wrap_rest.
  pose proof (len_trim (substring_from remaining (breakPoint w remaining))) as Ht.
  rewrite substring_from_drop in *. rewrite len_drop in Ht.
  destruct (breakPoint_cases w remaining) as [Heq | [Hlt _]]; lia.
Qed.

Lemma wrap_loop_returns (w : Z) :
  1 <= w ->
  forall (fuel : nat) (remaining : jsstring) (lines : list jsstring),
    (length remaining < fuel)%nat ->
    exists out, wrap_loop fuel w remaining lines = Some out.
Proof.
  intros Hw. induction fuel as [| fuel IH]; intros remaining lines Hfuel; [lia |].
  simpl.
  destruct (Z.gtb_spec (len remaining) 0) as [Hpos | _]; [| eauto].
  destruct (Z.leb_spec (len remaining) w) as [_ | Hlong]; [eauto |].
  apply IH.
  pose proof (wrap_rest_shorter w remaining Hw Hpos). unfold len in *. lia.
Qed.

Lemma wrap_loop_more_fuel (w : Z) (fuel : nat) :
  forall (remaining : jsstring) (lines out : list jsstring),
    wrap_loop fuel w remaining lines = Some out ->
    forall fuel', (fuel <= fuel')%nat ->
    wrap_loop fuel' w remaining lines = Some out.
Proof.
  induction fuel as [| fuel IH]; intros remaining lines out Hrun fuel' Hle;
    [discriminate |].
  destruct fuel' as [| fuel']; [lia |].
  simpl in *.
  destruct (len remaining >? 0); [| assumption].
  destruct (len remaining <=? w); [assumption |].
  eapply IH; [eassumption | lia].
Qed.

(** With a width of zero the loop makes no progress on a text that has
    no white space around it. *)
Lemma wrap_loop_zero_width_diverges (fuel : nat) (lines : list jsstring) :
  wrap_loop fuel 0 (str "abc") lines = None.
Proof.
  revert lines. induction fuel as [| fuel IH]; intros lines; [reflexivity |].
  simpl. change (wrap_rest 0 (str "abc")) with (str "abc"). apply IH.
Qed.

Lemma wrapText_returns (text : jsstring) (w : Z) :
  1 <= w -> exists lines, wrapText text w = Some lines.
Proof.
  intros Hw. unfold wrapText.
  destruct (len text <=? w); [eauto |].
  apply wrap_loop_returns; [assumption | lia].
Qed.

(** C10.  For a width of at least one, every iteration of the loop of
    [wrapText] leaves a strictly shorter text, the loop returns for any
    bound above the length of the text, and [wrapText] returns a list of
    lines. *)
Theorem wrapText_terminates (w : Z) :
  1 <= w ->
  (forall remaining, 0 < len remaining ->
     len (wrap_rest w remaining) < len remaining) /\
  (forall text lines fuel, (length text < fuel)%nat ->
     exists out, wrap_loop fuel w text lines = Some out) /\
  (forall text, exists lines, wrapText text w = Some lines).
Proof.
  intros Hw. split; [| split].
  - intros remaining Hpos. now apply wrap_rest_shorter.
  - intros text lines fuel Hfuel. now apply wrap_loop_returns.
  - intros text. now apply wrapText_returns.
Qed.

Lemma wrapText_terminates_witness :
  len (wrap_rest 7 (str "hello world foo")) < len (str "hello world foo") /\
  exists lines, wrapText (str "hello world foo") 7 = Some lines.
Proof.
  split.
  - apply (wrapText_terminates 7); vm_compute; [discriminate | reflexivity].
  - apply (wrapText_terminates 7). vm_compute. discriminate.
Defined.

(** *** Words *)

Lemma words_acc_split (c : ascii) (a b cur : jsstring) :
  is_white_space c = true ->
  words_acc cur (a ++ c :: b) = words_acc cur a ++ words b.
Proof.
  intros Hc. revert cur. induction a as [| d a IH]; intros cur; simpl.
  - now rewrite Hc.
  - destruct (is_white_space d); [| apply IH].
    rewrite IH. now rewrite app_assoc.
Qed.

Lemma words_cons_space (c : ascii) (s : jsstring) :
  is_white_space c = true -> words (c :: s) = words s.
Proof. intros Hc. unfold words. simpl. now rewrite Hc. Qed.

Lemma words_snoc_space (c : ascii) (s : jsstring) :
  is_white_space c = true -> words (s ++ [c]) = words s.
Proof.
  intros Hc. unfold words. rewrite words_acc_split by assumption.
  apply app_nil_r.
Qed.

Lemma words_trim_start (s : jsstring) : words (trim_start s) = words s.
Proof.
  induction s as [| c s IH]; simpl; [reflexivity |].
  destruct (is_white_space c) eqn:Hc; [| reflexivity].
  now rewrite words_cons_space.
Qed.

Lemma words_trim_end (s : jsstring) : words (trim_end s) = words s.
Proof.
  unfold trim_end. rewrite <- (rev_involutive s) at 2.
  induction (rev s) as [| c r IH]; simpl; [reflexivity |].
  destruct (is_white_space c) eqn:Hc; [| reflexivity].
  now rewrite words_snoc_space.
Qed.

Lemma words_trim (s : jsstring) : words (trim s) = words s.
Proof. unfold trim. now rewrite words_trim_end, words_trim_start. Qed.

Lemma words_take_drop (n : nat) (s : jsstring) :
  starts_with_space (drop n s) || starts_with_space (rev (take n s)) = true ->
  words s = words (take n s) ++ words (drop n s).
Proof.
  intros H. apply orb_true_iff in H as [H | H].
  - destruct (drop n s) as [| c b] eqn:Hd; [discriminate |]. simpl in H.
    rewrite <- (take_drop n s) at 1. rewrite Hd.
    unfold words at 1. rewrite words_acc_split by assumption.
    now rewrite (words_cons_space c b).
  - destruct (rev (take n s)) as [| c r] eqn:Hr; [discriminate |]. simpl in H.
    assert (Ht : take n s = rev r ++ [c]).
    { rewrite <- (rev_involutive (take n s)), Hr. reflexivity. }
    rewrite <- (take_drop n s) at 1. rewrite Ht, <- app_assoc. simpl.
    unfold words at 1. rewrite words_acc_split by assumption.
    now rewrite words_snoc_space.
Qed.

Lemma words_join (lines : list jsstring) :
  words (join (str " ") lines) = concat (map words lines).
Proof.
  induction lines as [| x [| y rest] IH]; [reflexivity | |].
  - simpl. now rewrite app_nil_r.
  - change (join (str " ") (x :: y :: rest))
      with (x ++ " "%char :: join (str " ") (y :: rest)).
    unfold words at 1. rewrite words_acc_split by reflexivity.
    rewrite IH. reflexivity.
Qed.

Lemma wrap_step_words (w : Z) (remaining : jsstring) :
  break_between_words w remaining = true ->
  words remaining = words (wrap_line w remaining) ++ words (wrap_rest w remaining).
Proof.
  unfold break_between_words, wrap_line, wrap_rest.
  rewrite substring_0, substring_from_drop, !words_trim.
  apply words_take_drop.
Qed.

Lemma wrap_loop_words (w : Z) (fuel : nat) :
  forall (remaining : jsstring) (lines out : list jsstring),
    wrap_loop fuel w remaining lines = Some out ->
    no_word_cut fuel w remaining = true ->
    concat (map words out) = concat (map words lines) ++ words remaining.
Proof.
  induction fuel as [| fuel IH]; intros remaining lines out Hrun Hclean;
    [discriminate |].
  simpl in Hrun, Hclean.
  destruct (Z.gtb_spec (len remaining) 0) as [Hpos | Hzero].
  - destruct (len remaining <=? w).
    + injection Hrun as <-. rewrite map_app, concat_app. simpl.
      now rewrite app_nil_r.
    + apply andb_true_iff in Hclean as [Hbreak Hrest].
      rewrite (IH _ _ _ Hrun Hrest), map_app, concat_app. simpl.
      rewrite app_nil_r, <- app_assoc. f_equal.
      symmetry. now apply wrap_step_words.
  - injection Hrun as <-.
    destruct remaining; [now rewrite app_nil_r |].
    unfold len in Hzero. simpl in Hzero. lia.
Qed.

Lemma wrap_loop_lines_short (w : Z) (fuel : nat) :
  0 <= w ->
  forall (remaining : jsstring) (lines out : list jsstring),
    Forall (fun line => len line <= w) lines ->
    wrap_loop fuel w remaining lines = Some out ->
    Forall (fun line => len line <= w) out.
Proof.
  intros Hw. induction fuel as [| fuel IH]; intros remaining lines out Hlines Hrun;
    [discriminate |].
  simpl in Hrun.
  destruct (len remaining >? 0); [| now injection Hrun as <-].
  destruct (Z.leb_spec (len remaining) w) as [Hfits | _].
  - injection Hrun as <-. apply Forall_app. split; [assumption |].
    now constructor.
  - eapply IH; [| exact Hrun].
    apply Forall_app. split; [assumption |].
    constructor; [now apply wrap_line_short | constructor].
Qed.

Lemma trim_start_non_space (c : ascii) (s : jsstring) :
  is_white_space c = false -> trim_start (c :: s) = c :: s.
Proof. intros Hc. cbn [trim_start]. now rewrite Hc. Qed.

Lemma trim_start_head (s : jsstring) :
  trim_start s = [] \/
  exists c r, trim_start s = c :: r /\ is_white_space c = false.
Proof.
  induction s as [| c s IH]; [now left |].
  cbn [trim_start]. destruct (is_white_space c) eqn:Hc; [exact IH |].
  right. now exists c, s.
Qed.

Lemma trim_start_snoc (s : jsstring) (c : ascii) :
  is_white_space c = false -> exists t, trim_start (s ++ [c]) = t ++ [c].
Proof.
  intros Hc. induction s as [| d s [t IH]].
  - exists []. cbn [app trim_start]. now rewrite Hc.
  - cbn [app trim_start]. destruct (is_white_space d); [now exists t |].
    now exists (d :: s).
Qed.

Lemma trim_shape (s : jsstring) :
  trim s = [] \/
  exists c t u d,
    trim s = c :: t /\ is_white_space c = false /\
    trim s = u ++ [d] /\ is_white_space d = false.
Proof.
  unfold trim. destruct (trim_start_head s) as [-> | (c & r & -> & Hc)];
    [now left |].
  right. unfold trim_end. cbn [rev].
  destruct (trim_start_snoc (rev r) c Hc) as [t Ht].
  destruct (trim_start_head (rev r ++ [c])) as [Hnil | (d & u & Hu & Hd)].
  - rewrite Ht in Hnil. destruct t; discriminate.
  - exists c, (rev t), (rev u), d. split; [| split; [exact Hc | split; [| exact Hd]]].
    + rewrite Ht, rev_app_distr. reflexivity.
    + rewrite Hu. reflexivity.
Qed.

Lemma Forall_trim_start (P : ascii -> Prop) (s : jsstring) :
  Forall P s -> Forall P (trim_start s).
Proof.
  induction 1 as [| c s Hc Hs IH]; [constructor |].
  cbn [trim_start]. destruct (is_white_space c); [exact IH | now constructor].
Qed.

Lemma Forall_trim (P : ascii -> Prop) (s : jsstring) :
  Forall P s -> Forall P (trim s).
Proof.
  intros Hs. unfold trim, trim_end.
  apply Forall_rev, Forall_trim_start, Forall_rev, Forall_trim_start, Hs.
Qed.

Lemma trim_starts_plain (s : jsstring) : starts_with_space (trim s) = false.
Proof.
  destruct (trim_shape s) as [-> | (c & t & _ & _ & -> & Hc & _)];
    [reflexivity | exact Hc].
Qed.

Lemma last_index_from_none (c : ascii) (s : jsstring) :
  forall i, 0 <= i -> last_index_from c i s = -1 -> Forall (fun d => d <> c) s.
Proof.
  induction s as [| d s IH]; intros i Hi; cbn [last_index_from]; [constructor |].
  destruct (last_index_from_spec c s (i + 1)) as [Hnone | [Hrange _]].
  - rewrite Hnone. cbn.
    destruct (Ascii.eqb_spec d c) as [-> | Hd]; [lia |].
    intros _. constructor; [exact Hd |]. apply (IH (i + 1)); [lia | exact Hnone].
  - destruct (Z.geb_spec (last_index_from c (i + 1) s) 0); lia.
Qed.

Lemma lastIndexOf_nonpositive (c : ascii) (s : jsstring) :
  lastIndexOf s c <= 0 -> Forall (fun d => d <> c) (tail s).
Proof.
  unfold lastIndexOf. destruct s as [| d s]; cbn [last_index_from tail];
    [constructor |].
  destruct (last_index_from_spec c s (0 + 1)) as [Hnone | [Hrange _]].
  - intros _. apply (last_index_from_none c s (0 + 1)); [lia | exact Hnone].
  - destruct (Z.geb_spec (last_index_from c (0 + 1) s) 0); lia.
Qed.

Lemma words_acc_plain (p s cur : jsstring) :
  Forall (fun c => is_white_space c = false) p ->
  words_acc cur (p ++ s) = words_acc (cur ++ p) s.
Proof.
  intros Hp. revert cur. induction Hp as [| c p Hc _ IH]; intros cur.
  - now rewrite app_nil_r.
  - cbn [app words_acc]. rewrite Hc, IH, <- app_assoc. reflexivity.
Qed.

Lemma words_acc_head (s : jsstring) :
  forall cur, cur <> [] -> exists x rest, words_acc cur s = (cur ++ x) :: rest.
Proof.
  induction s as [| c s IH]; intros cur Hcur; cbn [words_acc].
  - exists [], []. rewrite app_nil_r. destruct cur; [contradiction | reflexivity].
  - destruct (is_white_space c).
    + exists [], (words_acc [] s). rewrite app_nil_r.
      destruct cur; [contradiction | reflexivity].
    + destruct (IH (cur ++ [c])) as (x & rest & ->); [now destruct cur |].
      exists (c :: x), rest. now rewrite <- app_assoc.
Qed.

(** A run of characters that are not white space is part of one word. *)
Lemma words_fit_run (w : Z) (p s : jsstring) :
  Forall (fun c => is_white_space c = false) p ->
  words_fit w (p ++ s) -> len p <= Z.max w 0.
Proof.
  intros Hp Hfit. destruct p as [| c p]; [unfold len; cbn; lia |].
  unfold words_fit, words in Hfit.
  rewrite (words_acc_plain _ s [] Hp) in Hfit. cbn [app] in Hfit.
  destruct (words_acc_head s (c :: p)) as (x & rest & Hw); [discriminate |].
  rewrite Hw in Hfit. apply Forall_cons in Hfit as [Hlen _].
  rewrite len_app in Hlen. pose proof (len_nonneg x). lia.
Qed.

Lemma breakPoint_at_space (w : Z) (remaining : jsstring) :
  (0 < breakPoint w remaining < w /\
   remaining !! Z.to_nat (breakPoint w remaining) = Some " "%char) \/
  (breakPoint w remaining = w /\
   lastIndexOf (substring remaining 0 w) " "%char <= 0).
Proof.
  destruct (breakPoint_cases w remaining) as [Heq | (Hrange & _ & Hget)];
    [| now left].
  unfold breakPoint in *.
  destruct (Z.gtb_spec (lastIndexOf (substring remaining 0 w) " ") 0) as [Hpos | Hle];
    [| now right].
  exfalso. unfold lastIndexOf in *. rewrite substring_0 in *.
  destruct (last_index_from_spec " " (take (Z.to_nat w) remaining) 0)
    as [Hnone | [Hrange _]]; [lia |].
  rewrite len_take in Hrange. lia.
Qed.

(** In a text of words that fit, with no white space but spaces and none
    in front, the loop finds a place between two words to break at. *)
Lemma short_words_break_between (w : Z) (remaining : jsstring) :
  1 <= w -> w < len remaining ->
  plain_spaces remaining ->
  starts_with_space remaining = false ->
  words_fit w remaining ->
  break_between_words w remaining = true.
Proof.
  intros Hw Hlong Hplain Hhead Hfit. unfold break_between_words.
  rewrite substring_from_drop.
  destruct (breakPoint_at_space w remaining) as [[Hrange Hget] | [-> Hnone]].
  - rewrite (drop_S _ _ _ Hget). reflexivity.
  - destruct (remaining !! Z.to_nat w) as [c |] eqn:Hget.
    2: { apply lookup_ge_None in Hget. unfold len in Hlong. lia. }
    rewrite (drop_S _ _ _ Hget). cbn [starts_with_space].
    destruct (is_white_space c) eqn:Hc; [reflexivity | exfalso].
    assert (Hrun : Forall (fun c => is_white_space c = false)
                     (take (S (Z.to_nat w)) remaining)).
    { rewrite (take_S_r _ _ _ Hget). apply Forall_app_2; [| now repeat constructor].
      rewrite substring_0 in Hnone. apply lastIndexOf_nonpositive in Hnone.
      destruct remaining as [| d r]; [discriminate |].
      destruct (Z.to_nat w) as [| n] eqn:Hn; [lia |].
      cbn [take tail] in *. cbn [starts_with_space] in Hhead.
      constructor; [exact Hhead |].
      apply Forall_cons in Hplain as [_ Hplain].
      assert (Hplain' : Forall (fun c => is_white_space c = true -> c = " "%char)
                          (take n r)) by now apply Forall_take.
      clear - Hnone Hplain'.
      induction Hnone as [| x l Hx _ IH]; [constructor |].
      apply Forall_cons in Hplain' as [Hx' Hl]. constructor; [| now apply IH].
      destruct (is_white_space x); [| reflexivity]. now specialize (Hx' eq_refl). }
    rewrite <- (take_drop (S (Z.to_nat w)) remaining) in Hfit.
    apply (words_fit_run w _ _ Hrun) in Hfit.
    rewrite len_take in Hfit. unfold len in *. lia.
Qed.

Lemma short_words_rest (w : Z) (remaining : jsstring) :
  break_between_words w remaining = true ->
  plain_spaces remaining -> words_fit w remaining ->
  plain_spaces (wrap_rest w remaining) /\
  starts_with_space (wrap_rest w remaining) = false /\
  words_fit w (wrap_rest w remaining).
Proof.
  intros Hbreak Hplain Hfit. split; [| split].
  - unfold wrap_rest. rewrite substring_from_drop.
    apply Forall_trim, Forall_drop, Hplain.
  - apply trim_starts_plain.
  - unfold words_fit in *. rewrite (wrap_step_words _ _ Hbreak) in Hfit.
    now apply Forall_app in Hfit as [_ Hrest].
Qed.

Lemma short_words_no_cut (w : Z) (fuel : nat) :
  1 <= w ->
  forall remaining : jsstring,
    plain_spaces remaining ->
    starts_with_space remaining = false ->
    words_fit w remaining ->
    no_word_cut fuel w remaining = true.
Proof.
  intros Hw. induction fuel as [| fuel IH]; intros remaining Hplain Hhead Hfit;
    [reflexivity |].
  cbn [no_word_cut].
  destruct (len remaining >? 0); [| reflexivity].
  destruct (Z.leb_spec (len remaining) w) as [_ | Hlong]; [reflexivity |].
  pose proof (short_words_break_between w remaining Hw Hlong Hplain Hhead Hfit)
    as Hbreak.
  rewrite Hbreak. cbn [andb].
  destruct (short_words_rest w remaining Hbreak Hplain Hfit) as (H1 & H2 & H3).
  now apply IH.
Qed.

(** C4, as the code has it.  For a width of at least one [wrapText]
    returns lines of at most that many characters each; a line cut where
    the first [w] characters offer no space to break at is those [w]
    characters, trimmed, so it has exactly [w] characters when they
    neither begin nor end with white space; and for a text with no word
    longer than the width, no white space but spaces and none in front,
    joining the lines with single spaces and normalising the white
    space gives the normalised original text. *)
Theorem wrapText_spec (text : jsstring) (w : Z) :
  1 <= w ->
  exists lines,
    wrapText text w = Some lines /\
    Forall (fun line => len line <= w) lines /\
    (forall remaining,
       w <= len remaining ->
       lastIndexOf (substring remaining 0 w) " "%char <= 0 ->
       trim (substring remaining 0 w) = substring remaining 0 w ->
       len (wrap_line w remaining) = w) /\
    (plain_spaces text -> starts_with_space text = false -> words_fit w text ->
     normalize (join (str " ") lines) = normalize text).
Proof.
  intros Hw.
  destruct (wrapText_returns text w Hw) as [lines Hlines].
  exists lines. split; [assumption |]. split; [| split].
  - unfold wrapText in Hlines.
    destruct (Z.leb_spec (len text) w) as [Hfits | _].
    + injection Hlines as <-. now constructor.
    + eapply wrap_loop_lines_short; [| | exact Hlines]; [lia | constructor].
  - intros remaining Hlong Hnospace Hclean.
    unfold wrap_line, breakPoint.
    destruct (Z.gtb_spec (lastIndexOf (substring remaining 0 w) " ") 0); [lia |].
    rewrite Hclean, substring_0, len_take. lia.
  - intros Hplain Hhead Hfit. unfold normalize. f_equal. rewrite words_join.
    unfold wrapText in Hlines.
    destruct (len text <=? w).
    + injection Hlines as <-. simpl. apply app_nil_r.
    + rewrite (wrap_loop_words _ _ _ _ _ Hlines); [reflexivity |].
      now apply short_words_no_cut.
Qed.

Lemma wrapText_spec_witness :
  exists lines,
    wrapText (str "12 Lake   Road, Dhaka") 9 = Some lines /\
    Forall (fun line => len line <= 9) lines /\
    normalize (join (str " ") lines) = normalize (str "12 Lake   Road, Dhaka").
Proof.
  destruct (wrapText_spec (str "12 Lake   Road, Dhaka") 9) as (lines & H1 & H2 & _ & H4).
  - vm_compute. discriminate.
  - exists lines. split; [exact H1 |]. split; [exact H2 |].
    apply H4.
    + unfold plain_spaces. repeat constructor; try discriminate.
    + reflexivity.
    + unfold words_fit. vm_compute. repeat constructor; discriminate.
Defined.

(** C4 as stated fails at three kinds of text.  A word longer than the
    width is cut, and the pieces joined with a space are not the
    original text.  A space in front is not trimmed before the first
    break, and a white space that is not a space offers no place to
    break at: in the second and the third text every word fits the
    width, and a word is cut all the same. *)
Lemma wrapText_reconstruction_counterexample :
  (wrapText (str "abcdefgh") 4 = Some [str "abcd"; str "efgh"] /\
   trim (join (str " ") [str "abcd"; str "efgh"]) <> normalize (str "abcdefgh")) /\
  (wrapText (str " abcd efg") 4 = Some [str "abc"; str "d"; str "efg"] /\
   words_fit 4 (str " abcd efg") /\
   plain_spaces (str " abcd efg") /\
   trim (join (str " ") [str "abc"; str "d"; str "efg"])
     <> normalize (str " abcd efg") /\
   normalize (join (str " ") [str "abc"; str "d"; str "efg"])
     <> normalize (str " abcd efg")) /\
  (let text := ("a" :: "b" :: "009" :: str "cd ef")%char in
   let lines := [("a" :: "b" :: "009" :: str "c")%char; str "d ef"] in
   wrapText text 4 = Some lines /\
   words_fit 4 text /\
   starts_with_space text = false /\
   trim (join (str " ") lines) <> normalize text /\
   normalize (join (str " ") lines) <> normalize text).
Proof.
  split; [split; [reflexivity | vm_compute; discriminate] |].
  split.
  - split; [reflexivity |].
    split; [unfold words_fit; vm_compute; repeat constructor; discriminate |].
    split; [unfold plain_spaces; repeat constructor; try discriminate |].
    split; vm_compute; discriminate.
  - cbv zeta. split; [reflexivity |].
    split; [unfold words_fit; vm_compute; repeat constructor; discriminate |].
    split; [reflexivity |].
    split; vm_compute; discriminate.
Qed.

(** ** Binary64 rounding *)

Lemma pow2_pos (e : Z) : (0 < pow2 e)%Q.
Proof. apply Qpower_0_lt. reflexivity. Qed.

Lemma pow2_add (a b : Z) : (pow2 (a + b) == pow2 a * pow2 b)%Q.
Proof. apply Qpower_plus. discriminate. Qed.

Lemma pow2_le (a b : Z) : a <= b -> (pow2 a <= pow2 b)%Q.
Proof. intros H. apply Qpower_le_compat_l; [exact H | discriminate]. Qed.

Lemma pow2_lt (a b : Z) : a < b -> (pow2 a < pow2 b)%Q.
Proof. intros H. apply Qpower_lt_compat_l; [exact H | reflexivity]. Qed.

Lemma pow2_lt_inv (a b : Z) : (pow2 a < pow2 b)%Q -> a < b.
Proof. intros H. eapply Qpower_lt_compat_l_inv; [exact H | reflexivity]. Qed.

Lemma pow2_Z (e : Z) : 0 <= e -> (pow2 e == inject_Z (2 ^ e))%Q.
Proof. intros H. unfold pow2. now rewrite Zpower_Qpower. Qed.

Lemma pow2_succ (e : Z) : (pow2 (e + 1) == 2 * pow2 e)%Q.
Proof. rewrite pow2_add. change (pow2 1) with 2%Q. ring. Qed.

Lemma pow2_pred (e : Z) : (2 * pow2 (e - 1) == pow2 e)%Q.
Proof. rewrite <- pow2_succ. now replace (e - 1 + 1) with e by lia. Qed.

Lemma pow2_mul_sub (a b : Z) : (pow2 (a - b) * pow2 b == pow2 a)%Q.
Proof. rewrite <- pow2_add. now replace (a - b + b) with a by lia. Qed.

(** [ilog2] *)
Lemma ilog2_spec (q : Q) :
  (0 < q)%Q -> (pow2 (ilog2 q) <= q)%Q /\ (q < pow2 (ilog2 q + 1))%Q.
Proof.
  intros Hq. destruct q as [n d]. unfold ilog2. cbn [Qnum Qden].
  assert (Hn : 0 < n) by (unfold Qlt in Hq; cbn in Hq; lia).
  pose proof (Z.log2_spec n Hn) as [Hn1 Hn2].
  pose proof (Z.log2_spec (Zpos d) ltac:(lia)) as [Hd1 Hd2].
  pose proof (Z.log2_nonneg n) as Hln. pose proof (Z.log2_nonneg (Zpos d)) as Hld.
  set (ln := Z.log2 n) in *. set (ld := Z.log2 (Zpos d)) in *.
  rewrite Zle_Qle, <- pow2_Z in Hn1, Hd1 by lia.
  rewrite Zlt_Qlt, <- pow2_Z in Hn2, Hd2 by lia.
  replace (Z.succ ln) with (ln + 1) in Hn2 by lia.
  replace (Z.succ ld) with (ld + 1) in Hd2 by lia.
  rewrite pow2_succ in Hn2, Hd2.
  pose proof (pow2_mul_sub ln ld) as Hl.
  pose proof (pow2_succ (ln - ld)) as Hl1.
  pose proof (pow2_pred (ln - ld)) as Hl0.
  pose proof (pow2_pos ln). pose proof (pow2_pos ld).
  pose proof (pow2_pos (ln - ld)). pose proof (pow2_pos (ln - ld - 1)).
  assert (Hqy : ((n # d) * inject_Z (Zpos d) == inject_Z n)%Q).
  { rewrite (Qmake_Qdiv n d). field. discriminate. }
  assert (Hy : (0 < inject_Z (Zpos d))%Q) by reflexivity.
  set (x := inject_Z n) in *. set (y := inject_Z (Zpos d)) in *.
  set (A := pow2 ln) in *. set (B := pow2 ld) in *.
  set (P := pow2 (ln - ld)) in *. set (q := (n # d)%Q) in *.
  destruct (Qle_bool P q) eqn:Htest.
  - apply Qle_bool_iff in Htest. split; [exact Htest |].
    rewrite Hl1.
    (* q * y = x < 2A = 2 P B <= 2 P y *)
    apply (Qmult_lt_r _ _ y Hy). nra.
  - assert (Hlt : (q < P)%Q).
    { apply Qnot_le_lt. intros Hle. apply Qle_bool_iff in Hle. congruence. }
    replace (ln - ld - 1 + 1) with (ln - ld) by lia.
    split; [| exact Hlt].
    fold (pow2 (ln - ld - 1)). set (P' := pow2 (ln - ld - 1)) in *.
    apply (Qmult_le_r _ _ y Hy). nra.
Qed.

(** [round_half_even] *)
Lemma round_half_even_bounds (q : Q) :
  Qfloor q <= round_half_even q <= Qfloor q + 1.
Proof.
  unfold round_half_even.
  destruct (q - inject_Z (Qfloor q) ?= 1 # 2)%Q; [destruct (Z.even _) | |]; lia.
Qed.

Lemma round_half_even_comp (p q : Q) :
  (p == q)%Q -> round_half_even p = round_half_even q.
Proof.
  intros H. unfold round_half_even.
  rewrite (Qfloor_comp _ _ H).
  assert (Hc : (p - inject_Z (Qfloor q) ?= 1 # 2)%Q
               = (q - inject_Z (Qfloor q) ?= 1 # 2)%Q).
  { apply Qcompare_comp; [now rewrite H | reflexivity]. }
  now rewrite Hc.
Qed.

Lemma round_half_even_Z (z : Z) : round_half_even (inject_Z z) = z.
Proof.
  unfold round_half_even. rewrite Qfloor_Z.
  assert (Hc : (inject_Z z - inject_Z z ?= 1 # 2)%Q = Lt).
  { apply Qlt_alt. unfold Qminus. rewrite Qplus_opp_r. reflexivity. }
  now rewrite Hc.
Qed.

Lemma round_half_even_ge (z : Z) (q : Q) :
  (inject_Z z <= q)%Q -> z <= round_half_even q.
Proof.
  intros H. apply Qfloor_resp_le in H. rewrite Qfloor_Z in H.
  pose proof (round_half_even_bounds q). lia.
Qed.

Lemma round_half_even_le (z : Z) (q : Q) :
  (q <= inject_Z z)%Q -> round_half_even q <= z.
Proof.
  intros H. pose proof (round_half_even_bounds q) as Hb.
  pose proof (Qfloor_resp_le _ _ H) as Hf. rewrite Qfloor_Z in Hf.
  destruct (Z.eq_dec (Qfloor q) z) as [He | Hne]; [| lia].
  assert (Hq : (q == inject_Z z)%Q).
  { apply Qle_antisym; [exact H |]. rewrite <- He. apply Qfloor_le. }
  rewrite (round_half_even_comp _ _ Hq), round_half_even_Z. lia.
Qed.

(** [round64] *)
Lemma round64_zero (q : Q) : (q == 0)%Q -> round64 q = 0%Q.
Proof.
  intros H. unfold round64. apply Qeq_bool_iff in H. now rewrite H.
Qed.

Lemma round64_eq (q : Q) :
  ~ (q == 0)%Q ->
  (round64 q == inject_Z (round_half_even (q / pow2 (ulp_exponent q)))
                * pow2 (ulp_exponent q))%Q.
Proof.
  intros H. unfold round64.
  destruct (Qeq_bool q 0) eqn:E; [apply Qeq_bool_iff in E; contradiction |].
  apply Qred_correct.
Qed.

Lemma pow2_split (k e : Z) :
  e <= k -> (pow2 k == inject_Z (2 ^ (k - e)) * pow2 e)%Q.
Proof.
  intros H. rewrite <- pow2_Z by lia. now rewrite pow2_mul_sub.
Qed.

(** A number of the grid of exponent [k] is a barrier for the rounding of
    every number whose own exponent is at most [k]. *)
Lemma round64_barrier (q : Q) (z k : Z) :
  ~ (q == 0)%Q -> ulp_exponent q <= k ->
  ((inject_Z z * pow2 k <= q)%Q -> (inject_Z z * pow2 k <= round64 q)%Q) /\
  ((q <= inject_Z z * pow2 k)%Q -> (round64 q <= inject_Z z * pow2 k)%Q).
Proof.
  intros Hq Hk. rewrite (round64_eq q Hq).
  set (e := ulp_exponent q) in *.
  pose proof (pow2_pos e) as He.
  assert (Hz : (inject_Z z * pow2 k == inject_Z (z * 2 ^ (k - e)) * pow2 e)%Q).
  { rewrite (pow2_split k e Hk), inject_Z_mult. ring. }
  rewrite Hz. split; intros H.
  - apply Qmult_le_compat_r; [| now apply Qlt_le_weak].
    rewrite <- Zle_Qle. apply round_half_even_ge.
    apply Qle_shift_div_l; assumption.
  - apply Qmult_le_compat_r; [| now apply Qlt_le_weak].
    rewrite <- Zle_Qle. apply round_half_even_le.
    apply Qle_shift_div_r; assumption.
Qed.

(** A number of the grid of its own exponent, or of a coarser one, is kept. *)
Lemma round64_grid_exact (q : Q) (z k : Z) :
  (q == inject_Z z * pow2 k)%Q -> ulp_exponent q <= k -> (round64 q == q)%Q.
Proof.
  intros Hz Hk.
  destruct (Qeq_dec q 0) as [H0 | H0]; [now rewrite (round64_zero q H0), H0 |].
  destruct (round64_barrier q z k H0 Hk) as [Hlo Hhi].
  apply Qle_antisym.
  - rewrite Hz at 2. apply Hhi. rewrite Hz. apply Qle_refl.
  - rewrite Hz at 1. apply Hlo. rewrite Hz. apply Qle_refl.
Qed.

Lemma ulp_exponent_spec (q : Q) :
  ~ (q == 0)%Q ->
  let l := ilog2 (Qabs q) in
  (pow2 l <= Qabs q)%Q /\ (Qabs q < pow2 (l + 1))%Q /\
  ulp_exponent q = Z.max (l - 52) (-1074).
Proof.
  intros H l.
  assert (Ha : (0 < Qabs q)%Q).
  { destruct (Qlt_le_dec 0 (Qabs q)) as [|Hle]; [assumption |].
    exfalso. apply H. apply Qabs_Qle_condition in Hle. lra. }
  destruct (ilog2_spec _ Ha). repeat split; assumption.
Qed.

(** A number with at most 53 significant bits above the smallest exponent
    is a binary64 number. *)
Lemma round64_exact (q : Q) (z k : Z) :
  (q == inject_Z z * pow2 k)%Q -> Z.abs z < 2 ^ 53 -> -1074 <= k ->
  (round64 q == q)%Q.
Proof.
  intros Hz Hb Hk.
  destruct (Qeq_dec q 0) as [H0 | H0]; [now rewrite (round64_zero q H0), H0 |].
  apply (round64_grid_exact q z k Hz).
  destruct (ulp_exponent_spec q H0) as (Hl & _ & ->).
  set (l := ilog2 (Qabs q)) in *.
  apply Z.max_lub; [| exact Hk].
  assert (Habs : (Qabs q == inject_Z (Z.abs z) * pow2 k)%Q).
  { rewrite Hz, Qabs_Qmult, (Qabs_pos (pow2 k)) by (apply Qlt_le_weak, pow2_pos).
    apply Qmult_comp; [| reflexivity].
    unfold Qabs, inject_Z. reflexivity. }
  assert (Hlt : (pow2 l < pow2 (53 + k))%Q).
  { eapply Qle_lt_trans; [exact Hl |]. rewrite Habs, pow2_add.
    apply Qmult_lt_r; [apply pow2_pos |].
    rewrite pow2_Z by lia. now rewrite <- Zlt_Qlt. }
  apply pow2_lt_inv in Hlt. lia.
Qed.

(** Rounding does not cross a power of two. *)
Lemma round64_abs_ge (q : Q) (j : Z) :
  -1074 <= j -> (pow2 j <= Qabs q)%Q -> (pow2 j <= Qabs (round64 q))%Q.
Proof.
  intros Hj H.
  pose proof (pow2_pos j) as Hpj.
  assert (H0 : ~ (q == 0)%Q).
  { intros E. rewrite E in H. change (Qabs 0) with 0%Q in H. lra. }
  destruct (ulp_exponent_spec q H0) as (Hl & Hu & He).
  set (l := ilog2 (Qabs q)) in *.
  assert (Hjl : j <= l).
  { assert (Hlt : (pow2 j < pow2 (l + 1))%Q) by (eapply Qle_lt_trans; eassumption).
    apply pow2_lt_inv in Hlt. lia. }
  (* a barrier exponent [k] with [j <= k], [e <= k] and [2^k <= |q|] *)
  assert (Hk : exists k, j <= k /\ ulp_exponent q <= k /\ (pow2 k <= Qabs q)%Q).
  { destruct (Z_le_gt_dec (ulp_exponent q) j).
    - exists j. repeat split; [lia | assumption | assumption].
    - exists l. repeat split; [assumption | lia | assumption]. }
  destruct Hk as (k & Hjk & Hek & Hkq).
  apply (Qle_trans _ (pow2 k)); [now apply pow2_le |].
  destruct (Qlt_le_dec q 0) as [Hneg | Hpos].
  - rewrite (Qabs_neg q) in Hkq by lra.
    destruct (round64_barrier q (-1) k H0 Hek) as [_ Hhi].
    assert (Hr : (round64 q <= inject_Z (-1) * pow2 k)%Q).
    { apply Hhi. change (inject_Z (-1)) with (-1 # 1)%Q. lra. }
    change (inject_Z (-1)) with (-1 # 1)%Q in Hr.
    pose proof (pow2_pos k).
    rewrite Qabs_neg by lra. lra.
  - rewrite (Qabs_pos q) in Hkq by assumption.
    destruct (round64_barrier q 1 k H0 Hek) as [Hlo _].
    assert (Hr : (inject_Z 1 * pow2 k <= round64 q)%Q).
    { apply Hlo. change (inject_Z 1) with 1%Q. lra. }
    change (inject_Z 1) with 1%Q in Hr.
    pose proof (pow2_pos k).
    rewrite Qabs_pos by lra. lra.
Qed.

Lemma round64_abs_le (q : Q) (j : Z) :
  -1074 <= j -> (Qabs q <= pow2 j)%Q -> (Qabs (round64 q) <= pow2 j)%Q.
Proof.
  intros Hj H.
  pose proof (pow2_pos j) as Hpj.
  destruct (Qeq_dec q 0) as [H0 | H0].
  { rewrite (round64_zero q H0). change (Qabs 0) with 0%Q. lra. }
  destruct (ulp_exponent_spec q H0) as (Hl & Hu & He).
  set (l := ilog2 (Qabs q)) in *.
  assert (Hlj : l <= j).
  { destruct (Z_le_gt_dec l j) as [|Hgt]; [assumption | exfalso].
    assert (Hp : (pow2 (j + 1) <= pow2 l)%Q) by (apply pow2_le; lia).
    pose proof (pow2_lt j (j + 1) ltac:(lia)). lra. }
  assert (Hej : ulp_exponent q <= j) by lia.
  apply Qabs_Qle_condition in H. destruct H as [Hlo Hhi].
  apply Qabs_Qle_condition.
  destruct (round64_barrier q 1 j H0 Hej) as [_ Hup].
  destruct (round64_barrier q (-1) j H0 Hej) as [Hdn _].
  change (inject_Z 1) with 1%Q in Hup. change (inject_Z (-1)) with (-1 # 1)%Q in Hdn.
  split; [| lra].
  assert (Hx : ((-1 # 1) * pow2 j <= round64 q)%Q) by (apply Hdn; lra).
  lra.
Qed.

(** From 32 on, binary64 numbers are multiples of 2^-47. *)
Lemma round64_grid (q : Q) :
  (Qabs (round64 q) < 32)%Q \/
  exists z, (round64 q == inject_Z z * pow2 (-47))%Q.
Proof.
  destruct (Qeq_dec q 0) as [H0 | H0].
  { left. rewrite (round64_zero q H0). reflexivity. }
  destruct (ulp_exponent_spec q H0) as (Hl & Hu & He).
  set (l := ilog2 (Qabs q)) in *.
  destruct (Z_le_gt_dec (-47) (ulp_exponent q)) as [Hge | Hlt].
  - right. pose proof (round64_eq q H0) as Hr.
    set (m := round_half_even _) in Hr. set (e := ulp_exponent q) in *.
    exists (m * 2 ^ (e + 47)).
    rewrite Hr, inject_Z_mult, <- pow2_Z by lia.
    rewrite <- Qmult_assoc, <- pow2_add.
    now replace (e + 47 + -47) with e by lia.
  - assert (Hl5 : l + 1 <= 5) by lia.
    assert (Hq : (Qabs q <= pow2 5)%Q).
    { apply Qlt_le_weak. eapply Qlt_le_trans; [exact Hu | now apply pow2_le]. }
    apply (round64_abs_le q 5 ltac:(lia)) in Hq.
    change (pow2 5) with 32%Q in Hq.
    destruct (Qlt_le_dec (Qabs (round64 q)) 32) as [|Hge]; [now left | right].
    assert (Habs : (Qabs (round64 q) == 32)%Q) by (now apply Qle_antisym).
    destruct (Qlt_le_dec (round64 q) 0) as [Hn | Hp].
    + rewrite Qabs_neg in Habs by lra.
      exists (- 32 * 2 ^ 47). 
      assert (E : (inject_Z (- 32 * 2 ^ 47) * pow2 (-47) == - (32))%Q) by reflexivity.
      rewrite E. lra.
    + rewrite Qabs_pos in Habs by assumption.
      exists (32 * 2 ^ 47).
      assert (E : (inject_Z (32 * 2 ^ 47) * pow2 (-47) == 32)%Q) by reflexivity.
      rewrite E. lra.
Qed.

(** The result of [round64] has at most 53 significant bits, above the
    smallest exponent. *)
Lemma round64_representable (x : Q) :
  exists z k, (round64 x == inject_Z z * pow2 k)%Q /\
              Z.abs z < 2 ^ 53 /\ -1074 <= k /\ ulp_exponent x <= k.
Proof.
  destruct (Qeq_dec x 0) as [H0 | H0].
  { exists 0, (ulp_exponent x). rewrite (round64_zero x H0).
    split; [ring |]. split; [reflexivity |]. unfold ulp_exponent. lia. }
  destruct (ulp_exponent_spec x H0) as (Hl & Hu & He).
  set (l := ilog2 (Qabs x)) in *.
  pose proof (round64_eq x H0) as Hr.
  set (e := ulp_exponent x) in *.
  set (m := round_half_even (x / pow2 e)) in *.
  pose proof (pow2_pos e) as Hpe.
  assert (Hx : (Qabs x <= inject_Z (2 ^ 53) * pow2 e)%Q).
  { rewrite <- pow2_Z, <- pow2_add by lia. apply Qlt_le_weak.
    eapply Qlt_le_trans; [exact Hu |]. apply pow2_le. lia. }
  apply Qabs_Qle_condition in Hx. destruct Hx as [Hx1 Hx2].
  assert (Hm : - 2 ^ 53 <= m <= 2 ^ 53).
  { split.
    - apply round_half_even_ge. apply Qle_shift_div_l; [exact Hpe |].
      rewrite inject_Z_opp. lra.
    - apply round_half_even_le. apply Qle_shift_div_r; [exact Hpe |]. exact Hx2. }
  destruct (Z.eq_dec (Z.abs m) (2 ^ 53)) as [Hedge | Hin].
  - exists (Z.sgn m), (e + 53).
    split; [| split; [| split]]; [| | lia | lia].
    + rewrite Hr, pow2_add, (pow2_Z 53) by lia.
      assert (Hsgn : m = Z.sgn m * 2 ^ 53) by lia.
      rewrite Hsgn at 1. rewrite inject_Z_mult. ring.
    + destruct m; cbn; lia.
  - exists m, e. split; [exact Hr |]. split; [lia |]. split; lia.
Qed.

Lemma round64_idempotent (x : Q) : (round64 (round64 x) == round64 x)%Q.
Proof.
  destruct (round64_representable x) as (z & k & Hz & Hb & Hk & _).
  exact (round64_exact _ z k Hz Hb Hk).
Qed.

(** The integer part of a binary64 number is a binary64 number. *)
Lemma round64_floor (x : Q) :
  (round64 (inject_Z (Qfloor (round64 x))) == inject_Z (Qfloor (round64 x)))%Q.
Proof.
  destruct (Qeq_dec x 0) as [H0 | H0].
  { rewrite (round64_zero x H0). reflexivity. }
  destruct (round64_representable x) as (z & k & Hz & Hb & Hk & Hek).
  destruct (Z_le_gt_dec 0 k) as [Hint | Hfrac].
  - assert (Hr : (round64 x == inject_Z (z * 2 ^ k))%Q).
    { rewrite Hz, inject_Z_mult, <- pow2_Z by lia. reflexivity. }
    apply (round64_exact _ z k); [| exact Hb | exact Hk].
    rewrite (Qfloor_comp _ _ Hr), Qfloor_Z, <- Hz. now symmetry.
  - destruct (ulp_exponent_spec x H0) as (Hl & Hu & He).
    set (l := ilog2 (Qabs x)) in *.
    assert (Hx : (Qabs x <= pow2 52)%Q).
    { apply Qlt_le_weak. eapply Qlt_le_trans; [exact Hu |]. apply pow2_le. lia. }
    apply (round64_abs_le x 52 ltac:(lia)) in Hx.
    apply Qabs_Qle_condition in Hx. destruct Hx as [Hx1 Hx2].
    rewrite (pow2_Z 52) in Hx1, Hx2 by lia.
    apply (round64_exact _ (Qfloor (round64 x)) 0); [| | lia].
    + change (pow2 0) with 1%Q. ring.
    + rewrite <- inject_Z_opp in Hx1.
      apply Qfloor_resp_le in Hx1, Hx2. rewrite Qfloor_Z in Hx1, Hx2. lia.
Qed.

(** A binary64 number that is whole is held as the whole number. *)
Lemma round64_whole (q : Q) (z : Z) :
  (round64 q == inject_Z z)%Q -> round64 q = inject_Z z.
Proof.
  unfold round64. destruct (Qeq_bool q 0).
  - intros H. assert (z = 0); [| now subst].
    unfold Qeq in H. cbn in H. lia.
  - intros H. apply Qred_complete in H. rewrite Qred_involutive in H.
    rewrite H. apply Qred_identity. cbn. apply Z.gcd_1_r.
Qed.

(** Rounding again changes nothing. *)
Lemma round64_round64 (x : Q) : round64 (round64 x) = round64 x.
Proof.
  assert (Hred : forall a, Qred (round64 a) = round64 a).
  { intros a. unfold round64. destruct (Qeq_bool a 0); [reflexivity |].
    apply Qred_involutive. }
  pose proof (Qred_complete _ _ (round64_idempotent x)) as H.
  now rewrite !Hred in H.
Qed.

(** A whole number up to 2^53 is a binary64 number. *)
Lemma double_whole (z : Z) :
  Z.abs z <= 2 ^ 53 -> double (num_of_Z z) = num_of_Z z.
Proof.
  intros Hz. unfold double, num_of_Z. f_equal. apply round64_whole.
  destruct (Z.eq_dec (Z.abs z) (2 ^ 53)) as [Hedge | Hin].
  - apply (round64_exact _ (Z.sgn z) 53); [| destruct z; cbn; lia | lia].
    rewrite (pow2_Z 53), <- inject_Z_mult by lia.
    assert (Hsgn : z = Z.sgn z * 2 ^ 53) by lia. now rewrite <- Hsgn.
  - apply (round64_exact _ z 0); [| lia | lia].
    change (pow2 0) with 1%Q. ring.
Qed.

Lemma Qfloor_unique (q : Q) (n : Z) :
  (inject_Z n <= q)%Q -> (q < inject_Z (n + 1))%Q -> Qfloor q = n.
Proof.
  intros Hlo Hhi.
  apply Qfloor_resp_le in Hlo. rewrite Qfloor_Z in Hlo.
  pose proof (Qfloor_le q) as Hf.
  assert (Hlt : (inject_Z (Qfloor q) < inject_Z (n + 1))%Q)
    by (eapply Qle_lt_trans; eassumption).
  rewrite <- Zlt_Qlt in Hlt. lia.
Qed.

(** [Math.floor(charWidth * 0.54)] in binary64 is the integer part of 54
    hundredths of the width, for every width up to 2^40. *)
Lemma item_column_width_binary64 (c : Z) :
  0 <= c <= 2 ^ 40 ->
  Qfloor (fmul (inject_Z c) (round64 (54 # 100))) = c * 54 / 100.
Proof.
  intros Hc. unfold fmul.
  destruct (Z.eq_dec c 0) as [-> | Hnz]; [reflexivity |].
  set (f := round64 (54 # 100)).
  assert (Hf : ((54 # 100) <= f)%Q /\ (f <= (54 # 100) + (1 # 18014398509481984))%Q).
  { split; vm_compute; discriminate. }
  destruct Hf as [Hf1 Hf2].
  set (N := c * 54 / 100).
  assert (HN : 100 * N <= 54 * c <= 100 * N + 98).
  { pose proof (Z.div_mod (c * 54) 100 ltac:(lia)) as Hdm. fold N in Hdm.
    pose proof (Z.mod_pos_bound (c * 54) 100 ltac:(lia)) as Hm.
    lia. }
  assert (Hc1 : (1 <= inject_Z c)%Q) by (rewrite <- (Zle_Qle 1); lia).
  assert (Hc2 : (inject_Z c <= inject_Z (2 ^ 40))%Q) by (rewrite <- Zle_Qle; lia).
  change (inject_Z (2 ^ 40)) with (1099511627776 # 1)%Q in Hc2.
  destruct HN as [HN1 HN2].
  rewrite Zle_Qle in HN1, HN2.
  rewrite inject_Z_plus in HN2. rewrite !inject_Z_mult in HN1, HN2.
  change (inject_Z 100) with 100%Q in HN1, HN2.
  change (inject_Z 54) with 54%Q in HN1, HN2.
  change (inject_Z 98) with 98%Q in HN2.
  set (p := (inject_Z c * f)%Q).
  assert (Hp1 : (inject_Z N <= p)%Q) by (unfold p; nra).
  assert (Hp2 : (p <= inject_Z N + 1 - (1 # 4096))%Q).
  { assert (Hcf : (p <= inject_Z c * ((54 # 100) + (1 # 18014398509481984)))%Q).
    { unfold p. apply Qmult_le_l; [lra | exact Hf2]. }
    lra. }
  assert (Hp0 : ~ (p == 0)%Q) by (unfold p; nra).
  assert (Hpabs : (Qabs p < pow2 41)%Q).
  { rewrite Qabs_pos by (unfold p; nra).
    change (pow2 41) with (2199023255552 # 1)%Q. unfold p. nra. }
  assert (He : ulp_exponent p <= -12).
  { destruct (ulp_exponent_spec p Hp0) as (Hl & _ & ->).
    assert (Hlt : (pow2 (ilog2 (Qabs p)) < pow2 41)%Q)
      by (eapply Qle_lt_trans; eassumption).
    apply pow2_lt_inv in Hlt. lia. }
  destruct (round64_barrier p (N * 2 ^ 12) (-12) Hp0 He) as [Hlo _].
  destruct (round64_barrier p ((N + 1) * 2 ^ 12 - 1) (-12) Hp0 He) as [_ Hhi].
  assert (E1 : (inject_Z (N * 2 ^ 12) * pow2 (-12) == inject_Z N)%Q).
  { rewrite inject_Z_mult. change (inject_Z (2 ^ 12)) with (4096 # 1)%Q.
    change (pow2 (-12)) with (1 # 4096)%Q. field. }
  assert (E2 : (inject_Z ((N + 1) * 2 ^ 12 - 1) * pow2 (-12)
                == inject_Z N + 1 - (1 # 4096))%Q).
  { unfold Z.sub. rewrite inject_Z_plus, inject_Z_mult, inject_Z_plus.
    change (inject_Z (2 ^ 12)) with (4096 # 1)%Q.
    change (pow2 (-12)) with (1 # 4096)%Q.
    change (inject_Z (- (1))) with (-1 # 1)%Q. change (inject_Z 1) with 1%Q.
    field. }
  rewrite E1 in Hlo. rewrite E2 in Hhi.
  specialize (Hlo Hp1). specialize (Hhi Hp2).
  apply Qfloor_unique; [exact Hlo |].
  rewrite inject_Z_plus. change (inject_Z 1) with 1%Q.
  eapply Qle_lt_trans; [exact Hhi |].
  lra.
Qed.

(** ** Paper width to characters per line *)

(** The distance from a standard width to a binary64 paper width is
    computed exactly when it is below 16 mm, and is at least 16 mm as
    computed when it is at least 16 mm. *)
Lemma distance64_cases (q : Q) (s : Z) :
  48 <= s <= 1024 ->
  (distance64 s (round64 q) == distance s (round64 q))%Q \/
  ((16 <= distance64 s (round64 q))%Q /\ (16 <= distance s (round64 q))%Q).
Proof.
  intros Hs. set (w := round64 q). unfold distance64, distance, fsub.
  destruct (Qlt_le_dec (Qabs (inject_Z s - w)) 16) as [Hnear | Hfar].
  - left. apply Qabs_wd.
    apply Qabs_Qlt_condition in Hnear. destruct Hnear as [Hlo Hhi].
    assert (H48 : (inject_Z 48 <= inject_Z s)%Q) by (rewrite <- Zle_Qle; lia).
    assert (H1024 : (inject_Z s <= inject_Z 1024)%Q) by (rewrite <- Zle_Qle; lia).
    change (inject_Z 48) with 48%Q in H48.
    change (inject_Z 1024) with 1024%Q in H1024.
    destruct (round64_grid q) as [Hsmall | [z Hz]].
    { fold w in Hsmall. apply Qabs_Qlt_condition in Hsmall. lra. }
    fold w in Hz.
    apply (round64_exact _ (s * 2 ^ 47 - z) (-47)); [| | lia].
    + rewrite Hz. unfold Zminus.
      rewrite inject_Z_plus, inject_Z_mult, (inject_Z_opp z).
      change (pow2 (-47)) with (1 # 140737488355328)%Q.
      change (inject_Z (2 ^ 47)) with (140737488355328 # 1)%Q. field.
    + rewrite Hz in Hlo, Hhi.
      change (pow2 (-47)) with (1 # 140737488355328)%Q in Hlo, Hhi.
      assert (Hd : (inject_Z (- 2 ^ 51) < inject_Z (s * 2 ^ 47 - z)
                    < inject_Z (2 ^ 51))%Q).
      { unfold Zminus. rewrite inject_Z_plus, inject_Z_mult, (inject_Z_opp z).
        change (inject_Z (2 ^ 47)) with (140737488355328 # 1)%Q.
        change (inject_Z (2 ^ 51)) with (2251799813685248 # 1)%Q.
        change (inject_Z (- 2 ^ 51)) with (-2251799813685248 # 1)%Q.
        split; lra. }
      destruct Hd as [Hd1 Hd2]. rewrite <- Zlt_Qlt in Hd1, Hd2. lia.
  - right. split; [| exact Hfar].
    change 16%Q with (pow2 4). apply round64_abs_ge; [lia | exact Hfar].
Qed.

Lemma closer_nearest (w : Q) (rest : list Z) :
  forall first : Z,
    let c := fold_left (closer w) rest first in
    In c (first :: rest) /\
    forall s, In s (first :: rest) -> (distance64 c w <= distance64 s w)%Q.
Proof.
  induction rest as [| x rest IH]; intros first; simpl.
  - split; [now left |]. intros s [<- | []]. apply Qle_refl.
  - specialize (IH (closer w first x)). simpl in IH. destruct IH as [Hin Hmin].
    assert (Hcloser : (distance64 (closer w first x) w <= distance64 first w)%Q /\
                      (distance64 (closer w first x) w <= distance64 x w)%Q /\
                      (closer w first x = first \/ closer w first x = x)).
    { unfold closer, distance64.
      destruct (Qlt_le_dec (Qabs (fsub (inject_Z x) w)) (Qabs (fsub (inject_Z first) w)))
        as [Hlt | Hle].
      - split; [now apply Qlt_le_weak |]. split; [apply Qle_refl | now right].
      - split; [apply Qle_refl |]. split; [assumption | now left]. }
    destruct Hcloser as (Hfirst & Hx & Hwhich).
    split.
    + destruct Hin as [Hin | Hin]; [| now right; right].
      rewrite <- Hin. destruct Hwhich as [-> | ->]; [now left | now right; left].
    + intros s [<- | [<- | Hs]].
      * eapply Qle_trans; [| exact Hfirst]. apply Hmin. now left.
      * eapply Qle_trans; [| exact Hx]. apply Hmin. now left.
      * apply Hmin. now right.
Qed.

(** Whether a standard width is within 2 mm of the paper width, and
    which one is nearest then, come out of the binary64 distances as out
    of the exact ones. *)
Lemma closestWidth_exact (q : Q) :
  let w := round64 q in
  let closest := closestWidth w in
  ((exists s, In s (map fst standardWidths) /\ (distance s w <= 2)%Q) ->
     (distance64 closest w <= 2)%Q) /\
  ((distance64 closest w <= 2)%Q ->
     (distance closest w <= 2)%Q /\
     forall s, In s (map fst standardWidths) ->
       (distance closest w <= distance s w)%Q).
Proof.
  intros w closest.
  destruct (closer_nearest w [76; 80; 82; 110] 58) as [Hin Hmin].
  change (fold_left (closer w) [76; 80; 82; 110] 58) with closest in *.
  change (58 :: [76; 80; 82; 110]) with (map fst standardWidths) in *.
  assert (Hkeys : forall s, In s (map fst standardWidths) -> 48 <= s <= 1024).
  { intros s Hs. simpl in Hs. intuition lia. }
  split.
  - intros (s & Hs & Hd).
    apply (Qle_trans _ (distance64 s w)); [now apply Hmin |].
    pose proof (distance64_cases q s (Hkeys s Hs)) as Hc. fold w in Hc.
    destruct Hc as [He | [_ Hf]]; [now rewrite He | lra].
  - intros Hnear.
    pose proof (distance64_cases q closest (Hkeys _ Hin)) as Hc. fold w in Hc.
    destruct Hc as [He | [Hf _]]; [| lra].
    split; [now rewrite <- He |].
    intros s Hs. rewrite <- He.
    pose proof (distance64_cases q s (Hkeys s Hs)) as Hc. fold w in Hc.
    destruct Hc as [Hes | [_ Hfs]]; [| lra].
    rewrite <- Hes. now apply Hmin.
Qed.

(** C7.  The result depends on the paper width through the binary64
    number [w] that the function receives.  When a standard width is
    within 2 mm of [w], the width
    [closest] that [getOptimalCharacterWidth] picks is within 2 mm, no
    standard width is nearer, and the result is its entry in the table
    58 -> 32, 76 -> 42, 80 -> 48, 82 -> 48, 110 -> 64; when none is
    within 2 mm the result is [floor(((w - 6) / 10) * 5.9)] clamped to
    [32 .. 64].  The distances of these conditions are exact; the formula
    is computed in binary64, as the source computes it.  80 mm gives 48,
    58 mm gives 32, and 100 mm is computed by the formula, which gives
    55; 61.9322033898305 mm gives 33, where the formula in exact
    arithmetic would give 32. *)
Theorem getOptimalCharacterWidth_spec (widthMM : Q) :
  let w := round64 widthMM in
  let closest := closestWidth w in
  standardWidths = [(58, 32); (76, 42); (80, 48); (82, 48); (110, 64)] /\
  round64 w = w /\
  getOptimalCharacterWidth w = getOptimalCharacterWidth widthMM /\
  In closest (map fst standardWidths) /\
  (forall s, In s (map fst standardWidths) ->
     (distance64 closest w <= distance64 s w)%Q) /\
  ((exists s, In s (map fst standardWidths) /\ (distance s w <= 2)%Q) ->
     (distance closest w <= 2)%Q /\
     (forall s, In s (map fst standardWidths) ->
        (distance closest w <= distance s w)%Q) /\
     lookup_width closest = Some (getOptimalCharacterWidth widthMM)) /\
  ((forall s, In s (map fst standardWidths) -> (2 < distance s w)%Q) ->
     getOptimalCharacterWidth widthMM
       = Z.max 32 (Z.min 64 (Qfloor (width_formula w))) /\
     32 <= getOptimalCharacterWidth widthMM <= 64) /\
  getOptimalCharacterWidth 80 = 48 /\
  getOptimalCharacterWidth 58 = 32 /\
  (forall s, In s (map fst standardWidths) -> (2 < distance s (round64 100))%Q) /\
  getOptimalCharacterWidth 100 = 55 /\
  getOptimalCharacterWidth (619322033898305 # 10000000000000) = 33 /\
  Qfloor (((619322033898305 # 10000000000000) - 6) / 10 * (59 # 10)) = 32.
Proof.
  intros w closest.
  destruct (closer_nearest w [76; 80; 82; 110] 58) as [Hin Hmin].
  change (fold_left (closer w) [76; 80; 82; 110] 58) with closest in *.
  destruct (closestWidth_exact widthMM) as [Hnear64 Hexact].
  fold w in Hnear64, Hexact. fold closest in Hnear64, Hexact.
  split; [reflexivity |].
  split; [apply round64_round64 |].
  split; [unfold getOptimalCharacterWidth, w; now rewrite round64_round64 |].
  split; [exact Hin |]. split; [exact Hmin |].
  split; [| split].
  - intros Hnear. apply Hnear64 in Hnear.
    destruct (Hexact Hnear) as [Hd Hleast].
    split; [exact Hd |]. split; [exact Hleast |].
    unfold getOptimalCharacterWidth.
    fold w. fold closest. fold (distance64 closest w).
    apply Qle_bool_iff in Hnear. rewrite Hnear.
    simpl in Hin.
    destruct Hin as [<- | [<- | [<- | [<- | [<- | []]]]]]; reflexivity.
  - intros Hfar. unfold getOptimalCharacterWidth.
    fold w. fold closest. fold (distance64 closest w).
    destruct (Qle_bool (distance64 closest w) 2) eqn:Hnear.
    + apply Qle_bool_iff in Hnear. destruct (Hexact Hnear) as [Hd _].
      specialize (Hfar closest Hin). lra.
    + split; [reflexivity | lia].
  - split; [vm_compute; reflexivity |]. split; [vm_compute; reflexivity |].
    split.
    + intros s Hs. simpl in Hs.
      destruct Hs as [<- | [<- | [<- | [<- | [<- | []]]]]];
        vm_compute; reflexivity.
    + repeat split; vm_compute; reflexivity.
Qed.

Lemma getOptimalCharacterWidth_spec_witness :
  lookup_width (closestWidth (round64 (795 # 10)))
    = Some (getOptimalCharacterWidth (795 # 10)) /\
  32 <= getOptimalCharacterWidth 100 <= 64.
Proof.
  split.
  - apply (getOptimalCharacterWidth_spec (795 # 10)).
    exists 80. split; [simpl; tauto | vm_compute; discriminate].
  - apply (getOptimalCharacterWidth_spec 100).
    intros s Hs. simpl in Hs.
    destruct Hs as [<- | [<- | [<- | [<- | [<- | []]]]]];
      vm_compute; reflexivity.
Defined.

(** ** The receipt builder *)

Lemma bind_ok {A B : Type} (m : printing A) (k : A -> printing B)
    (a : A) (b : B) (out1 out2 : list command) :
  m = Ok (a, out1) -> k a = Ok (b, out2) -> m ≫= k = Ok (b, out1 ++ out2).
Proof. intros -> Hk. unfold mbind, printing_bind. now rewrite Hk. Qed.

Lemma bind_inv {A B : Type} (m : printing A) (k : A -> printing B)
    (b : B) (out : list command) :
  m ≫= k = Ok (b, out) ->
  exists a out1 out2, m = Ok (a, out1) /\ k a = Ok (b, out2) /\ out = out1 ++ out2.
Proof.
  unfold mbind, printing_bind.
  destruct m as [[a out1] | |]; [| discriminate | discriminate].
  destruct (k a) as [[b' out2] | |] eqn:Hk; [| discriminate | discriminate].
  intros [= <- <-]. eauto 6.
Qed.

Lemma bind_assoc {A B C : Type} (m : printing A) (f : A -> printing B)
    (g : B -> printing C) :
  (m ≫= f) ≫= g = m ≫= (fun a => f a ≫= g).
Proof.
  unfold mbind, printing_bind.
  destruct m as [[a out1] | |]; [| reflexivity | reflexivity].
  destruct (f a) as [[b out2] | |]; [| reflexivity | reflexivity].
  destruct (g b) as [[c out3] | |]; [| reflexivity | reflexivity].
  now rewrite app_assoc.
Qed.

Lemma forEach_from_rows {A : Type} (f : A -> Z -> printing unit)
    (g : A -> list command) (l : list A) :
  (forall x i, f x i = Ok (tt, g x)) ->
  forall i, forEach_from i l f = Ok (tt, flat_map g l).
Proof.
  intros Hf. induction l as [| x l IH]; intros i; [reflexivity |].
  simpl. exact (bind_ok _ _ _ _ _ _ (Hf x i) (IH (i + 1))).
Qed.

Lemma len_list_gt0_cons {A : Type} (x : A) (l : list A) :
  len_list_gt0 (x :: l) = true.
Proof. unfold len_list_gt0. simpl length. apply Z.gtb_lt. lia. Qed.

Lemma printPayments_section (charWidth : Z) (t : totals) :
  printPayments charWidth t
  = Ok (tt, payments_section charWidth (payments t) (totalPaid t) (balanceDue t)).
Proof.
  unfold printPayments, payments_section.
  destruct (payments t) as [| p ps] eqn:Hp; [reflexivity |].
  rewrite len_list_gt0_cons. unfold when, forEach.
  rewrite (forEach_from_rows _ (payment_rows charWidth)).
  - unfold paid_row, due_row, positive.
    destruct (num_lt (num_of_Z 0) (totalPaid t)),
             (num_lt (num_of_Z 0) (balanceDue t));
      cbn; rewrite ?app_nil_r; reflexivity.
  - intros x _. unfold payment_rows. destruct (pay_createdAt x); reflexivity.
Qed.

Lemma printNotes_returns (data : receipt) :
  exists out, printNotes data = Ok (tt, out).
Proof.
  unfold printNotes.
  destruct (filter _ (notes data)) as [| n ns]; [now eexists |].
  rewrite len_list_gt0_cons. unfold when, forEach.
  erewrite (forEach_from_rows _ (fun note =>
    Println (str "- " ++ template (note_text note)) ::
    match note_createdAt note with
    | Some _ => [Println _]
    | None => []
    end)).
  - now eexists.
  - intros x _. destruct (note_createdAt x); reflexivity.
Qed.

(** *** Emphasis *)

Lemma emphasis_after_app (out1 out2 : list command) (on : bool) :
  emphasis_after (out1 ++ out2) on = emphasis_after out2 (emphasis_after out1 on).
Proof. apply fold_left_app. Qed.

Lemma keeps_ret {A : Type} (a : A) : keeps_emphasis (mret a : printing A).
Proof. intros a' out on [= _ <-]. reflexivity. Qed.

Lemma keeps_emit (c : command) :
  (forall on, emphasis_step on c = on) -> keeps_emphasis (emit c).
Proof. intros Hc a out on [= _ <-]. apply Hc. Qed.

Lemma keeps_bind {A B : Type} (m : printing A) (k : A -> printing B) :
  keeps_emphasis m -> (forall a, keeps_emphasis (k a)) -> keeps_emphasis (m ≫= k).
Proof.
  intros Hm Hk b out on Hrun.
  apply bind_inv in Hrun as (a & out1 & out2 & H1 & H2 & ->).
  rewrite emphasis_after_app, (Hm _ _ _ H1). exact (Hk _ _ _ _ H2).
Qed.

Lemma keeps_when (b : bool) (m : printing unit) :
  keeps_emphasis m -> keeps_emphasis (when b m).
Proof. intros Hm. destruct b; [exact Hm | apply keeps_ret]. Qed.

Lemma keeps_forEach_from {A : Type} (l : list A) (f : A -> Z -> printing unit) :
  (forall x i, keeps_emphasis (f x i)) ->
  forall i, keeps_emphasis (forEach_from i l f).
Proof.
  intros Hf. induction l as [| x l IH]; intros i; simpl.
  - apply keeps_ret.
  - apply keeps_bind; [apply Hf | intros _; apply IH].
Qed.

Lemma keeps_forEach {A : Type} (l : list A) (f : A -> printing unit) :
  (forall x, keeps_emphasis (f x)) -> keeps_emphasis (forEach l f).
Proof. intros Hf. apply keeps_forEach_from. intros x _. apply Hf. Qed.

Lemma keeps_call_wrapText (text : jsstring) (w : Z) :
  keeps_emphasis (call_wrapText text w).
Proof.
  unfold call_wrapText. destruct (wrapText text w); [apply keeps_ret |].
  intros a out on [=].
Qed.

Lemma keeps_loc_field_strict (data : receipt) (f : location -> option jsstring) :
  keeps_emphasis (loc_field_strict data f).
Proof.
  unfold loc_field_strict. destruct (data_location data); [apply keeps_ret |].
  intros a out on [=].
Qed.

Lemma keeps_toString_strict (x : option number) :
  keeps_emphasis (toString_strict x).
Proof.
  unfold toString_strict. destruct x; [apply keeps_ret |].
  intros a out on [=].
Qed.

Lemma ends_after {A B : Type} (m : printing A) (k : A -> printing B) :
  (forall a, ends_emphasized (k a)) -> ends_emphasized (m ≫= k).
Proof.
  intros Hk b out on Hrun.
  apply bind_inv in Hrun as (a & out1 & out2 & H1 & H2 & ->).
  rewrite emphasis_after_app. exact (Hk _ _ _ _ H2).
Qed.

Lemma ends_then_keeps {A B : Type} (m : printing A) (k : A -> printing B) :
  ends_emphasized m -> (forall a, keeps_emphasis (k a)) -> ends_emphasized (m ≫= k).
Proof.
  intros Hm Hk b out on Hrun.
  apply bind_inv in Hrun as (a & out1 & out2 & H1 & H2 & ->).
  rewrite emphasis_after_app, (Hk _ _ _ _ H2). exact (Hm _ _ _ H1).
Qed.

Lemma ends_bold : ends_emphasized (emit (Bold true)).
Proof. intros a out on [= _ <-]. reflexivity. Qed.

Create HintDb emphasis.
#[local] Hint Resolve keeps_ret keeps_when keeps_forEach keeps_forEach_from
  keeps_call_wrapText keeps_loc_field_strict keeps_toString_strict : emphasis.
#[local] Hint Extern 1 (keeps_emphasis (emit _)) =>
  apply keeps_emit; intros; reflexivity : emphasis.
#[local] Hint Extern 2 (keeps_emphasis (_ ≫= _)) =>
  apply keeps_bind; [| intros] : emphasis.
#[local] Hint Extern 3 (keeps_emphasis (match ?x with _ => _ end)) =>
  destruct x : emphasis.

Ltac keeps := auto 40 with emphasis.

Lemma printHeader_ends_emphasized (charWidth : Z) (data : receipt) :
  ends_emphasized (printHeader charWidth data).
Proof.
  unfold printHeader.
  do 7 (apply ends_after; intros _).
  apply ends_then_keeps; [apply ends_bold | intros _].
  keeps.
Qed.

Lemma printInvoiceInfo_keeps (charWidth : Z) (data : receipt) :
  keeps_emphasis (printInvoiceInfo charWidth data).
Proof. unfold printInvoiceInfo. keeps. Qed.

Lemma printCustomer_keeps (data : receipt) : keeps_emphasis (printCustomer data).
Proof. unfold printCustomer. keeps. Qed.

Lemma printItems_keeps (charWidth : Z) (data : receipt) :
  keeps_emphasis (printItems charWidth data).
Proof. unfold printItems, printItem. keeps. Qed.

Lemma printSummary_keeps (charWidth : Z) (t : totals) :
  keeps_emphasis (printSummary charWidth t).
Proof. unfold printSummary. keeps. Qed.

Lemma positive_iff (q : Q) : positive (Num q) = true <-> (0 < q)%Q.
Proof.
  unfold positive, num_lt, num_of_Z.
  destruct (Qlt_le_dec (inject_Z 0) q) as [Hlt | Hle].
  - split; [intros _; exact Hlt | reflexivity].
  - split; [discriminate |]. intros Hlt. exfalso.
    apply (Qlt_irrefl q). eapply Qle_lt_trans; eassumption.
Qed.

Lemma payment_rows_rows (charWidth : Z) (pays : list payment) :
  Forall is_row (flat_map (payment_rows charWidth) pays).
Proof.
  induction pays as [| x pays IH]; [constructor |].
  change (flat_map (payment_rows charWidth) (x :: pays))
    with (payment_rows charWidth x ++ flat_map (payment_rows charWidth) pays).
  apply Forall_app_2; [| exact IH].
  unfold payment_rows. destruct (pay_createdAt x); repeat constructor.
Qed.

Lemma payments_section_rows (charWidth : Z) (pays : list payment) (tp bd : number) :
  Forall is_row (payments_section charWidth pays tp bd).
Proof.
  unfold payments_section. destruct pays as [| p ps]; [constructor |].
  apply Forall_app_2; [repeat constructor |].
  apply Forall_app_2; [apply payment_rows_rows |].
  apply Forall_app_2; [repeat constructor |].
  apply Forall_app_2.
  - unfold paid_row. destruct (positive tp); repeat constructor.
  - unfold due_row. destruct (positive bd); repeat constructor.
Qed.

(** C2.  The commands of a receipt are those before the payments
    section, the payments section, and those after it, where neither the
    commands before nor the commands after depend on the payments, the
    total paid or the balance due.  The section is empty exactly when
    the payment list is; otherwise it is a separator, the rows of the
    payments, a separator, the PAID row exactly when the total paid is
    positive and the DUE row exactly when the balance due is positive.
    The section is reached with emphasis on and consists of text lines
    and separators only, which leave it on. *)
Theorem payments_section_emitted (charWidth : Z) (data : receipt)
    (tq : option number) (sub : number) (ch : list charge) (gt : number) :
  exists (before : result (list command)) (after : list command),
    (forall pays tp bd,
       commands_of
         (buildThermalReceipt charWidth data (make_totals tq sub ch gt pays tp bd))
       = match before with
         | Ok pre => Ok (pre ++ payments_section charWidth pays tp bd ++ after)
         | TypeError => TypeError
         | Diverges => Diverges
         end) /\
    match before with
    | Ok pre => emphasis_after pre false = true
    | _ => True
    end /\
    (forall pays tp bd, Forall is_row (payments_section charWidth pays tp bd)) /\
    (forall pays tp bd, payments_section charWidth pays tp bd = [] <-> pays = []) /\
    (forall p ps tp bd,
       payments_section charWidth (p :: ps) tp bd
       = DrawLine :: flat_map (payment_rows charWidth) (p :: ps)
         ++ DrawLine :: paid_row charWidth tp ++ due_row charWidth bd) /\
    (forall tp,
       paid_row charWidth tp
       = if positive tp
         then [Println (createTwoColumnLine (str "PAID") (money tp) charWidth)]
         else []) /\
    (forall bd,
       due_row charWidth bd
       = if positive bd
         then [Println (createTwoColumnLine (str "DUE") (money bd) charWidth)]
         else []) /\
    (forall q, positive (Num q) = true <-> (0 < q)%Q) /\
    positive NaN = false.
Proof.
  destruct (printNotes_returns data) as [notes_out Hnotes].
  set (t0 := make_totals tq sub ch gt [] NaN NaN).
  set (P := ((((printHeader charWidth data ;; printInvoiceInfo charWidth data) ;;
              printCustomer data) ;; printItems charWidth data) ;;
            printSummary charWidth t0)).
  exists (commands_of P), (notes_out ++ footer_commands).
  split; [| split; [| split; [| split; [| split; [| split; [| split; [| split]]]]]]].
  - intros pays tp bd.
    assert (Hsplit :
      buildThermalReceipt charWidth data (make_totals tq sub ch gt pays tp bd)
      = (P ;; (printPayments charWidth (make_totals tq sub ch gt pays tp bd) ;;
               (printNotes data ;; printFooter)))).
    { unfold buildThermalReceipt, P. rewrite !bind_assoc. reflexivity. }
    rewrite Hsplit, printPayments_section, Hnotes.
    destruct P as [[[] pre] | |]; reflexivity.
  - destruct P as [[[] pre] | |] eqn:HP; [| exact I | exact I].
    revert HP. unfold P.
    apply ends_then_keeps; [| intros _; apply printSummary_keeps].
    apply ends_then_keeps; [| intros _; apply printItems_keeps].
    apply ends_then_keeps; [| intros _; apply printCustomer_keeps].
    apply ends_then_keeps; [| intros _; apply printInvoiceInfo_keeps].
    apply printHeader_ends_emphasized.
  - apply payments_section_rows.
  - intros pays tp bd. destruct pays; simpl; split; congruence.
  - reflexivity.
  - reflexivity.
  - reflexivity.
  - apply positive_iff.
  - reflexivity.
Qed.

Lemma payments_section_emitted_witness :
  exists before after,
    commands_of
      (buildThermalReceipt 32 sample_receipt
         (make_totals (Some (num_of_Z 2)) (num_of_Z 25) [] (num_of_Z 25)
            [sample_payment] (num_of_Z 20) (num_of_Z 5)))
    = Ok (before
          ++ [DrawLine;
              Println (str "CASH                          20");
              DrawLine;
              Println (str "PAID                          20");
              Println (str "DUE                            5")]
          ++ after) /\
    commands_of
      (buildThermalReceipt 32 sample_receipt
         (make_totals (Some (num_of_Z 2)) (num_of_Z 25) [] (num_of_Z 25)
            [] (num_of_Z 20) (num_of_Z 5)))
    = Ok (before ++ after).
Proof.
  destruct (payments_section_emitted 32 sample_receipt
              (Some (num_of_Z 2)) (num_of_Z 25) [] (num_of_Z 25))
    as (before & after & Hrun & _).
  destruct before as [pre | |] eqn:Hbefore.
  - exists pre, after. split.
    + exact (Hrun [sample_payment] (num_of_Z 20) (num_of_Z 5)).
    + exact (Hrun [] (num_of_Z 20) (num_of_Z 5)).
  - specialize (Hrun [] NaN NaN). vm_compute in Hrun. discriminate.
  - specialize (Hrun [] NaN NaN). vm_compute in Hrun. discriminate.
Defined.

(** ** The [/print] endpoint *)

Section PrintHandlerFacts.
Import PrintHandler.

Lemma on_event_as_success (st : print_state) (ev : print_event) :
  on_event st (as_success ev) = on_event st ev.
Proof. destruct ev as [| [] failure]; reflexivity. Qed.

Lemma await_print_all_success (events : list print_event) :
  await_print (map as_success events) = await_print events.
Proof.
  unfold await_print.
  generalize {| callbackCalled := false; settled := Pending |}.
  induction events as [| ev events IH]; intros st; [reflexivity |].
  simpl. rewrite on_event_as_success. apply IH.
Qed.

Lemma events_after_settlement (events : list print_event) (st : print_state) :
  callbackCalled st = true -> fold_left on_event events st = st.
Proof.
  intros Hst. induction events as [| ev events IH]; [reflexivity |].
  simpl. destruct ev; simpl; rewrite Hst; exact IH.
Qed.

(** C9.  The response to a [/print] request is the same whether the
    callback of the native print reports failure or success; and for a
    request that passes validation and whose page was loaded, a callback
    that reports failure is answered with 204. *)
Theorem callback_failure_is_success (req : body) (env : environment) :
  handle req (all_success env) = handle req env /\
  forall p failure later,
    printer req = Some p ->
    truthy (printer_name p) = true ->
    new_BrowserWindow env = Done ->
    loadURL env = Done ->
    print_events env = PrintCallback false failure :: later ->
    handle req env = Some NoContent /\ status NoContent = 204.
Proof.
  split.
  - unfold handle, all_success. simpl. now rewrite await_print_all_success.
  - intros p failure later Hp Hname Hwin Hload Hevents.
    split; [| reflexivity].
    unfold handle. rewrite Hp, Hname, Hwin, Hload, Hevents. simpl.
    unfold await_print. simpl.
    now rewrite events_after_settlement.
Qed.

(** The current revision keeps no registry of jobs: its [/print] handler
    never answers 409. *)
Lemma current_revision_never_busy (req : body) (env : environment) :
  handle req env <> Some Conflict.
Proof.
  unfold handle, on_error.
  destruct (printer req) as [p |]; [| discriminate].
  destruct (negb (truthy (printer_name p))); [discriminate |].
  destruct (new_BrowserWindow env); [| discriminate].
  destruct (loadURL env); [| discriminate].
  destruct (await_print (print_events env)); discriminate.
Qed.

Lemma callback_failure_is_success_witness :
  handle
    {| printer := Some {| printer_name := Some (str "EPSON TM-T20") |};
       html := str "<p>receipt</p>";
       widthMM := num_of_Z 80;
       heightMM := num_of_Z 200 |}
    {| new_BrowserWindow := Done;
       loadURL := Done;
       print_events := [PrintCallback false (str "cancelled"); TimerFires] |}
  = Some NoContent.
Proof.
  eapply (callback_failure_is_success _ _); reflexivity.
Defined.

End PrintHandlerFacts.

(** ** The job registry *)

Section JobRegistryFacts.
Import JobRegistry.

Lemma consistent_initial : consistent initial.
Proof.
  split; [constructor |].
  intros name key. simpl. rewrite lookup_empty. split; [discriminate |].
  intros (j & Hj & _). inversion Hj.
Qed.

Lemma busy_iff_registered (s : service) (name : option jsstring) :
  consistent s -> busy s name <-> is_Some (activePrintJobs s !! name).
Proof.
  intros [_ Hreg]. unfold busy. rewrite list_elem_of_fmap. split.
  - intros (j & -> & Hj). exists (job_key j). apply Hreg. eauto.
  - intros [key Hkey]. apply Hreg in Hkey as (j & Hj & <- & _). eauto.
Qed.

Lemma in_flight_unique (s : service) (j j' : job) :
  consistent s -> j ∈ in_flight s -> j' ∈ in_flight s ->
  job_name j = job_name j' -> job_key j = job_key j'.
Proof.
  intros [_ Hreg] Hj Hj' Hname.
  assert (H1 : activePrintJobs s !! job_name j = Some (job_key j))
    by (apply Hreg; eauto).
  assert (H2 : activePrintJobs s !! job_name j = Some (job_key j'))
    by (apply Hreg; eauto).
  congruence.
Qed.

Lemma same_name_same_job (l : list job) (j j' : job) :
  NoDup (job_name <$> l) -> j ∈ l -> j' ∈ l -> job_name j = job_name j' -> j = j'.
Proof.
  induction l as [| x l IH]; intros Hnd Hj Hj' Hname; [inversion Hj |].
  rewrite fmap_cons in Hnd. apply NoDup_cons in Hnd as [Hx Hnd].
  apply elem_of_cons in Hj as [-> | Hj]; apply elem_of_cons in Hj' as [-> | Hj'].
  - reflexivity.
  - exfalso. apply Hx. rewrite Hname. now apply list_elem_of_fmap_2.
  - exfalso. apply Hx. rewrite <- Hname. now apply list_elem_of_fmap_2.
  - now apply IH.
Qed.

(** An arrival for an idle printer is admitted: the registry gets its
    key and the job is in flight. *)
Lemma arrival_accepted (s : service) (req : request) (now : Z)
    (name : option jsstring) :
  consistent s -> valid req = Some name -> ~ busy s name ->
  step s (Arrives req now)
  = ({| activePrintJobs := <[name := jobKey name now]> (activePrintJobs s);
        in_flight := {| job_route := route req; job_name := name;
                        job_key := jobKey name now |} :: in_flight s |},
     None).
Proof.
  intros Hs Hvalid Hidle. unfold step, acquire. rewrite Hvalid.
  destruct (decide (is_Some (activePrintJobs s !! name))) as [Hsome | _];
    [| reflexivity].
  exfalso. apply Hidle. now apply busy_iff_registered.
Qed.

(** An arrival for a busy printer is answered 409 and changes nothing. *)
Lemma arrival_refused (s : service) (req : request) (now : Z)
    (name : option jsstring) :
  consistent s -> valid req = Some name -> busy s name ->
  step s (Arrives req now) = (s, Some Conflict).
Proof.
  intros Hs Hvalid Hbusy. unfold step, acquire. rewrite Hvalid.
  destruct (decide (is_Some (activePrintJobs s !! name))) as [_ | Hnone].
  - now destruct s.
  - exfalso. apply Hnone. now apply busy_iff_registered.
Qed.

(** The end of a job in flight frees its printer, whatever the outcome. *)
Lemma finish_frees (s : service) (j : job) (outcome : attempt) :
  consistent s -> j ∈ in_flight s ->
  exists r,
    step s (Finishes j outcome)
    = ({| activePrintJobs := delete (job_name j) (activePrintJobs s);
          in_flight := filter (fun j' => j' ≠ j) (in_flight s) |},
       Some r) /\
    (r = NoContent \/ exists e, r = ServerError e).
Proof.
  intros [Hnd Hreg] Hj. unfold step.
  destruct (decide (j ∈ in_flight s)) as [_ | Hno]; [| contradiction].
  assert (Hkey : activePrintJobs s !! job_name j = Some (job_key j))
    by (apply Hreg; eauto).
  unfold finish, release.
  destruct (decide (activePrintJobs s !! job_name j = Some (job_key j)))
    as [_ | Hno]; [| contradiction].
  destruct outcome; eexists; (split; [reflexivity |]); eauto.
Qed.

Lemma step_consistent (s : service) (e : event) :
  consistent s -> consistent (fst (step s e)).
Proof.
  intros Hs. destruct e as [req now | j outcome].
  - destruct (valid req) as [name |] eqn:Hvalid.
    + destruct (decide (name ∈ job_name <$> in_flight s)) as [Hbusy | Hidle].
      * now rewrite (arrival_refused s req now name).
      * rewrite (arrival_accepted s req now name) by assumption.
        destruct Hs as [Hnd Hreg]. split; simpl.
        -- apply NoDup_cons. split; assumption.
        -- intros n k. rewrite lookup_insert. case_decide as Hn.
           ++ subst n. split.
              ** intros [= <-]. eexists. split; [apply elem_of_cons; now left |].
                 now split.
              ** intros (j & Hj & Hjn & Hjk).
                 apply elem_of_cons in Hj as [-> | Hj]; [now subst |].
                 exfalso. apply Hidle. unfold busy. rewrite <- Hjn.
                 now apply list_elem_of_fmap_2.
           ++ rewrite Hreg. split.
              ** intros (j & Hj & Hjn & Hjk). exists j.
                 split; [apply elem_of_cons; now right | now split].
              ** intros (j & Hj & Hjn & Hjk).
                 apply elem_of_cons in Hj as [-> | Hj]; [| eauto].
                 simpl in Hjn. congruence.
    + unfold step, acquire. rewrite Hvalid. now destruct s.
  - destruct (decide (j ∈ in_flight s)) as [Hj | Hno].
    + destruct (finish_frees s j outcome Hs Hj) as (r & -> & _).
      destruct Hs as [Hnd Hreg]. split; simpl.
      * apply (sublist_NoDup _ (job_name <$> in_flight s)); [exact Hnd |].
        apply fmap_sublist, sublist_filter.
      * intros n k. rewrite lookup_delete. case_decide as Hn.
        -- subst n. split; [discriminate |].
           intros (j' & Hj' & Hjn & _).
           apply list_elem_of_filter in Hj' as [Hne Hj'].
           exfalso. apply Hne. now apply (same_name_same_job (in_flight s)).
        -- rewrite Hreg. split.
           ++ intros (j' & Hj' & Hjn & Hjk). exists j'.
              split; [| now split].
              apply list_elem_of_filter. split; [congruence | assumption].
           ++ intros (j' & Hj' & Hjn & Hjk).
              apply list_elem_of_filter in Hj' as [_ Hj']. eauto.
    + unfold step. destruct (decide (j ∈ in_flight s)); [contradiction |].
      exact Hs.
Qed.

Lemma run_consistent (events : list event) (s : service) :
  consistent s -> consistent (run s events).
Proof.
  revert s. induction events as [| e events IH]; intros s Hs; [exact Hs |].
  simpl. apply IH. now apply step_consistent.
Qed.

(** C1.  In every state the service reaches, no two jobs in flight name
    the same printer.  A valid request, for either endpoint, that names
    a printer with a job in flight is answered 409 and changes nothing;
    one that names an idle printer is admitted and makes the printer
    busy; and the end of a job in flight, by success or by failure,
    answers 204 or 500 and leaves its printer idle.  So of two requests
    for an idle printer the first is admitted and the second refused,
    and a third is admitted once the first has finished. *)
Theorem one_job_per_printer (events : list event) :
  let s := run initial events in
  NoDup (job_name <$> in_flight s) /\
  (forall req now name,
     valid req = Some name -> busy s name ->
     step s (Arrives req now) = (s, Some Conflict) /\ status Conflict = 409) /\
  (forall req now name,
     valid req = Some name -> ~ busy s name ->
     exists s' j,
       step s (Arrives req now) = (s', None) /\
       in_flight s' = j :: in_flight s /\ job_name j = name /\ busy s' name) /\
  (forall j outcome,
     j ∈ in_flight s ->
     exists s' r,
       step s (Finishes j outcome) = (s', Some r) /\
       (status r = 204 \/ status r = 500) /\
       ~ busy s' (job_name j)) /\
  (forall req1 req2 req3 now1 now2 now3 name outcome,
     valid req1 = Some name -> valid req2 = Some name ->
     valid req3 = Some name -> ~ busy s name ->
     exists s1 j s2 r s3,
       step s (Arrives req1 now1) = (s1, None) /\
       in_flight s1 = j :: in_flight s /\
       step s1 (Arrives req2 now2) = (s1, Some Conflict) /\
       step s1 (Finishes j outcome) = (s2, Some r) /\
       step s2 (Arrives req3 now3) = (s3, None) /\
       busy s3 name).
Proof.
  intros s.
  assert (Hs : consistent s) by apply run_consistent, consistent_initial.
  assert (Haccept : forall s req now name,
    consistent s -> valid req = Some name -> ~ busy s name ->
    exists s' j,
      step s (Arrives req now) = (s', None) /\
      in_flight s' = j :: in_flight s /\ job_name j = name /\ busy s' name).
  { intros s0 req now name Hs0 Hvalid Hidle.
    do 2 eexists.
    split; [apply (arrival_accepted s0 req now name); assumption |].
    split; [reflexivity |]. split; [reflexivity |].
    unfold busy. simpl. apply elem_of_cons. now left. }
  assert (Hfinish : forall s j outcome,
    consistent s -> j ∈ in_flight s ->
    exists s' r,
      step s (Finishes j outcome) = (s', Some r) /\
      (status r = 204 \/ status r = 500) /\
      ~ busy s' (job_name j)).
  { intros s0 j outcome Hs0 Hj.
    destruct (finish_frees s0 j outcome Hs0 Hj) as (r & Hstep & Hr).
    do 2 eexists. split; [exact Hstep |]. split.
    - destruct Hr as [-> | [e ->]]; [now left | now right].
    - unfold busy. simpl. intros Hin.
      apply list_elem_of_fmap in Hin as (j' & Hname & Hj').
      apply list_elem_of_filter in Hj' as [Hne Hj'].
      apply Hne. destruct Hs0 as [Hnd _].
      now apply (same_name_same_job (in_flight s0)). }
  split; [apply Hs |].
  split; [intros req now name Hvalid Hbusy; split;
          [now apply (arrival_refused s req now name) | reflexivity] |].
  split; [intros req now name; now apply Haccept |].
  split; [intros j outcome; now apply Hfinish |].
  intros req1 req2 req3 now1 now2 now3 name outcome Hv1 Hv2 Hv3 Hidle.
  destruct (Haccept s req1 now1 name Hs Hv1 Hidle) as (s1 & j & H1 & Hfl & Hj & Hbusy).
  assert (Hs1 : consistent s1).
  { change s1 with (fst (s1, @None response)). rewrite <- H1.
    now apply step_consistent. }
  assert (Hjin : j ∈ in_flight s1) by (rewrite Hfl; apply elem_of_cons; now left).
  destruct (Hfinish s1 j outcome Hs1 Hjin) as (s2 & r & H2 & _ & Hidle2).
  assert (Hs2 : consistent s2).
  { change s2 with (fst (s2, Some r)). rewrite <- H2. now apply step_consistent. }
  rewrite Hj in Hidle2.
  destruct (Haccept s2 req3 now3 name Hs2 Hv3 Hidle2) as (s3 & j3 & H3 & _ & _ & Hbusy3).
  exists s1, j, s2, r, s3.
  repeat split; try assumption.
  now apply (arrival_refused s1 req2 now2 name).
Qed.

Lemma one_job_per_printer_witness :
  let html :=
    {| route := PrintHtml;
       printer := Some {| printer_name := Some (str "PrinterA") |};
       payload_present := false |} in
  let thermal :=
    {| route := PrintThermal;
       printer := Some {| printer_name := Some (str "PrinterA") |};
       payload_present := true |} in
  let s := run initial [Arrives html 1000] in
  step s (Arrives thermal 1001) = (s, Some Conflict) /\ status Conflict = 409.
Proof.
  intros html thermal s.
  destruct (one_job_per_printer [Arrives html 1000]) as (_ & Hrefused & _).
  apply (Hrefused thermal 1001 (Some (str "PrinterA"))).
  - reflexivity.
  - unfold busy. apply elem_of_cons. now left.
Defined.

End JobRegistryFacts.

(** ** Start-up *)

Section StartupFacts.
Import Startup.

Context {World : Type}.
Variable isPortAvailable : Z -> World -> bool * World.
Variable attemptGracefulShutdown : Z -> World -> bool * World.
Variable killProcessOnPort : Z -> World -> bool * World.
Variable startServices : World -> service_outcome * World.
Variable globalWebContents : bool.

Abbreviation ensurePorts :=
  (ensurePortsAvailable isPortAvailable attemptGracefulShutdown killProcessOnPort).
Abbreviation start :=
  (startApi isPortAvailable attemptGracefulShutdown killProcessOnPort
     startServices globalWebContents).

Lemma port_run_ret {A : Type} (a : A) : port_run (fun m : @machine World => (a, m)).
Proof. intros m. exists []. simpl. now rewrite app_nil_r. Qed.

Lemma port_run_bind {A B : Type} (c : @io World A) (k : A -> @io World B) :
  port_run c -> (forall a, port_run (k a)) ->
  port_run (fun m => let '(a, m') := c m in k a m').
Proof.
  intros Hc Hk m. destruct (Hc m) as (pt1 & Ha1 & Ht1 & Hp1).
  destruct (c m) as [a m1]. simpl in *.
  destruct (Hk a m1) as (pt2 & Ha2 & Ht2 & Hp2).
  exists (pt1 ++ pt2). rewrite Ha2, Ht2, Ht1, Ha1, app_assoc.
  split; [reflexivity |]. split; [reflexivity |]. now apply Forall_app_2.
Qed.

Lemma port_run_host {A : Type} (f : World -> A * World) : port_run (host f).
Proof.
  intros m. exists []. unfold host. destruct (f (world m)). simpl.
  now rewrite app_nil_r.
Qed.

Lemma port_run_log (a : action) : port_action a -> port_run (@log World a).
Proof. intros Ha m. exists [a]. simpl. repeat split. now constructor. Qed.

Lemma port_run_probe (port : Z) : port_run (probe isPortAvailable port).
Proof.
  unfold probe. apply port_run_bind; [now apply port_run_log |].
  intros _. apply port_run_host.
Qed.

Lemma ensurePorts_port_run (ports : list Z) : port_run (ensurePorts ports).
Proof.
  induction ports as [| port rest IH]; [apply port_run_ret |].
  simpl. apply port_run_bind; [apply port_run_probe |].
  intros [|]; [exact IH |].
  apply port_run_bind; [now apply port_run_log |]. intros _.
  apply port_run_bind; [apply port_run_host |]. intros graceful.
  apply port_run_bind.
  { destruct graceful; [apply port_run_probe | apply port_run_ret]. }
  intros [|]; [exact IH |].
  apply port_run_bind; [now apply port_run_log |]. intros _.
  apply port_run_bind; [apply port_run_host |]. intros _.
  apply port_run_bind; [apply port_run_probe |].
  intros [|]; [exact IH | apply port_run_ret].
Qed.

Lemma attempts_made_app (t1 t2 : list action) :
  attempts_made (t1 ++ t2) = (attempts_made t1 + attempts_made t2)%nat.
Proof. unfold attempts_made. now rewrite filter_app, length_app. Qed.

Lemma port_action_quiet (a : action) : port_action a -> quiet a.
Proof. destruct a; simpl; tauto. Qed.

Lemma attempts_made_quiet (t : list action) :
  Forall quiet t -> attempts_made t = 0%nat.
Proof.
  unfold attempts_made. induction 1 as [| a t Ha _ IH]; [reflexivity |].
  rewrite filter_cons. destruct (decide (a = CheckingPorts)) as [-> | _];
    [destruct Ha | exact IH].
Qed.

Lemma backed_off_continues (prev prev' : option action) (t : list action) :
  continues t -> backed_off prev t = backed_off prev' t.
Proof. destruct t as [| [] t]; simpl; intros H; try reflexivity. destruct H. Qed.

Lemma backed_off_quiet (mid rest : list action) :
  Forall quiet mid -> continues rest ->
  forall prev, backed_off prev (mid ++ rest) = backed_off None rest.
Proof.
  intros Hmid Hrest. induction Hmid as [| a mid Ha _ IH]; intros prev.
  - now apply backed_off_continues.
  - simpl. rewrite IH. destruct a; try reflexivity; destruct Ha.
Qed.

(** The shape the three failure paths of [startApi] share: count the
    failure, then retry after the delay or end with [fin]. *)
Lemma retry_or_end (flag : bool) (fuel : nat) (fin : @io World (option ending))
    (m m1 : @machine World) (mid : list action) :
  (forall m0 : @machine World,
     (1 <= fuel)%nat ->
     (Z.to_nat (3 - apiStartupAttempts m0) <= fuel)%nat ->
     exists e m' t,
       start flag fuel m0 = (Some e, m') /\
       trace m' = trace m0 ++ CheckingPorts :: t /\
       (attempts_made (CheckingPorts :: t)
          <= Nat.max 1 (Z.to_nat (3 - apiStartupAttempts m0)))%nat /\
       backed_off (Some CheckingPorts) t = true) ->
  (forall m2 : @machine World, exists e m' tl,
     fin m2 = (Some e, m') /\ trace m' = trace m2 ++ tl /\ Forall quiet tl) ->
  apiStartupAttempts m1 = apiStartupAttempts m ->
  trace m1 = trace m ++ CheckingPorts :: mid ->
  Forall quiet mid ->
  (Z.to_nat (3 - apiStartupAttempts m) <= S fuel)%nat ->
  exists e m' t,
    (get_attempts ≫= fun n =>
     set_attempts (n + 1) ≫= fun _ =>
     if n + 1 <? MAX_STARTUP_ATTEMPTS
     then log (RetryAfter 3000) ≫= fun _ => start flag fuel
     else fin) m1 = (Some e, m') /\
    trace m' = trace m ++ CheckingPorts :: t /\
    (attempts_made (CheckingPorts :: t)
       <= Nat.max 1 (Z.to_nat (3 - apiStartupAttempts m)))%nat /\
    backed_off (Some CheckingPorts) t = true.
Proof.
  intros IH Hfin Hn Ht Hmid Hleft.
  unfold mbind, io_bind, get_attempts, set_attempts, log. cbn beta iota.
  unfold MAX_STARTUP_ATTEMPTS.
  destruct (Z.ltb_spec (apiStartupAttempts m1 + 1) 3) as [Hretry | Hlast].
  - cbn [world apiStartupAttempts trace].
    match goal with |- context [start flag fuel ?m2] =>
      destruct (IH m2) as (e & m' & t' & Hrun & Ht' & Hcount & Hback)
    end.
    + lia.
    + cbn [apiStartupAttempts]. lia.
    + exists e, m', (mid ++ RetryAfter 3000 :: CheckingPorts :: t').
      split; [exact Hrun |]. split; [| split].
      * rewrite Ht'. cbn [trace]. rewrite Ht, <- !app_assoc. reflexivity.
      * cbn [apiStartupAttempts] in Hcount.
        change (CheckingPorts :: mid ++ RetryAfter 3000 :: CheckingPorts :: t')
          with ([CheckingPorts] ++ mid ++ [RetryAfter 3000] ++ CheckingPorts :: t').
        rewrite !attempts_made_app, (attempts_made_quiet mid Hmid).
        change (attempts_made [CheckingPorts]) with 1%nat.
        change (attempts_made [RetryAfter 3000]) with 0%nat.
        lia.
      * rewrite backed_off_quiet by (assumption || exact I).
        simpl. exact Hback.
  - destruct (Hfin {| world := world m1;
                      apiStartupAttempts := apiStartupAttempts m1 + 1;
                      trace := trace m1 |}) as (e & m' & tl & Hrun & Htl & Hquiet).
    exists e, m', (mid ++ tl).
    split; [exact Hrun |]. split; [| split].
    + rewrite Htl. cbn [trace]. rewrite Ht, <- app_assoc. reflexivity.
    + change (CheckingPorts :: mid ++ tl) with ([CheckingPorts] ++ mid ++ tl).
      rewrite !attempts_made_app, (attempts_made_quiet mid Hmid),
        (attempts_made_quiet tl Hquiet).
      change (attempts_made [CheckingPorts]) with 1%nat. lia.
    + rewrite <- (app_nil_r (mid ++ tl)).
      rewrite backed_off_quiet; [reflexivity | | exact I].
      now apply Forall_app_2.
Qed.

Lemma report_quiet (error : jsstring) (e : ending) (m2 : @machine World) :
  exists e' m' tl,
    (report globalWebContents error ≫= fun _ => mret (Some e)) m2 = (Some e', m') /\
    trace m' = trace m2 ++ tl /\ Forall quiet tl.
Proof.
  unfold report, mbind, io_bind, mret, io_ret, log.
  destruct globalWebContents; do 3 eexists.
  - split; [reflexivity |]. split; [reflexivity |]. repeat constructor.
  - split; [reflexivity |]. split; [symmetry; apply app_nil_r | constructor].
Qed.

Lemma start_bounded (flag : bool) (fuel : nat) :
  (flag = true -> forall w, fst (startServices w) <> ListenError true) ->
  forall m : @machine World,
    (1 <= fuel)%nat ->
    (Z.to_nat (3 - apiStartupAttempts m) <= fuel)%nat ->
    exists e m' t,
      start flag fuel m = (Some e, m') /\
      trace m' = trace m ++ CheckingPorts :: t /\
      (attempts_made (CheckingPorts :: t)
         <= Nat.max 1 (Z.to_nat (3 - apiStartupAttempts m)))%nat /\
      backed_off (Some CheckingPorts) t = true.
Proof.
  intros Hlisten.
  induction fuel as [| fuel IH]; intros m Hfuel Hleft; [lia |].
  cbn [startApi]. unfold mbind at 1 2, io_bind at 1 2.
  cbn [log].
  destruct (ensurePorts_port_run [21321; 21322]
              {| world := world m; apiStartupAttempts := apiStartupAttempts m;
                 trace := trace m ++ [CheckingPorts] |})
    as (pt & Hn & Ht & Hpt).
  destruct (ensurePorts _ _) as [b m1]. cbn [snd apiStartupAttempts trace] in Hn, Ht.
  rewrite <- app_assoc in Ht.
  change ([CheckingPorts] ++ pt) with (CheckingPorts :: pt) in Ht.
  assert (Hquiet : Forall quiet pt)
    by (eapply Forall_impl; [exact Hpt | exact port_action_quiet]).
  destruct b; cbn [negb].
  - unfold mbind at 1 2, io_bind at 1 2, log at 1, host at 1.
    cbn [world apiStartupAttempts trace].
    pose proof (fun Hflag => Hlisten Hflag (world m1)) as Hnot.
    destruct (startServices (world m1)) as [outcome w']. cbn [fst] in Hnot.
    assert (Hquiet' : Forall quiet (pt ++ [StartServices])).
    { apply Forall_app_2; [exact Hquiet |]. repeat constructor. }
    destruct outcome as [| [|] | message].
    + eexists _, _, (pt ++ [StartServices]). split; [reflexivity |]. cbn [trace].
      split; [rewrite Ht, <- app_assoc; reflexivity |]. split.
      * change (CheckingPorts :: pt ++ [StartServices])
          with ([CheckingPorts] ++ pt ++ [StartServices]).
        rewrite attempts_made_app, (attempts_made_quiet _ Hquiet').
        change (attempts_made [CheckingPorts]) with 1%nat. lia.
      * rewrite <- (app_nil_r (pt ++ [StartServices])).
        now rewrite backed_off_quiet.
    + destruct flag; [now destruct Hnot |].
      unfold mbind at 1, io_bind at 1, mret at 1, io_ret at 1.
      apply (retry_or_end false fuel _ m _ (pt ++ [StartServices]));
        try assumption.
      * intros m2. do 3 eexists. split; [reflexivity |].
        split; [symmetry; apply app_nil_r | constructor].
      * cbn [trace]. rewrite Ht, <- app_assoc. reflexivity.
    + destruct flag;
        unfold mbind, io_bind, mret, io_ret, set_attempts;
        cbn [world apiStartupAttempts trace];
        (eexists _, _, (pt ++ [StartServices]); split; [reflexivity |]);
        cbn [trace];
        (split; [rewrite Ht, <- app_assoc; reflexivity |]); (split;
        [change (CheckingPorts :: pt ++ [StartServices])
           with ([CheckingPorts] ++ pt ++ [StartServices]);
         rewrite attempts_made_app, (attempts_made_quiet _ Hquiet');
         change (attempts_made [CheckingPorts]) with 1%nat; lia
        | rewrite <- (app_nil_r (pt ++ [StartServices]));
          now rewrite backed_off_quiet]).
    + apply (retry_or_end flag fuel _ m _ (pt ++ [StartServices]));
        try assumption.
      * apply report_quiet.
      * cbn [trace]. rewrite Ht, <- app_assoc. reflexivity.
  - apply (retry_or_end flag fuel _ m _ pt); try assumption.
    apply report_quiet.
Qed.

Section PortsHeld.

(** The ports are held and nothing frees them. *)
Hypothesis held : forall port w, fst (isPortAvailable port w) = false.

Lemma probe_held (port : Z) (m : @machine World) :
  fst (probe isPortAvailable port m) = false.
Proof.
  unfold probe, mbind, io_bind, log, host. cbn [world].
  pose proof (held port (world m)) as H.
  destruct (isPortAvailable port (world m)). exact H.
Qed.

Lemma ensurePorts_held (port : Z) (rest : list Z) (m : @machine World) :
  fst (ensurePorts (port :: rest) m) = false.
Proof.
  cbn [ensurePortsAvailable]. unfold mbind at 1, io_bind at 1.
  pose proof (probe_held port m) as H1.
  destruct (probe isPortAvailable port m) as [b1 m1]. simpl in H1. subst b1.
  unfold mbind at 1 2 3, io_bind at 1 2 3, log at 1, host at 1.
  cbn [world].
  destruct (attemptGracefulShutdown port (world m1)) as [graceful w2].
  match goal with |- context [(if graceful then ?p else ?q) ?m2] =>
    assert (H2 : fst ((if graceful then p else q) m2) = false)
      by (destruct graceful; [apply probe_held | reflexivity]);
    destruct ((if graceful then p else q) m2) as [b2 m3]
  end.
  simpl in H2. subst b2.
  unfold mbind at 1 2 3, io_bind at 1 2 3, log at 1, host at 1.
  cbn [world].
  destruct (killProcessOnPort port _) as [killed w4].
  match goal with |- context [probe isPortAvailable port ?m4] =>
    pose proof (probe_held port m4) as H3;
    destruct (probe isPortAvailable port m4) as [b3 m5]
  end.
  simpl in H3. subst b3. reflexivity.
Qed.

End PortsHeld.

Section PortsUnreclaimable.

(** The port check fails whenever it is run: some port is found held
    and is still held after the forced reclamation. *)
Hypothesis unreclaimable :
  forall m : @machine World, fst (ensurePorts [21321; 21322] m) = false.

Lemma start_held (flag : bool) (fuel : nat) :
  forall m : @machine World,
    (1 <= Z.to_nat (3 - apiStartupAttempts m) <= fuel)%nat ->
    exists m' t,
      start flag fuel m = (Some StartupFailed, m') /\
      trace m' = trace m ++ t /\
      attempts_made t = Z.to_nat (3 - apiStartupAttempts m) /\
      (globalWebContents = true ->
       exists t0, t = t0 ++ [ReportFailure ports_occupied]).
Proof.
  induction fuel as [| fuel IH]; intros m Hleft; [lia |].
  cbn [startApi]. unfold mbind at 1 2, io_bind at 1 2.
  cbn [log].
  match goal with |- context [ensurePorts ?ports ?m0] =>
    destruct (ensurePorts_port_run ports m0) as (pt & Hn & Ht & Hpt);
    pose proof (unreclaimable m0) as Hb;
    destruct (ensurePorts ports m0) as [b m1]
  end.
  cbn [fst snd apiStartupAttempts trace] in Hn, Ht, Hb. subst b.
  cbn [negb].
  assert (Hquiet : Forall quiet pt)
    by (eapply Forall_impl; [exact Hpt | exact port_action_quiet]).
  unfold mbind, io_bind, get_attempts, set_attempts, log. cbn beta iota.
  unfold MAX_STARTUP_ATTEMPTS.
  destruct (Z.ltb_spec (apiStartupAttempts m1 + 1) 3) as [Hretry | Hlast].
  - cbn [world apiStartupAttempts trace].
    match goal with |- context [start flag fuel ?m2] =>
      destruct (IH m2) as (m' & t' & Hrun & Ht' & Hcount & Hreport)
    end.
    { cbn [apiStartupAttempts]. lia. }
    cbn [apiStartupAttempts trace] in Ht', Hcount.
    exists m', ([CheckingPorts] ++ pt ++ [RetryAfter 3000] ++ t').
    split; [exact Hrun |]. split; [| split].
    + rewrite Ht', Ht, <- !app_assoc. reflexivity.
    + rewrite !attempts_made_app, (attempts_made_quiet pt Hquiet), Hcount.
      change (attempts_made [CheckingPorts]) with 1%nat.
      change (attempts_made [RetryAfter 3000]) with 0%nat.
      lia.
    + intros Hweb. destruct (Hreport Hweb) as [t0 ->].
      exists ([CheckingPorts] ++ pt ++ [RetryAfter 3000] ++ t0).
      now rewrite <- !app_assoc.
  - unfold report, mret, io_ret.
    destruct globalWebContents; cbn [world apiStartupAttempts trace].
    + eexists _, ([CheckingPorts] ++ pt ++ [ReportFailure ports_occupied]).
      split; [reflexivity |]. cbn [trace]. split; [| split].
      * rewrite Ht, <- !app_assoc. reflexivity.
      * rewrite !attempts_made_app, (attempts_made_quiet pt Hquiet).
        change (attempts_made [CheckingPorts]) with 1%nat.
        change (attempts_made [ReportFailure ports_occupied]) with 0%nat.
        lia.
      * intros _. exists ([CheckingPorts] ++ pt). now rewrite <- app_assoc.
    + eexists _, ([CheckingPorts] ++ pt).
      split; [reflexivity |]. cbn [trace]. split; [| split].
      * rewrite Ht, <- app_assoc. reflexivity.
      * rewrite !attempts_made_app, (attempts_made_quiet pt Hquiet).
        change (attempts_made [CheckingPorts]) with 1%nat. lia.
      * discriminate.
Qed.

End PortsUnreclaimable.

(** On an express that calls the callback of [listen] when the server
    listens and not otherwise, or on a host whose server never fails to
    listen because the address is in use, [startApi] from a fresh
    process ends, with at most three port-acquisition sequences, each
    but the first right after a delay of 3000 ms.  When the port check
    fails each time
    it is run it makes exactly three, whatever the express, ends in
    failure, and the last thing it does is to report that failure to
    the shell; the port check fails each time when, for one, every
    probe finds its port held. *)
Lemma startup_attempts_bounded (w : World) (fuel : nat) :
  (3 <= fuel)%nat ->
  (forall flag,
     (flag = true -> forall w', fst (startServices w') <> ListenError true) ->
     exists e m',
       start flag fuel (boot w) = (Some e, m') /\
       (attempts_made (trace m') <= 3)%nat /\
       backed_off None (trace m') = true) /\
  ((forall m, fst (ensurePorts [21321; 21322] m) = false) ->
   forall flag, exists m',
     start flag fuel (boot w) = (Some StartupFailed, m') /\
     attempts_made (trace m') = 3%nat /\
     (globalWebContents = true ->
      last (trace m') = Some (ReportFailure ports_occupied))) /\
  ((forall port w', fst (isPortAvailable port w') = false) ->
   forall m, fst (ensurePorts [21321; 21322] m) = false).
Proof.
  intros Hfuel. split; [| split].
  - intros flag Hlisten.
    destruct (start_bounded flag fuel Hlisten (boot w))
      as (e & m' & t & Hrun & Ht & Hcount & Hback); [lia | simpl; lia |].
    exists e, m'. split; [exact Hrun |].
    simpl in Ht, Hcount. rewrite Ht. split; [exact Hcount | exact Hback].
  - intros Hfails flag.
    destruct (start_held Hfails flag fuel (boot w))
      as (m' & t & Hrun & Ht & Hcount & Hreport); [simpl; lia |].
    exists m'. split; [exact Hrun |]. simpl in Ht, Hcount. rewrite Ht.
    split; [exact Hcount |].
    intros Hweb. destruct (Hreport Hweb) as [t0 ->]. apply last_snoc.
  - intros Hheld m. now apply ensurePorts_held.
Qed.

Section ListenFails.

(** The ports are free whenever they are probed, and the HTTP server
    fails to listen because the address is in use. *)
Hypothesis ports_probed_free : forall port w, fst (isPortAvailable port w) = true.
Hypothesis listen_address_in_use :
  forall w, fst (startServices w) = ListenError true.

Lemma listen_error_attempt (flag : bool) (fuel : nat) (m : @machine World) :
  exists w',
    start flag (S fuel) m
    = let n := (if flag then 0 else apiStartupAttempts m) + 1 in
      if n <? 3
      then start flag fuel
             {| world := w'; apiStartupAttempts := n;
                trace := trace m ++ listen_attempt ++ [RetryAfter 3000] |}
      else (Some Stopped,
            {| world := w'; apiStartupAttempts := n;
               trace := trace m ++ listen_attempt |}).
Proof.
  cbn [startApi ensurePortsAvailable].
  unfold probe, mbind, io_bind, log, host, mret, io_ret, get_attempts, set_attempts.
  cbn [world trace apiStartupAttempts].
  pose proof (ports_probed_free 21321 (world m)) as H1.
  destruct (isPortAvailable 21321 (world m)) as [b1 w1]. cbn [fst] in H1. subst b1.
  cbn [world trace apiStartupAttempts].
  pose proof (ports_probed_free 21322 w1) as H2.
  destruct (isPortAvailable 21322 w1) as [b2 w2]. cbn [fst] in H2. subst b2.
  cbn [world trace apiStartupAttempts negb].
  pose proof (listen_address_in_use w2) as H3.
  destruct (startServices w2) as [outcome w3]. cbn [fst] in H3. subst outcome.
  exists w3. unfold MAX_STARTUP_ATTEMPTS, listen_attempt.
  destruct flag; cbn [world trace apiStartupAttempts]; cbn zeta;
    match goal with |- context [?n <? 3] => destruct (n <? 3) end;
    cbn [world trace apiStartupAttempts];
    rewrite <- !app_assoc; reflexivity.
Qed.

Lemma listen_error_forever (fuel : nat) :
  forall m : @machine World,
    Forall silent (trace m) ->
    exists m',
      start true fuel m = (None, m') /\
      trace m'
      = trace m ++ concat (replicate fuel (listen_attempt ++ [RetryAfter 3000])) /\
      attempts_made (trace m') = (attempts_made (trace m) + fuel)%nat /\
      Forall silent (trace m').
Proof.
  induction fuel as [| fuel IH]; intros m Hsilent.
  - exists m. split; [reflexivity |].
    split; [cbn; now rewrite app_nil_r |]. split; [lia | exact Hsilent].
  - destruct (listen_error_attempt true fuel m) as [w' ->].
    cbn zeta. change (0 + 1 <? 3) with true. cbn iota.
    match goal with |- context [start true fuel ?m1] =>
      destruct (IH m1) as (m' & Hrun & Htrace & Hcount & Hsilent')
    end.
    { cbn [trace]. apply Forall_app_2; [exact Hsilent |]. repeat constructor. }
    exists m'. split; [exact Hrun |].
    split; [| split; [| exact Hsilent']].
    + rewrite Htrace. cbn [trace replicate concat].
      now rewrite <- !app_assoc.
    + rewrite Hcount. cbn [trace]. rewrite attempts_made_app.
      change (attempts_made (listen_attempt ++ [RetryAfter 3000])) with 1%nat. lia.
Qed.

(** C8 where the code departs from it.  On a host whose ports are free
    each time they are probed and whose HTTP server then fails to listen
    because the address is in use, the start-up is given up after three
    attempts without a word to the shell, where the two other ways of
    failing report the failure; and when the callback of [listen] also
    runs on an error, as it does on express 5, it resets the counter
    before the error is counted, so that the start-up is tried again
    for ever. *)
Theorem startup_listen_error_unreported (w : World) :
  (forall fuel, (3 <= fuel)%nat ->
     exists m',
       start false fuel (boot w) = (Some Stopped, m') /\
       trace m' = listen_attempt ++ [RetryAfter 3000]
                  ++ listen_attempt ++ [RetryAfter 3000] ++ listen_attempt /\
       apiStartupAttempts m' = 3) /\
  (forall fuel, exists m',
     start true fuel (boot w) = (None, m') /\
     trace m' = concat (replicate fuel (listen_attempt ++ [RetryAfter 3000])) /\
     attempts_made (trace m') = fuel /\
     Forall silent (trace m')).
Proof.
  split.
  - intros fuel Hfuel.
    destruct fuel as [| [| [| fuel]]]; try lia.
    destruct (listen_error_attempt false (S (S fuel)) (boot w)) as [w1 ->].
    cbn [boot apiStartupAttempts trace]. cbn zeta.
    change (0 + 1 <? 3) with true. cbn iota.
    match goal with |- context [start false (S (S fuel)) ?m1] =>
      destruct (listen_error_attempt false (S fuel) m1) as [w2 ->]
    end.
    cbn [apiStartupAttempts trace]. cbn zeta.
    change (0 + 1 + 1 <? 3) with true. cbn iota.
    match goal with |- context [start false (S fuel) ?m2] =>
      destruct (listen_error_attempt false fuel m2) as [w3 ->]
    end.
    cbn [apiStartupAttempts trace]. cbn zeta.
    change (0 + 1 + 1 + 1 <? 3) with false. cbn iota.
    eexists. split; [reflexivity |]. cbn [trace apiStartupAttempts].
    split; [| reflexivity]. rewrite <- !app_assoc. reflexivity.
  - intros fuel.
    destruct (listen_error_forever fuel (boot w))
      as (m' & Hrun & Htrace & Hcount & Hsilent); [constructor |].
    exists m'. split; [exact Hrun |]. split; [exact Htrace |].
    split; [exact Hcount | exact Hsilent].
Qed.

End ListenFails.

End StartupFacts.

(** The start-up on a host whose ports are held, in full: three
    port-acquisition sequences, each a probe, a shutdown request, a
    forced reclamation and a last probe of the first port, a delay of
    3000 ms between them, and the report of the failure. *)
Lemma startup_ports_held_trace (flag : bool) :
  let attempt :=
    [Startup.CheckingPorts; Startup.Probe 21321; Startup.ShutdownRequest 21321;
     Startup.ForceKill 21321; Startup.Probe 21321] in
  Startup.startApi held_port no_effect no_effect not_reached true flag 3
    (Startup.boot tt)
  = (Some Startup.StartupFailed,
     {| Startup.world := tt;
        Startup.apiStartupAttempts := 3;
        Startup.trace :=
          attempt ++ [Startup.RetryAfter 3000]
          ++ attempt ++ [Startup.RetryAfter 3000]
          ++ attempt ++ [Startup.ReportFailure ports_occupied] |}).
Proof. destruct flag; reflexivity. Qed.

Lemma startup_listen_error_unreported_witness :
  (exists m',
     Startup.startApi probed_free no_effect no_effect address_in_use true false 3
       (Startup.boot tt) = (Some Startup.Stopped, m') /\
     Forall silent (Startup.trace m')) /\
  (exists m',
     Startup.startApi probed_free no_effect no_effect address_in_use true true 50
       (Startup.boot tt) = (None, m') /\
     Startup.attempts_made (Startup.trace m') = 50%nat).
Proof.
  destruct (startup_listen_error_unreported probed_free no_effect no_effect
              address_in_use true) with (w := tt) as [Hstop Hloop];
    [reflexivity | reflexivity |].
  split.
  - destruct (Hstop 3%nat ltac:(lia)) as (m' & Hrun & Htrace & _).
    exists m'. split; [exact Hrun |]. rewrite Htrace.
    repeat constructor.
  - destruct (Hloop 50%nat) as (m' & Hrun & _ & Hcount & _).
    exists m'. split; [exact Hrun | exact Hcount].
Defined.

(** ** Digits *)

Lemma digit_cases (d : Z) :
  0 <= d <= 9 ->
  d = 0 \/ d = 1 \/ d = 2 \/ d = 3 \/ d = 4 \/ d = 5 \/ d = 6 \/ d = 7 \/ d = 8 \/ d = 9.
Proof. lia. Qed.

Ltac each_digit H :=
  apply digit_cases in H;
  destruct H as [H | [H | [H | [H | [H | [H | [H | [H | [H | H]]]]]]]]];
  rewrite H in *; clear H.

Lemma digit_val_digit_char (d : Z) :
  0 <= d <= 9 -> digit_val 10 (digit_char d) = Some d.
Proof. intros H. each_digit H; vm_compute; reflexivity. Qed.

Lemma parse_digits_app (x y : jsstring) :
  Forall is_dec_digit x ->
  forall a, parse_digits 10 (x ++ y) a = parse_digits 10 y (parse_digits 10 x a).
Proof.
  induction 1 as [| c x (d & Hd & ->) _ IH]; intros a; [reflexivity |].
  cbn [app parse_digits]. rewrite digit_val_digit_char by assumption. apply IH.
Qed.

Lemma digits_go_acc (fuel : nat) :
  forall n acc, digits_go fuel n acc = digits_go fuel n [] ++ acc.
Proof.
  induction fuel as [| fuel IH]; intros n acc; [reflexivity |].
  cbn [digits_go]. destruct (n / 10 =? 0); [reflexivity |].
  rewrite IH, (IH _ [_]), <- app_assoc. reflexivity.
Qed.

Lemma digits_go_length (fuel : nat) :
  forall n k, 0 <= n < 10 ^ Z.of_nat k -> (1 <= k)%nat ->
  (length (digits_go fuel n []) <= k)%nat.
Proof.
  induction fuel as [| fuel IH]; intros n k Hn Hk; [cbn [digits_go length]; lia |].
  cbn [digits_go].
  destruct (Z.eqb_spec (n / 10) 0) as [_ | Hbig]; [cbn [length]; lia |].
  rewrite digits_go_acc, length_app. cbn [length].
  assert (10 <= n).
  { destruct (Z.lt_ge_cases n 10) as [Hlt | ?]; [| assumption].
    exfalso. apply Hbig. apply Z.div_small. lia. }
  destruct k as [| [| k]]; [lia | change (10 ^ Z.of_nat 1) with 10 in Hn; lia |].
  specialize (IH (n / 10) (S k)).
  assert (0 <= n / 10 < 10 ^ Z.of_nat (S k)).
  { split; [apply Z.div_pos; lia |].
    apply Z.div_lt_upper_bound; [lia |].
    replace (Z.of_nat (S (S k))) with (Z.succ (Z.of_nat (S k))) in Hn by lia.
    rewrite Z.pow_succ_r in Hn by lia. lia. }
  specialize (IH ltac:(assumption) ltac:(lia)). lia.
Qed.

Lemma digits_go_spec (fuel : nat) :
  forall n, (1 <= fuel)%nat -> 0 <= n < 10 ^ Z.of_nat fuel ->
  Forall is_dec_digit (digits_go fuel n []) /\
  parse_digits 10 (digits_go fuel n []) None = Some n /\
  (1 <= n -> exists d rest, 1 <= d <= 9 /\ digits_go fuel n [] = digit_char d :: rest).
Proof.
  induction fuel as [| fuel IH]; intros n Hfuel Hn; [lia |].
  assert (Hmod : 0 <= n mod 10 <= 9) by (pose proof (Z.mod_pos_bound n 10); lia).
  cbn [digits_go]. destruct (Z.eqb_spec (n / 10) 0) as [Hsmall | Hbig].
  - assert (Hn10 : n mod 10 = n).
    { rewrite (Z.div_mod n 10) at 2 by lia. rewrite Hsmall. lia. }
    split; [repeat constructor; exists (n mod 10); now split |].
    split.
    + cbn [parse_digits]. rewrite digit_val_digit_char by assumption.
      now rewrite Hn10.
    + intros Hpos. exists (n mod 10), []. split; [lia | reflexivity].
  - assert (H10 : 10 <= n).
    { destruct (Z.lt_ge_cases n 10) as [Hlt | ?]; [| assumption].
      exfalso. apply Hbig. apply Z.div_small. lia. }
    assert (Hdiv : 0 <= n / 10 < 10 ^ Z.of_nat fuel).
    { split; [apply Z.div_pos; lia |].
      apply Z.div_lt_upper_bound; [lia |].
      replace (Z.of_nat (S fuel)) with (Z.succ (Z.of_nat fuel)) in Hn by lia.
      rewrite Z.pow_succ_r in Hn by lia. lia. }
    assert (Hfuel' : (1 <= fuel)%nat).
    { destruct fuel; [| lia]. change (10 ^ Z.of_nat 0) with 1 in Hdiv. lia. }
    destruct (IH (n / 10) Hfuel' Hdiv) as (Hall & Hparse & Hhead).
    rewrite digits_go_acc. split; [| split].
    + apply Forall_app_2; [exact Hall |].
      repeat constructor. exists (n mod 10). now split.
    + rewrite parse_digits_app by exact Hall. rewrite Hparse.
      cbn [parse_digits]. rewrite digit_val_digit_char by assumption.
      f_equal. rewrite (Z.div_mod n 10) at 3 by lia. lia.
    + intros _. destruct Hhead as (d & rest & Hd & ->).
      * apply Z.div_le_lower_bound; lia.
      * exists d, (rest ++ [digit_char (n mod 10)]). now split.
Qed.

Lemma digits_fuel (n : Z) : 0 <= n -> n < 10 ^ Z.of_nat (S (Z.to_nat (Z.log2 n))).
Proof.
  intros Hn. destruct (Z.eq_dec n 0) as [-> | Hnz]; [reflexivity |].
  pose proof (Z.log2_nonneg n).
  replace (Z.of_nat (S (Z.to_nat (Z.log2 n)))) with (Z.succ (Z.log2 n)) by lia.
  eapply Z.lt_le_trans; [apply Z.log2_spec; lia |].
  apply Z.pow_le_mono_l. lia.
Qed.

Lemma digits_spec (n : Z) :
  0 <= n ->
  Forall is_dec_digit (digits n) /\
  parse_digits 10 (digits n) None = Some n /\
  (1 <= n -> exists d rest, 1 <= d <= 9 /\ digits n = digit_char d :: rest).
Proof.
  intros Hn. apply digits_go_spec; [lia |].
  split; [assumption | now apply digits_fuel].
Qed.

Lemma digits_length (n : Z) (k : nat) :
  0 <= n < 10 ^ Z.of_nat k -> (1 <= k)%nat -> len (digits n) <= Z.of_nat k.
Proof.
  intros Hn Hk. unfold len, digits.
  pose proof (digits_go_length (S (Z.to_nat (Z.log2 n))) n k Hn Hk). lia.
Qed.

Lemma digit_char_plain (d : Z) :
  1 <= d <= 9 ->
  is_white_space (digit_char d) = false /\
  Ascii.eqb (digit_char d) "-" = false /\
  Ascii.eqb (digit_char d) "+" = false /\
  Ascii.eqb (digit_char d) "0" = false.
Proof.
  intros H. assert (H' : 0 <= d <= 9) by lia. each_digit H'; try lia;
    vm_compute; repeat split; reflexivity.
Qed.

Lemma parseInt_string_plain (c : ascii) (x : jsstring) :
  is_white_space c = false ->
  Ascii.eqb c "-" = false -> Ascii.eqb c "+" = false -> Ascii.eqb c "0" = false ->
  parseInt_string (c :: x)
  = match parse_digits 10 (c :: x) None with
    | Some v => double (num_of_Z (1 * v))
    | None => NaN
    end.
Proof.
  intros Hws Hminus Hplus Hzero. unfold parseInt_string.
  cbn [trim_start]. rewrite Hws, Hminus, Hplus.
  destruct x as [| cx r]; [reflexivity |].
  rewrite Hzero. reflexivity.
Qed.

Lemma parseInt_string_digits (n : Z) (tail : jsstring) :
  1 <= n ->
  parse_digits 10 tail (Some n) = Some n ->
  parseInt_string (digits n ++ tail) = double (num_of_Z n).
Proof.
  intros Hn Htail.
  destruct (digits_spec n) as (Hall & Hparse & Hhead); [lia |].
  destruct (Hhead Hn) as (d & rest & Hd & Hdigits).
  destruct (digit_char_plain d Hd) as (Hws & Hminus & Hplus & Hzero).
  assert (Hvalue : parse_digits 10 (digits n ++ tail) None = Some n)
    by now rewrite parse_digits_app, Hparse.
  rewrite Hdigits in *. cbn [app] in *.
  rewrite parseInt_string_plain by assumption.
  now rewrite Hvalue, Z.mul_1_l.
Qed.

Lemma strip_leading_zeros_spec (x : jsstring) :
  exists m, x = replicate m "0"%char ++ strip_leading_zeros x.
Proof.
  induction x as [| c x [m IH]]; [now exists 0%nat |].
  simpl. unfold is_zero_char. destruct (Ascii.eqb_spec c "0") as [-> | _].
  - exists (S m). simpl. now rewrite <- IH.
  - now exists 0%nat.
Qed.

Lemma rev_replicate (m : nat) (c : ascii) : rev (replicate m c) = replicate m c.
Proof.
  induction m as [| m IH]; [reflexivity |].
  simpl. rewrite IH. clear IH.
  induction m as [| m IH]; [reflexivity |]. simpl. now rewrite IH.
Qed.

Lemma strip_trailing_zeros_spec (x : jsstring) :
  exists m, x = strip_trailing_zeros x ++ replicate m "0"%char.
Proof.
  unfold strip_trailing_zeros.
  destruct (strip_leading_zeros_spec (rev x)) as [m Hm].
  exists m. rewrite <- (rev_involutive x) at 1. rewrite Hm at 1.
  now rewrite rev_app_distr, rev_replicate.
Qed.

Lemma strip_trailing_zeros_head (c : ascii) (x : jsstring) :
  is_zero_char c = false ->
  exists s, strip_trailing_zeros (c :: x) = c :: s.
Proof.
  intros Hc. destruct (strip_trailing_zeros_spec (c :: x)) as [m Hm].
  destruct (strip_trailing_zeros (c :: x)) as [| c' s].
  - destruct m; [discriminate |]. simpl in Hm. injection Hm as -> _.
    discriminate.
  - simpl in Hm. injection Hm as <- _. now exists s.
Qed.

Lemma frac_digits_head (r den : Z) :
  r <> 0 ->
  exists rest, frac_digits frac_precision r den = digit_char (r * 10 / den) :: rest.
Proof.
  intros Hr. exists (frac_digits 39 (r * 10 mod den) den).
  change frac_precision with (S 39).
  change (frac_digits (S 39) r den)
    with (if r =? 0 then []
          else digit_char (r * 10 / den) :: frac_digits 39 (r * 10 mod den) den).
  destruct (Z.eqb_spec r 0); [contradiction | reflexivity].
Qed.

(** [parseInt] of the string form of a number from 0.5 up to, not
    including, 1e21 is its integer part. *)
Lemma parseInt_string_of_positive (q : Q) :
  (1 # 2 <= q)%Q -> (q < inject_Z (10 ^ 21))%Q ->
  parseInt_string (string_of_positive q) = double (num_of_Z (Qfloor q)).
Proof.
  destruct q as [num den]. unfold Qle, Qlt, Qfloor. cbn [Qnum Qden inject_Z].
  intros Hhalf Hbound.
  unfold string_of_positive, decimal_expansion. cbn [Qnum Qden].
  assert (Hnum : 0 < num) by lia.
  assert (Hip : 0 <= num / Z.pos den < 10 ^ 21).
  { split; [apply Z.div_pos; lia |]. apply Z.div_lt_upper_bound; lia. }
  destruct (Z.eqb_spec (num / Z.pos den) 0) as [Hzero | Hpos].
  - (* below one: "0." and the digits *)
    assert (Hlt : num < Z.pos den).
    { destruct (Z.lt_ge_cases num (Z.pos den)) as [? | Hge]; [assumption |].
      pose proof (Z.div_le_lower_bound num (Z.pos den) 1). lia. }
    rewrite (Z.mod_small num (Z.pos den)) by lia.
    destruct (frac_digits_head num (Z.pos den)) as [rest ->]; [lia |].
    assert (Hd : 5 <= num * 10 / Z.pos den <= 9).
    { split; [apply Z.div_le_lower_bound; lia |].
      assert (num * 10 / Z.pos den < 10); [| lia].
      apply Z.div_lt_upper_bound; lia. }
    destruct (digit_char_plain (num * 10 / Z.pos den)) as (_ & _ & _ & Hnz);
      [lia |].
    change (is_zero_char (digit_char (num * 10 / Z.pos den)) = false) in Hnz.
    cbn [strip_leading_zeros]. cbv zeta. rewrite !Hnz.
    destruct (strip_trailing_zeros_head _ rest Hnz) as [s ->].
    rewrite Z.sub_diag. unfold layout_digits.
    assert (Hk : 1 <= len (digit_char (num * 10 / Z.pos den) :: s))
      by (unfold len; cbn [length]; lia).
    destruct (Z.eqb_spec (len (digit_char (num * 10 / Z.pos den) :: s)) 0);
      [lia |].
    destruct (Z.leb_spec (len (digit_char (num * 10 / Z.pos den) :: s)) 0);
      [lia |].
    rewrite Hzero. reflexivity.
  - (* one or more: the digits of the integer part come first *)
    assert (Hone : 1 <= num / Z.pos den) by lia.
    destruct (digits_spec (num / Z.pos den)) as (Hall & Hparse & Hhead); [lia |].
    destruct (Hhead Hone) as (d & rest & Hd & Hdigits).
    destruct (digit_char_plain d Hd) as (_ & _ & _ & Hnz).
    change (is_zero_char (digit_char d) = false) in Hnz.
    pose proof (digits_length (num / Z.pos den) 21 Hip ltac:(lia)) as Hlen.
    set (D := digits (num / Z.pos den)) in *.
    set (fr := frac_digits frac_precision (num mod Z.pos den) (Z.pos den)).
    destruct (strip_trailing_zeros_spec (D ++ fr)) as [m Hm].
    assert (Hs : exists s', strip_trailing_zeros (D ++ fr) = digit_char d :: s').
    { rewrite Hdigits. apply strip_trailing_zeros_head. exact Hnz. }
    destruct Hs as [s' Hs].
    set (s := strip_trailing_zeros (D ++ fr)) in *.
    assert (HlenD : 1 <= len D) by (rewrite Hdigits; unfold len; cbn [length]; lia).
    assert (Hks : 1 <= len s) by (rewrite Hs; unfold len; cbn [length]; lia).
    unfold layout_digits.
    destruct (Z.eqb_spec (len s) 0); [lia |].
    destruct (Z.leb_spec (len s) (len D)) as [Hshort | Hlong].
    + (* no fractional digit survives *)
      destruct (Z.leb_spec (len D) 21); [| lia]. cbn [andb].
      assert (HD : s ++ replicate (Z.to_nat (len D - len s)) "0"%char = D).
      { assert (Htake : take (length D) (D ++ fr) = D) by apply take_app_length.
        rewrite Hm in Htake. rewrite take_app in Htake.
        rewrite take_ge in Htake by (unfold len in *; lia).
        rewrite take_replicate in Htake.
        rewrite <- Htake at 2. f_equal. f_equal.
        assert (length D <= length (s ++ replicate m "0"%char))%nat
          by (rewrite <- Hm, length_app; lia).
        rewrite length_app, length_replicate in *. unfold len in *. lia. }
      rewrite HD. rewrite <- (app_nil_r D).
      now apply parseInt_string_digits.
    + (* the decimal point follows the integer digits *)
      destruct (Z.ltb_spec 0 (len D)); [| lia].
      destruct (Z.leb_spec (len D) 21); [| lia]. cbn [andb].
      assert (HD : take (Z.to_nat (len D)) s = D).
      { assert (Htake : take (length D) (D ++ fr) = D) by apply take_app_length.
        rewrite Hm in Htake. rewrite take_app_le in Htake by (unfold len in *; lia).
        unfold len. now rewrite Nat2Z.id. }
      rewrite HD. now apply parseInt_string_digits.
Qed.

(** [parseInt(x)] is [floor(x)] for a number from 0.5 up to, not
    including, 1e21. *)
Lemma parseInt_number_floor (v : Q) :
  (1 # 2 <= v)%Q -> (v < inject_Z (10 ^ 21))%Q ->
  parseInt_number (Num v) = double (num_of_Z (Qfloor v)).
Proof.
  intros Hhalf Hrange.
  assert (Hpos : (Qnum v ?= 0) = Gt).
  { apply Z.compare_gt_iff.
    assert (H0 : (0 < v)%Q) by (eapply Qlt_le_trans; [| exact Hhalf]; reflexivity).
    unfold Qlt in H0. cbn [Qnum Qden] in H0. lia. }
  unfold parseInt_number, String_of_number. rewrite Hpos.
  now apply parseInt_string_of_positive.
Qed.

(** Below 1e21 cents [CurrencyFormatted] gives the sign, then the
    decimal form of the whole cents divided by 100, with a trailing
    ".00" removed. *)
Lemma CurrencyFormatted_whole_cents (q : Q) :
  (1 # 2 <= cents64 q)%Q -> (cents64 q < inject_Z (10 ^ 21))%Q ->
  CurrencyFormatted (Num q) None
  = (if Qlt_le_dec (round64 q) 0 then str "-" else [])
    ++ strip_dot00 (String_of_number (Num (inject_Z (Qfloor (cents64 q)) / 100))).
Proof.
  intros Hhalf Hrange.
  unfold CurrencyFormatted, parseFloat, double.
  change (negb (jsstring_eqb (str "BDT") (str "BDT"))) with false.
  cbn [isNaN Math_abs num_add num_mul num_of_Z].
  change (inject_Z 100) with 100%Q. fold (cents64 q).
  rewrite parseInt_number_floor by assumption.
  unfold double, num_of_Z.
  assert (Hwhole : round64 (inject_Z (Qfloor (cents64 q)))
                   = inject_Z (Qfloor (cents64 q))).
  { unfold cents64. apply round64_whole, round64_floor. }
  rewrite Hwhole.
  unfold num_lt, num_of_Z. change (inject_Z 0) with 0%Q.
  destruct (Qlt_le_dec (round64 q) 0); reflexivity.
Qed.

(** ** Amount formatting *)

(** The loop of [CommaFormatted] ends by its own test: [length n]
    iterations are enough, since each removes three characters. *)
Lemma comma_loop_exits (fuel : nat) :
  forall (n : jsstring) (a : list jsstring),
    (length n <= fuel)%nat -> len (fst (comma_loop fuel n a)) <= 3.
Proof.
  induction fuel as [| fuel IH]; intros n a Hfuel.
  - destruct n; [cbn; unfold len; simpl; lia | simpl in Hfuel; lia].
  - cbn [comma_loop].
    destruct (Z.gtb_spec (len n) 3) as [Hlong | Hshort]; [| simpl; lia].
    apply IH. unfold substr.
    destruct (Z.ltb_spec 0 0); [lia |].
    rewrite length_take, length_drop. unfold len in *. lia.
Qed.

(** For a currency other than BDT the amount is first rounded to the
    nearest integer. *)
Lemma CurrencyFormatted_other_currency (amount : number) (currency : jsstring) :
  jsstring_eqb currency (str "BDT") = false ->
  double (Math_round (double amount)) = Math_round (double amount) ->
  CurrencyFormatted amount (Some currency)
  = CurrencyFormatted (Math_round (double amount)) None.
Proof.
  intros Hc Hwhole. unfold CurrencyFormatted, parseFloat. rewrite Hc, Hwhole.
  change (negb (jsstring_eqb (str "BDT") (str "BDT"))) with false.
  reflexivity.
Qed.

(** The examples of the specification for [groupThousands], and a
    negative amount with thousands. *)
Lemma CommaFormatted_examples :
  CommaFormatted (str "1234567") = str "1,234,567" /\
  CommaFormatted (str "1234567.00") = str "1,234,567" /\
  CommaFormatted (str "abc") = [] /\
  CommaFormatted (str "-1234567.5") = str "-1,234,567.5".
Proof. repeat split; vm_compute; reflexivity. Qed.

(** C6 at the input where the code departs from it.  [parseInt("-0")]
    is zero, which is not below zero, so the minus sign of an amount
    between -1 and 0 is lost: [CommaFormatted("-0.5")] is "0.5", and the
    amount [-0.5] is printed as "0.5" on the receipt. *)
Theorem CommaFormatted_loses_minus_sign :
  CommaFormatted (str "-0.5") = str "0.5" /\
  CurrencyFormatted (Num (-5 # 10)) None = str "-0.5" /\
  money (Num (-5 # 10)) = str "0.5".
Proof. repeat split; vm_compute; reflexivity. Qed.

(** The examples of the specification for [formatCurrency], a
    non-numeric amount, and a currency other than BDT. *)
Lemma CurrencyFormatted_examples :
  CurrencyFormatted (Num (10004 # 1000)) None = str "10" /\
  CurrencyFormatted (Num (105 # 10)) None = str "10.5" /\
  CurrencyFormatted (Num (-31 # 10)) None = str "-3.1" /\
  CurrencyFormatted NaN None = str "0" /\
  CurrencyFormatted (Num (1049 # 100)) (Some (str "USD")) = str "10" /\
  CurrencyFormatted (Num (12345 # 1000)) None = str "12.35".
Proof. repeat split; vm_compute; reflexivity. Qed.

(** Amounts at which binary64 shows: the cents of 1.005 are
    100.99999999999997, so the amount is printed as "1", where exact
    arithmetic would round the half cent up to 1.01. *)
Lemma CurrencyFormatted_binary64_examples :
  CurrencyFormatted (Num (1005 # 1000)) None = str "1" /\
  Qfloor (((1005 # 1000) + (5 # 1000)) * 100) = 101 /\
  CurrencyFormatted (Num (1255 # 1000)) None = str "1.25" /\
  CurrencyFormatted (Num (145 # 1000)) None = str "0.15" /\
  CurrencyFormatted (Num (8345 # 1000)) None = str "8.35".
Proof. repeat split; vm_compute; reflexivity. Qed.

(** The cents of the amount 1e19 on primitive binary64 numbers are exactly
    1e21: the 0.005 is absorbed by the addition. *)
Module Binary64Facts.
Import PrimFloat.

Lemma binary64_cents_of_1e19 :
  PrimFloat.eqb (Binary64.cents 1e19%float) 1e21%float = true.
Proof. vm_compute. reflexivity. Qed.

(** [round64] gives the primitive binary64 number of a decimal literal,
    also past 53 bits, at a tie, and among the subnormal numbers. *)
Lemma round64_literals :
  Binary64.is_rational 0.1%float (round64 (1 # 10)) = true /\
  Binary64.is_rational 5.9%float (round64 (59 # 10)) = true /\
  Binary64.is_rational 0.005%float (round64 (5 # 1000)) = true /\
  Binary64.is_rational 61.9322033898305%float
    (round64 (619322033898305 # 10000000000000)) = true /\
  Binary64.is_rational 9007199254740993%float (round64 9007199254740993) = true /\
  Binary64.is_rational 9007199254740995%float (round64 9007199254740995) = true /\
  Binary64.is_rational 2.5e-324%float
    (round64 (25 # (10 ^ 325))) = true /\
  Binary64.is_rational 1.7976931348623157e308%float
    (round64 (inject_Z (17976931348623157 * 10 ^ 292))) = true.
Proof. repeat split; vm_compute; reflexivity. Qed.

(** The cents of [CurrencyFormatted] as the model computes them are the
    cents on primitive binary64 numbers. *)
Lemma cents64_agrees :
  Binary64.is_rational (Binary64.cents 1.005%float) (cents64 (1005 # 1000)) = true /\
  Binary64.is_rational (Binary64.cents 0.145%float) (cents64 (145 # 1000)) = true /\
  Binary64.is_rational (Binary64.cents 1.255%float) (cents64 (1255 # 1000)) = true /\
  Binary64.is_rational (Binary64.cents 8.345%float) (cents64 (8345 # 1000)) = true /\
  Binary64.is_rational (Binary64.cents 10.004%float) (cents64 (10004 # 1000)) = true /\
  Binary64.is_rational (Binary64.cents 12.345%float) (cents64 (12345 # 1000)) = true /\
  Binary64.is_rational (Binary64.cents 1e19%float) (cents64 (inject_Z (10 ^ 19))) = true.
Proof. repeat split; vm_compute; reflexivity. Qed.

(** The formula and the distances of [getOptimalCharacterWidth] as the
    model computes them are those on primitive binary64 numbers. *)
Lemma width_formula_agrees :
  Binary64.is_rational (Binary64.width_formula 61.9322033898305%float)
    (width_formula (round64 (619322033898305 # 10000000000000))) = true /\
  Binary64.is_rational (Binary64.width_formula 100%float)
    (width_formula (round64 100)) = true /\
  Binary64.is_rational (Binary64.width_formula 72.5%float)
    (width_formula (round64 (725 # 10))) = true /\
  Binary64.is_rational (Binary64.distance 80 79.95%float)
    (distance64 80 (round64 (7995 # 100))) = true /\
  Binary64.is_rational (Binary64.distance 58 61.9322033898305%float)
    (distance64 58 (round64 (619322033898305 # 10000000000000))) = true.
Proof. repeat split; vm_compute; reflexivity. Qed.

End Binary64Facts.

(** C5 at the input where the code departs from it.  [parseInt] reads
    the string form of its argument, and from 1e21 on that form is in
    exponent notation: for the amount 1e19 the cents are 1e21,
    [parseInt] reads the leading "1", and the result is "0.01". *)
Theorem CurrencyFormatted_large_amount :
  String_of_number (num_of_Z (10 ^ 21)) = str "1e+21" /\
  parseInt_number (num_of_Z (10 ^ 21)) = num_of_Z 1 /\
  CurrencyFormatted (num_of_Z (10 ^ 19)) None = str "0.01".
Proof. repeat split; vm_compute; reflexivity. Qed.

(** * Further properties of the code *)

(** ** Dates and times *)

(** *** The digits of a whole number *)


Lemma digits_go_fuel (f1 : nat) :
  forall f2 n, (1 <= f1)%nat -> (1 <= f2)%nat ->
    0 <= n < 10 ^ Z.of_nat f1 -> n < 10 ^ Z.of_nat f2 ->
    digits_go f1 n [] = digits_go f2 n [].
Proof.
  induction f1 as [| f1 IH]; intros f2 n H1 H2 Hn1 Hn2; [lia |].
  destruct f2 as [| f2]; [lia |].
  cbn [digits_go]. destruct (Z.eqb_spec (n / 10) 0) as [_ | Hbig]; [reflexivity |].
  assert (H10 : 10 <= n).
  { destruct (Z.lt_ge_cases n 10) as [Hlt | ?]; [| assumption].
    exfalso. apply Hbig. apply Z.div_small. lia. }
  assert (Hdiv : forall f, n < 10 ^ Z.of_nat (S f) ->
                           (1 <= f)%nat /\ n / 10 < 10 ^ Z.of_nat f).
  { intros f Hf. split.
    - destruct f; [| lia]. change (10 ^ Z.of_nat 1) with 10 in Hf. lia.
    - apply Z.div_lt_upper_bound; [lia |].
      replace (Z.of_nat (S f)) with (Z.succ (Z.of_nat f)) in Hf by lia.
      rewrite Z.pow_succ_r in Hf by lia. lia. }
  destruct (Hdiv f1) as [Hf1 Hd1]; [lia |].
  destruct (Hdiv f2) as [Hf2 Hd2]; [lia |].
  rewrite digits_go_acc, (digits_go_acc f2). f_equal.
  apply IH; try assumption. split; [apply Z.div_pos; lia | assumption].
Qed.

Lemma digits_small (n : Z) : 0 <= n <= 9 -> digits n = [digit_char n].
Proof.
  intros Hn. unfold digits. cbn [digits_go].
  rewrite Z.div_small by lia. rewrite Z.mod_small by lia. reflexivity.
Qed.

Lemma digits_step (n : Z) :
  10 <= n -> digits n = digits (n / 10) ++ [digit_char (n mod 10)].
Proof.
  intros Hn. unfold digits at 1. cbn [digits_go].
  assert (Hdiv : 1 <= n / 10) by (apply Z.div_le_lower_bound; lia).
  destruct (Z.eqb_spec (n / 10) 0) as [? | _]; [lia |].
  rewrite digits_go_acc. f_equal.
  pose proof (digits_fuel n ltac:(lia)) as Hf.
  pose proof (digits_fuel (n / 10) ltac:(lia)) as Hf'.
  assert (Hlog : 1 <= Z.log2 n).
  { change 1 with (Z.log2 2). apply Z.log2_le_mono. lia. }
  unfold digits. apply digits_go_fuel; [lia | lia | | exact Hf'].
  split; [lia |].
  replace (Z.of_nat (Z.to_nat (Z.log2 n))) with (Z.log2 n) by lia.
  apply Z.div_lt_upper_bound; [lia |].
  replace (Z.of_nat (S (Z.to_nat (Z.log2 n)))) with (Z.succ (Z.log2 n)) in Hf by lia.
  rewrite Z.pow_succ_r in Hf by lia. lia.
Qed.

Lemma digits_two (n : Z) : 10 <= n <= 99 -> digits n = two_digits n.
Proof.
  intros Hn. rewrite digits_step by lia.
  rewrite digits_small; [reflexivity |].
  assert (n / 10 < 10) by (apply Z.div_lt_upper_bound; lia).
  split; [apply Z.div_pos; lia | lia].
Qed.

Lemma digits_last_two (n : Z) :
  100 <= n -> digits n = digits (n / 100) ++ two_digits (n mod 100).
Proof.
  intros Hn. rewrite digits_step by lia.
  assert (10 <= n / 10) by (apply Z.div_le_lower_bound; lia).
  rewrite (digits_step (n / 10)) by lia.
  rewrite Z.div_div by lia. change (10 * 10) with 100.
  rewrite <- app_assoc. f_equal. unfold two_digits. cbn [app].
  f_equal; [| f_equal]; f_equal.
  - rewrite (Z.div_mod n 100) at 1 by lia.
    assert (n mod 100 = 10 * (n mod 100 / 10) + n mod 100 mod 10)
      by (apply Z.div_mod; lia).
    pose proof (Z.mod_pos_bound n 100). 
    pose proof (Z.mod_pos_bound (n mod 100) 10).
    assert (0 <= n mod 100 / 10 <= 9).
    { assert (n mod 100 / 10 < 10) by (apply Z.div_lt_upper_bound; lia).
      split; [apply Z.div_pos; lia | lia]. }
    replace (100 * (n / 100) + n mod 100)
      with ((n mod 100 mod 10) + (10 * (n / 100) + n mod 100 / 10) * 10) by lia.
    rewrite Z.div_add by lia. rewrite (Z.div_small (n mod 100 mod 10)) by lia.
    rewrite Z.add_0_l. 
    replace (10 * (n / 100) + n mod 100 / 10) with (n mod 100 / 10 + (n / 100) * 10) by lia.
    rewrite Z.mod_add by lia. apply Z.mod_small. lia.
  - rewrite (Z.div_mod n 100) at 1 by lia.
    replace (100 * (n / 100) + n mod 100)
      with (n mod 100 + (10 * (n / 100)) * 10) by lia.
    apply Z.mod_add. lia.
Qed.

Lemma String_of_Z_digits (n : Z) :
  0 <= n < 10 ^ 21 -> String_of_Z n = digits n.
Proof.
  intros Hn. destruct (Z.eq_dec n 0) as [-> | Hnz]; [vm_compute; reflexivity |].
  assert (Hone : 1 <= n) by lia.
  unfold String_of_Z, String_of_number, num_of_Z. cbn [inject_Z Qnum].
  assert (Hgt : (n ?= 0) = Gt) by (apply Z.compare_gt_iff; lia).
  rewrite Hgt. unfold string_of_positive, decimal_expansion, inject_Z.
  cbn [Qnum Qden].
  rewrite Z.div_1_r, Z.mod_1_r.
  change (frac_digits frac_precision 0 1) with (@nil ascii).
  destruct (Z.eqb_spec n 0) as [? | _]; [lia |].
  rewrite app_nil_r.
  destruct (digits_spec n) as (_ & _ & Hhead); [lia |].
  destruct (Hhead Hone) as (d & rest & Hd & Hdigits).
  destruct (digit_char_plain d Hd) as (_ & _ & _ & Hz).
  change (is_zero_char (digit_char d) = false) in Hz.
  pose proof (digits_length n 21 Hn ltac:(lia)) as Hlen.
  set (D := digits n) in *.
  destruct (strip_trailing_zeros_spec D) as [m Hm].
  assert (Hs : exists s', strip_trailing_zeros D = digit_char d :: s').
  { rewrite Hdigits. apply strip_trailing_zeros_head. exact Hz. }
  destruct Hs as [s' Hs].
  set (s := strip_trailing_zeros D) in *.
  assert (Hks : 1 <= len s) by (rewrite Hs; unfold len; cbn [length]; lia).
  assert (HlenD : len D = len s + Z.of_nat m).
  { rewrite Hm at 1. rewrite len_app. unfold len at 2.
    now rewrite length_replicate. }
  unfold layout_digits.
  destruct (Z.eqb_spec (len s) 0); [lia |].
  destruct (Z.leb_spec (len s) (len D)); [| lia].
  destruct (Z.leb_spec (len D) 21); [| lia]. cbn [andb].
  rewrite HlenD.
  replace (Z.to_nat (len s + Z.of_nat m - len s)) with m by lia.
  symmetry. exact Hm.
Qed.

(** *** Two-digit fields *)

Lemma padStart0_two (n : Z) :
  0 <= n <= 99 -> padStart0 (String_of_Z n) 2 = two_digits n.
Proof.
  intros Hn. rewrite String_of_Z_digits by lia.
  destruct (Z.le_gt_cases n 9).
  - rewrite digits_small by lia. unfold padStart0, two_digits.
    rewrite Z.div_small, Z.mod_small by lia. reflexivity.
  - rewrite digits_two by lia. reflexivity.
Qed.

Lemma slice_last_two (n : Z) :
  10 <= n < 10 ^ 21 ->
  slice_last (String_of_Z n) 2 = two_digits (n mod 100).
Proof.
  intros Hn. rewrite String_of_Z_digits by lia.
  destruct (Z.le_gt_cases n 99).
  - rewrite digits_two by lia. rewrite Z.mod_small by lia. reflexivity.
  - rewrite digits_last_two by lia. unfold slice_last.
    rewrite len_app. change (len (two_digits (n mod 100))) with 2.
    pose proof (len_nonneg (digits (n / 100))).
    replace (Z.max (len (digits (n / 100)) + 2 - 2) 0)
      with (len (digits (n / 100))) by lia.
    unfold len. rewrite Nat2Z.id. apply drop_app_length.
Qed.

Lemma digit_char_inj (a b : Z) :
  0 <= a <= 9 -> 0 <= b <= 9 -> digit_char a = digit_char b -> a = b.
Proof.
  intros Ha Hb H.
  assert (Hv : digit_val 10 (digit_char a) = digit_val 10 (digit_char b))
    by now rewrite H.
  rewrite !digit_val_digit_char in Hv by assumption. congruence.
Qed.

Lemma two_digits_inj (a b : Z) :
  0 <= a <= 99 -> 0 <= b <= 99 -> two_digits a = two_digits b -> a = b.
Proof.
  intros Ha Hb H. unfold two_digits in H. injection H as H1 H0.
  assert (forall x, 0 <= x <= 99 -> 0 <= x / 10 <= 9 /\ 0 <= x mod 10 <= 9).
  { intros x Hx. pose proof (Z.mod_pos_bound x 10).
    assert (x / 10 < 10) by (apply Z.div_lt_upper_bound; lia).
    split; [split; [apply Z.div_pos; lia | lia] | lia]. }
  apply digit_char_inj in H1; [| apply H; lia ..].
  apply digit_char_inj in H0; [| apply H; lia ..].
  rewrite (Z.div_mod a 10), (Z.div_mod b 10) by lia. lia.
Qed.

Lemma digits_inj (a b : Z) : 0 <= a -> 0 <= b -> digits a = digits b -> a = b.
Proof.
  intros Ha Hb H.
  destruct (digits_spec a Ha) as (_ & Hpa & _).
  destruct (digits_spec b Hb) as (_ & Hpb & _).
  rewrite H in Hpa. congruence.
Qed.

(** *** Dates and times of day *)

(** X1.  A calendar date is printed as DD/MM/YY, eight characters, with the
    last two digits of the year only: two dates are printed alike
    exactly when they agree on the day, on the month and on the year
    modulo 100. *)
Theorem formatDate_two_digit_year (d : datetime) :
  calendar_date d ->
  formatDate (Some d)
    = two_digits (getDate d) ++ str "/" ++ two_digits (getMonth d + 1)
      ++ str "/" ++ two_digits (getFullYear d mod 100) /\
  len (formatDate (Some d)) = 8 /\
  forall d', calendar_date d' ->
    (formatDate (Some d') = formatDate (Some d) <->
     getDate d' = getDate d /\ getMonth d' = getMonth d /\
     getFullYear d' mod 100 = getFullYear d mod 100).
Proof.
  assert (Hshape : forall x, calendar_date x ->
    formatDate (Some x)
    = two_digits (getDate x) ++ str "/" ++ two_digits (getMonth x + 1)
      ++ str "/" ++ two_digits (getFullYear x mod 100)).
  { intros x (Hday & Hmonth & Hyear). unfold formatDate.
    rewrite !padStart0_two by lia. now rewrite slice_last_two by lia. }
  intros Hd. split; [now apply Hshape |]. split.
  - rewrite Hshape by assumption. reflexivity.
  - intros d' Hd'. rewrite !Hshape by assumption.
    destruct Hd as (Hday & Hmonth & Hyear), Hd' as (Hday' & Hmonth' & Hyear').
    pose proof (Z.mod_pos_bound (getFullYear d) 100 ltac:(lia)).
    pose proof (Z.mod_pos_bound (getFullYear d') 100 ltac:(lia)).
    split.
    + intros Heq. unfold two_digits at 1 4 in Heq. cbn [app str] in Heq.
      injection Heq as Hd1 Hd0 Hm1 Hm0 Hy1 Hy0.
      assert (Hdd : two_digits (getDate d') = two_digits (getDate d))
        by (unfold two_digits; congruence).
      assert (Hmm : two_digits (getMonth d' + 1) = two_digits (getMonth d + 1))
        by (unfold two_digits; congruence).
      assert (Hyy : two_digits (getFullYear d' mod 100)
                    = two_digits (getFullYear d mod 100))
        by (unfold two_digits; congruence).
      apply two_digits_inj in Hdd; [| lia ..].
      apply two_digits_inj in Hmm; [| lia ..].
      apply two_digits_inj in Hyy; [| lia ..].
      lia.
    + intros (-> & -> & ->). reflexivity.
Qed.

Lemma formatDate_two_digit_year_witness :
  formatDate (Some {| getDate := 21; getMonth := 7; getFullYear := 1925;
                      getHours := 5; getMinutes := 57 |})
  = formatDate (Some {| getDate := 21; getMonth := 7; getFullYear := 2025;
                        getHours := 13; getMinutes := 30 |}).
Proof.
  apply (formatDate_two_digit_year
           {| getDate := 21; getMonth := 7; getFullYear := 2025;
              getHours := 13; getMinutes := 30 |}).
  - unfold calendar_date. simpl. lia.
  - unfold calendar_date. simpl. lia.
  - simpl. repeat split; reflexivity.
Defined.

(** X2.  A time of day is printed on the 12-hour clock: the hour from 1 to
    12 without a leading zero, the minutes with two digits, and AM
    below 12 hours, PM from 12 hours on; midnight is 12 AM and noon
    12 PM.  No two times of day are printed alike. *)
Theorem formatTime_twelve_hour (d : datetime) :
  time_of_day d ->
  formatTime (Some d)
    = digits (hour12 (getHours d)) ++ str ":" ++ two_digits (getMinutes d)
      ++ str " " ++ (if getHours d <? 12 then str "AM" else str "PM") /\
  1 <= hour12 (getHours d) <= 12 /\
  forall d', time_of_day d' ->
    formatTime (Some d') = formatTime (Some d) ->
    getHours d' = getHours d /\ getMinutes d' = getMinutes d.
Proof.
  assert (Hrange : forall h, 0 <= h <= 23 -> 1 <= hour12 h <= 12).
  { intros h Hh. unfold hour12.
    destruct (Z.eqb_spec (h mod 12) 0); [lia |].
    pose proof (Z.mod_pos_bound h 12). lia. }
  assert (Hshape : forall x, time_of_day x ->
    formatTime (Some x)
    = digits (hour12 (getHours x)) ++ str ":" ++ two_digits (getMinutes x)
      ++ str " " ++ (if getHours x <? 12 then str "AM" else str "PM")).
  { intros x (Hh & Hm). unfold formatTime.
    rewrite padStart0_two by lia.
    rewrite Z.rem_mod_nonneg by lia. fold (hour12 (getHours x)).
    pose proof (Hrange (getHours x) Hh).
    rewrite String_of_Z_digits by lia.
    rewrite Z.geb_leb, Z.leb_antisym.
    destruct (getHours x <? 12); reflexivity. }
  intros Hd. split; [now apply Hshape |]. split; [apply Hrange, Hd |].
  intros d' Hd' H. rewrite !Hshape in H by assumption.
  destruct Hd as (Hh & Hm), Hd' as (Hh' & Hm').
  apply app_inj_2 in H as [Hhour Htail].
  - apply digits_inj in Hhour;
      [| pose proof (Hrange (getHours d') Hh'); lia
       | pose proof (Hrange (getHours d) Hh); lia].
    change (str ":") with [":"%char] in Htail. cbn [app] in Htail.
    unfold two_digits in Htail. cbn [app] in Htail.
    injection Htail as Hm1 Hm0 Hperiod.
    assert (Hmm : two_digits (getMinutes d') = two_digits (getMinutes d))
      by (unfold two_digits; congruence).
    apply two_digits_inj in Hmm; [| lia ..].
    split; [| exact Hmm].
    unfold hour12 in Hhour.
    destruct (Z.ltb_spec (getHours d') 12), (Z.ltb_spec (getHours d) 12);
      try discriminate Hperiod;
      destruct (Z.eqb_spec (getHours d' mod 12) 0),
               (Z.eqb_spec (getHours d mod 12) 0);
      Z.div_mod_to_equations; lia.
  - destruct (getHours d' <? 12), (getHours d <? 12); reflexivity.
Qed.

Lemma formatTime_twelve_hour_witness :
  formatTime (Some {| getDate := 21; getMonth := 7; getFullYear := 2025;
                      getHours := 0; getMinutes := 5 |})
  = str "12:05 AM".
Proof.
  apply (formatTime_twelve_hour
           {| getDate := 21; getMonth := 7; getFullYear := 2025;
              getHours := 0; getMinutes := 5 |}).
  unfold time_of_day. simpl. lia.
Defined.

(** ** Padding *)

Lemma trim_start_spaces (n : nat) (s : jsstring) :
  trim_start (replicate n " "%char ++ s) = trim_start s.
Proof. induction n as [| n IH]; [reflexivity |]. exact IH. Qed.

Lemma trim_end_spaces (n : nat) (s : jsstring) :
  trim_end (s ++ replicate n " "%char) = trim_end s.
Proof.
  unfold trim_end. rewrite rev_app_distr, rev_replicate.
  now rewrite trim_start_spaces.
Qed.

Lemma trim_start_app (s t : jsstring) :
  trim_start s <> [] -> trim_start (s ++ t) = trim_start s ++ t.
Proof.
  induction s as [| c s IH]; intros H; [contradiction |].
  cbn [trim_start app] in *. destruct (is_white_space c); [now apply IH | reflexivity].
Qed.

(** X3.  [padRight] gives exactly [length] characters (none for a negative
    length): the first [length] characters of the text, then spaces.
    Trimming a padded text gives the trimmed text back when it was not
    cut. *)
Theorem padRight_spec (s : jsstring) (n : Z) :
  padRight s n = take (Z.to_nat n) s ++ repeat_space (n - len s) /\
  len (padRight s n) = Z.max 0 n /\
  (len s <= n -> trim (padRight s n) = trim s).
Proof.
  assert (Heq : padRight s n = take (Z.to_nat n) s ++ repeat_space (n - len s)).
  { unfold padRight. destruct (Z.geb_spec (len s) n) as [Hlong | Hshort].
    - rewrite substring_0. unfold repeat_space.
      replace (Z.to_nat (n - len s)) with 0%nat by lia.
      now rewrite app_nil_r.
    - rewrite take_ge by (unfold len in *; lia). reflexivity. }
  split; [exact Heq |]. split.
  - rewrite Heq, len_app, len_take. unfold repeat_space, len.
    rewrite length_replicate. lia.
  - intros Hfit. rewrite Heq. rewrite take_ge by (unfold len in *; lia).
    unfold trim, repeat_space.
    destruct (trim_start s) as [| c r] eqn:Hs.
    + assert (Hall : trim_start (s ++ replicate (Z.to_nat (n - len s)) " "%char) = []).
      { clear Heq Hfit. generalize (Z.to_nat (n - len s)). intros k.
        induction s as [| c s IH]; cbn [app trim_start] in *.
        - rewrite <- (app_nil_r (replicate k " "%char)). apply trim_start_spaces.
        - destruct (is_white_space c); [now apply IH | discriminate]. }
      now rewrite Hall.
    + rewrite trim_start_app by (rewrite Hs; discriminate).
      rewrite Hs. apply trim_end_spaces.
Qed.

(** X4.  [padLeft] gives exactly [length] characters (none for a negative
    length): spaces, then the first [length] characters of the text, so
    a text that is too long loses its end, not its beginning. *)
Theorem padLeft_spec (s : jsstring) (n : Z) :
  padLeft s n = repeat_space (n - len s) ++ take (Z.to_nat n) s /\
  len (padLeft s n) = Z.max 0 n /\
  (len s <= n -> trim (padLeft s n) = trim s).
Proof.
  assert (Heq : padLeft s n = repeat_space (n - len s) ++ take (Z.to_nat n) s).
  { unfold padLeft. destruct (Z.geb_spec (len s) n) as [Hlong | Hshort].
    - rewrite substring_0. unfold repeat_space.
      replace (Z.to_nat (n - len s)) with 0%nat by lia. reflexivity.
    - rewrite take_ge by (unfold len in *; lia). reflexivity. }
  split; [exact Heq |]. split.
  - rewrite Heq, len_app, len_take. unfold repeat_space, len.
    rewrite length_replicate. lia.
  - intros Hfit. rewrite Heq. rewrite take_ge by (unfold len in *; lia).
    unfold trim, repeat_space. now rewrite trim_start_spaces.
Qed.

Lemma padRight_spec_witness :
  padRight (str "Tea") 6 = str "Tea   " /\
  trim (padRight (str "Tea") 6) = trim (str "Tea").
Proof.
  destruct (padRight_spec (str "Tea") 6) as (Heq & _ & Htrim).
  split; [rewrite Heq; reflexivity | apply Htrim; vm_compute; discriminate].
Defined.

Lemma padLeft_spec_witness :
  padLeft (str "12.5") 3 = str "12." /\
  trim (padLeft (str "12.5") 7) = trim (str "12.5").
Proof.
  split.
  - destruct (padLeft_spec (str "12.5") 3) as (Heq & _). rewrite Heq. reflexivity.
  - destruct (padLeft_spec (str "12.5") 7) as (_ & _ & Htrim).
    apply Htrim. vm_compute. discriminate.
Defined.

(** ** Word wrap, continued *)

(** *** What the word wrap keeps *)

Lemma ink_app (s t : jsstring) : ink (s ++ t) = ink s ++ ink t.
Proof. apply List.filter_app. Qed.

Lemma ink_rev (s : jsstring) : ink (rev s) = rev (ink s).
Proof. unfold ink. now rewrite List.filter_rev. Qed.

Lemma ink_trim_start (s : jsstring) : ink (trim_start s) = ink s.
Proof.
  induction s as [| c s IH]; [reflexivity |].
  cbn [trim_start]. destruct (is_white_space c) eqn:Hc; [| reflexivity].
  rewrite IH. unfold ink. cbn [List.filter]. now rewrite Hc.
Qed.

Lemma ink_trim (s : jsstring) : ink (trim s) = ink s.
Proof.
  unfold trim, trim_end.
  now rewrite ink_rev, ink_trim_start, ink_rev, rev_involutive, ink_trim_start.
Qed.

Lemma wrap_step_ink (w : Z) (remaining : jsstring) :
  ink (wrap_line w remaining) ++ ink (wrap_rest w remaining) = ink remaining.
Proof.
  unfold wrap_line, wrap_rest. rewrite !ink_trim.
  rewrite substring_0, substring_from_drop, <- ink_app.
  now rewrite take_drop.
Qed.

Lemma wrap_loop_ink (w : Z) (fuel : nat) :
  forall remaining lines out,
    wrap_loop fuel w remaining lines = Some out ->
    ink (concat out) = ink (concat lines) ++ ink remaining /\
    (length lines <= length out)%nat.
Proof.
  induction fuel as [| fuel IH]; intros remaining lines out Hrun; [discriminate |].
  cbn [wrap_loop] in Hrun.
  destruct (Z.gtb_spec (len remaining) 0) as [Hpos | Hempty].
  - destruct (len remaining <=? w).
    + injection Hrun as <-. rewrite concat_app, ink_app, length_app.
      cbn [concat]. rewrite app_nil_r. split; [reflexivity | lia].
    + apply IH in Hrun as [Hink Hlen].
      rewrite Hink, concat_app, ink_app, length_app in *.
      cbn [concat length] in *. rewrite app_nil_r, <- app_assoc.
      rewrite wrap_step_ink. split; [reflexivity | lia].
  - injection Hrun as <-.
    assert (remaining = []) as ->.
    { destruct remaining; [reflexivity |]. unfold len in Hempty.
      cbn [length] in Hempty. lia. }
    cbn. rewrite app_nil_r. split; [reflexivity | lia].
Qed.

(** X5.  For a width of one or more [wrapText] returns at least one line,
    and the lines hold, in order, exactly the characters of the text
    that are not white space: wrapping moves and drops white space
    only. *)
Theorem wrapText_keeps_ink (text : jsstring) (w : Z) :
  1 <= w ->
  exists lines,
    wrapText text w = Some lines /\
    lines <> [] /\
    ink (concat lines) = ink text.
Proof.
  intros Hw. destruct (wrapText_returns text w Hw) as [lines Hrun].
  exists lines. split; [exact Hrun |].
  unfold wrapText in Hrun. destruct (Z.leb_spec (len text) w) as [Hfit | Hlong].
  - injection Hrun as <-. split; [discriminate |].
    cbn [concat]. now rewrite app_nil_r.
  - cbn [wrap_loop] in Hrun.
    destruct (Z.gtb_spec (len text) 0) as [_ | ?]; [| lia].
    destruct (Z.leb_spec (len text) w) as [? | _]; [lia |].
    apply wrap_loop_ink in Hrun as [Hink Hlen].
    split.
    + intros ->. cbn [app length] in Hlen. lia.
    + rewrite Hink. cbn [app concat]. rewrite app_nil_r. apply wrap_step_ink.
Qed.

Lemma wrapText_keeps_ink_witness :
  exists lines,
    wrapText (str "Green  tea, large") 8 = Some lines /\
    lines <> [] /\
    ink (concat lines) = ink (str "Green  tea, large").
Proof. apply (wrapText_keeps_ink (str "Green  tea, large") 8). lia. Defined.

(** *** Trimmed lines *)

Lemma trim_idempotent (s : jsstring) : trim (trim s) = trim s.
Proof.
  destruct (trim_shape s) as [-> | (c & t & u & d & Hhead & Hc & Hlast & Hd)];
    [reflexivity |].
  unfold trim at 1. rewrite Hhead at 1. rewrite trim_start_non_space by exact Hc.
  rewrite <- Hhead. unfold trim_end. rewrite Hlast at 1.
  rewrite rev_app_distr. cbn [rev app].
  rewrite trim_start_non_space by exact Hd.
  cbn [rev]. rewrite rev_involutive. now rewrite Hlast.
Qed.

Lemma wrap_loop_trimmed (w : Z) (fuel : nat) :
  forall remaining lines out,
    trimmed remaining -> Forall trimmed lines ->
    wrap_loop fuel w remaining lines = Some out ->
    Forall trimmed out.
Proof.
  induction fuel as [| fuel IH]; intros remaining lines out Hrem Hlines Hrun;
    [discriminate |].
  cbn [wrap_loop] in Hrun.
  destruct (len remaining >? 0); [| now injection Hrun as <-].
  destruct (len remaining <=? w).
  - injection Hrun as <-. apply Forall_app_2; [exact Hlines |].
    now repeat constructor.
  - eapply IH; [| | exact Hrun].
    + apply trim_idempotent.
    + apply Forall_app_2; [exact Hlines |].
      repeat constructor. apply trim_idempotent.
Qed.

(** X6.  A text longer than the width, for a width of one or more, is
    wrapped into lines none of which begins or ends with white space. *)
Theorem wrapText_lines_trimmed (text : jsstring) (w : Z) :
  1 <= w -> w < len text ->
  exists lines,
    wrapText text w = Some lines /\ Forall trimmed lines.
Proof.
  intros Hw Hlong. destruct (wrapText_returns text w Hw) as [lines Hrun].
  exists lines. split; [exact Hrun |].
  unfold wrapText in Hrun.
  destruct (Z.leb_spec (len text) w) as [? | _]; [lia |].
  cbn [wrap_loop] in Hrun.
  destruct (Z.gtb_spec (len text) 0) as [_ | ?]; [| lia].
  destruct (Z.leb_spec (len text) w) as [? | _]; [lia |].
  eapply wrap_loop_trimmed; [| | exact Hrun].
  - apply trim_idempotent.
  - repeat constructor. apply trim_idempotent.
Qed.

Lemma wrapText_lines_trimmed_witness :
  exists lines,
    wrapText (str "  12 Lake Road,   Dhaka  ") 10 = Some lines /\
    Forall trimmed lines.
Proof.
  apply (wrapText_lines_trimmed (str "  12 Lake Road,   Dhaka  ") 10).
  - lia.
  - vm_compute. reflexivity.
Defined.

(** *** Widths below one *)

Lemma trim_nonempty_len (s : jsstring) : trim s <> [] -> 0 < len (trim s).
Proof.
  intros H. destruct (trim s); [contradiction |].
  unfold len. cbn [length]. lia.
Qed.

Lemma breakPoint_nonpositive (w : Z) (remaining : jsstring) :
  w <= 0 -> breakPoint w remaining = w.
Proof.
  intros Hw. unfold breakPoint. rewrite substring_0.
  replace (Z.to_nat w) with 0%nat by lia. reflexivity.
Qed.

Lemma wrap_rest_nonpositive (w : Z) (remaining : jsstring) :
  w <= 0 -> wrap_rest w remaining = trim remaining.
Proof.
  intros Hw. unfold wrap_rest. rewrite breakPoint_nonpositive by exact Hw.
  rewrite substring_from_drop. now replace (Z.to_nat w) with 0%nat by lia.
Qed.

Lemma wrap_line_nonpositive (w : Z) (remaining : jsstring) :
  w <= 0 -> wrap_line w remaining = [].
Proof.
  intros Hw. unfold wrap_line. rewrite breakPoint_nonpositive by exact Hw.
  rewrite substring_0. now replace (Z.to_nat w) with 0%nat by lia.
Qed.

Lemma wrap_loop_stuck (w : Z) (fuel : nat) :
  w <= 0 ->
  forall remaining lines,
    trim remaining <> [] -> wrap_loop fuel w remaining lines = None.
Proof.
  intros Hw. induction fuel as [| fuel IH]; intros remaining lines Hink;
    [reflexivity |].
  cbn [wrap_loop].
  assert (Hpos : 0 < len remaining).
  { pose proof (trim_nonempty_len remaining Hink).
    pose proof (len_trim remaining). lia. }
  destruct (Z.gtb_spec (len remaining) 0) as [_ | ?]; [| lia].
  destruct (Z.leb_spec (len remaining) w) as [? | _]; [lia |].
  apply IH. rewrite wrap_rest_nonpositive by exact Hw.
  now rewrite trim_idempotent.
Qed.

(** X7.  With a width below one, the loop of [wrapText] never ends on a text
    that holds anything but white space: however many iterations are
    allowed, they run out.  A text of white space only is wrapped into
    one empty line. *)
Theorem wrapText_width_below_one (text : jsstring) (w : Z) :
  w <= 0 -> text <> [] ->
  (trim text <> [] ->
     wrapText text w = None /\
     forall fuel lines, wrap_loop fuel w text lines = None) /\
  (trim text = [] -> wrapText text w = Some [[]]).
Proof.
  intros Hw Htext.
  assert (Hlen : 0 < len text).
  { destruct text; [contradiction |]. unfold len. cbn [length]. lia. }
  split.
  - intros Hink. split; [| intros fuel lines; now apply wrap_loop_stuck].
    unfold wrapText. destruct (Z.leb_spec (len text) w) as [? | _]; [lia |].
    now apply wrap_loop_stuck.
  - intros Hblank. unfold wrapText.
    destruct (Z.leb_spec (len text) w) as [? | _]; [lia |].
    cbn [wrap_loop].
    destruct (Z.gtb_spec (len text) 0) as [_ | ?]; [| lia].
    destruct (Z.leb_spec (len text) w) as [? | _]; [lia |].
    rewrite wrap_rest_nonpositive, wrap_line_nonpositive, Hblank by exact Hw.
    destruct text; [contradiction | reflexivity].
Qed.

Lemma wrapText_width_below_one_witness :
  wrapText (str "Tea") 0 = None /\ wrapText (str "   ") (-2) = Some [[]].
Proof.
  split.
  - apply (wrapText_width_below_one (str "Tea") 0); [lia | discriminate |].
    vm_compute. discriminate.
  - apply (wrapText_width_below_one (str "   ") (-2)); [lia | discriminate |].
    reflexivity.
Defined.

(** ** The receipt as a whole *)

Lemma emits_ret (P : command -> Prop) {A : Type} (a : A) :
  emits P (mret a : printing A).
Proof. intros a' out [= _ <-]. constructor. Qed.

Lemma emits_emit (P : command -> Prop) (c : command) : P c -> emits P (emit c).
Proof. intros Hc a out [= _ <-]. now repeat constructor. Qed.

Lemma emits_bind (P : command -> Prop) {A B : Type}
    (m : printing A) (k : A -> printing B) :
  emits P m -> (forall a, emits P (k a)) -> emits P (m ≫= k).
Proof.
  intros Hm Hk b out Hrun.
  apply bind_inv in Hrun as (a & out1 & out2 & H1 & H2 & ->).
  apply Forall_app_2; [exact (Hm _ _ H1) | exact (Hk _ _ _ H2)].
Qed.

Lemma emits_when (P : command -> Prop) (b : bool) (m : printing unit) :
  emits P m -> emits P (when b m).
Proof. intros Hm. destruct b; [exact Hm | apply emits_ret]. Qed.

Lemma emits_forEach_from (P : command -> Prop) {A : Type} (l : list A)
    (f : A -> Z -> printing unit) :
  (forall x i, emits P (f x i)) -> forall i, emits P (forEach_from i l f).
Proof.
  intros Hf. induction l as [| x l IH]; intros i; cbn [forEach_from].
  - apply emits_ret.
  - apply emits_bind; [apply Hf | intros _; apply IH].
Qed.

Lemma emits_forEach (P : command -> Prop) {A : Type} (l : list A)
    (f : A -> printing unit) :
  (forall x, emits P (f x)) -> emits P (forEach l f).
Proof. intros Hf. apply emits_forEach_from. intros x _. apply Hf. Qed.

Lemma emits_call_wrapText (P : command -> Prop) (text : jsstring) (w : Z) :
  emits P (call_wrapText text w).
Proof.
  unfold call_wrapText. destruct (wrapText text w); [apply emits_ret |].
  intros a out [=].
Qed.

Lemma emits_loc_field_strict (P : command -> Prop) (data : receipt)
    (f : location -> option jsstring) :
  emits P (loc_field_strict data f).
Proof.
  unfold loc_field_strict. destruct (data_location data); [apply emits_ret |].
  intros a out [=].
Qed.

Lemma emits_toString_strict (P : command -> Prop) (x : option number) :
  emits P (toString_strict x).
Proof.
  unfold toString_strict. destruct x; [apply emits_ret |].
  intros a out [=].
Qed.

Lemma returns_ret {A : Type} (a : A) : returns (mret a : printing A).
Proof. now exists a, []. Qed.

Lemma returns_emit (c : command) : returns (emit c).
Proof. now exists tt, [c]. Qed.

Lemma returns_bind {A B : Type} (m : printing A) (k : A -> printing B) :
  returns m -> (forall a, returns (k a)) -> returns (m ≫= k).
Proof.
  intros (a & out1 & Hm) Hk. destruct (Hk a) as (b & out2 & Hka).
  exists b, (out1 ++ out2). now apply (bind_ok _ _ a).
Qed.

Lemma returns_when (b : bool) (m : printing unit) : returns m -> returns (when b m).
Proof. intros Hm. destruct b; [exact Hm | apply returns_ret]. Qed.

Lemma returns_forEach_from {A : Type} (l : list A) (f : A -> Z -> printing unit) :
  (forall x i, returns (f x i)) -> forall i, returns (forEach_from i l f).
Proof.
  intros Hf. induction l as [| x l IH]; intros i; cbn [forEach_from].
  - apply returns_ret.
  - apply returns_bind; [apply Hf | intros _; apply IH].
Qed.

Lemma returns_forEach {A : Type} (l : list A) (f : A -> printing unit) :
  (forall x, returns (f x)) -> returns (forEach l f).
Proof. intros Hf. apply returns_forEach_from. intros x _. apply Hf. Qed.

Lemma returns_call_wrapText (text : jsstring) (w : Z) :
  1 <= w -> returns (call_wrapText text w).
Proof.
  intros Hw. unfold call_wrapText.
  destruct (wrapText_returns text w Hw) as [lines ->]. apply returns_ret.
Qed.

Create HintDb receipt.
#[local] Hint Resolve emits_ret emits_when emits_forEach emits_forEach_from
  emits_call_wrapText emits_loc_field_strict emits_toString_strict
  returns_ret returns_emit returns_when returns_forEach returns_forEach_from
  : receipt.
#[local] Hint Extern 2 (emits _ (_ ≫= _)) => apply emits_bind; [| intros] : receipt.
#[local] Hint Extern 2 (returns (_ ≫= _)) => apply returns_bind; [| intros] : receipt.
#[local] Hint Extern 3 (emits _ (match ?x with _ => _ end)) => destruct x : receipt.
#[local] Hint Extern 3 (returns (match ?x with _ => _ end)) => destruct x : receipt.

Ltac receipt := auto 40 with receipt.

Lemma printInvoiceInfo_returns (w : Z) (data : receipt) :
  returns (printInvoiceInfo w data).
Proof. unfold printInvoiceInfo. receipt. Qed.

Lemma printCustomer_returns (data : receipt) : returns (printCustomer data).
Proof. unfold printCustomer. receipt. Qed.

Lemma throws_after {A B : Type} (m : printing A) (k : A -> printing B) :
  returns m -> (forall a, k a = TypeError) -> m ≫= k = TypeError.
Proof.
  intros (a & out & ->) Hk. unfold mbind, printing_bind. now rewrite Hk.
Qed.

Lemma printItem_outcome (w : Z) (x : item) (i : Z) :
  2 <= w ->
  if lacks_quantity x then printItem w x i = TypeError
  else returns (printItem w x i).
Proof.
  intros Hw. unfold lacks_quantity, printItem.
  assert (Hcol : 1 <= w * 54 / 100) by (apply Z.div_le_lower_bound; lia).
  pose proof (fun text => returns_call_wrapText text (w * 54 / 100) Hcol) as Hwrap.
  destruct (quantity x) as [q |]; cbn [toString_strict].
  - receipt.
  - apply throws_after; [apply Hwrap | reflexivity].
Qed.

Lemma printItems_outcome (w : Z) (data : receipt) :
  2 <= w ->
  if item_without_quantity data then printItems w data = TypeError
  else returns (printItems w data).
Proof.
  intros Hw. unfold item_without_quantity, printItems.
  assert (Hrows : forall l i,
    if existsb lacks_quantity l
    then forEach_from i l (printItem w) = TypeError
    else returns (forEach_from i l (printItem w))).
  { induction l as [| x l IH]; intros i; cbn [existsb forEach_from].
    - apply returns_ret.
    - pose proof (printItem_outcome w x i Hw) as Hx. specialize (IH (i + 1)).
      destruct (lacks_quantity x); cbn [orb].
      + now rewrite Hx.
      + destruct (existsb lacks_quantity l).
        * apply throws_after; [exact Hx | intros _; exact IH].
        * apply returns_bind; [exact Hx | intros _; exact IH]. }
  specialize (Hrows (items data) 0).
  destruct (existsb lacks_quantity (items data)).
  - do 3 (apply throws_after; [apply returns_emit | intros _]). exact Hrows.
  - do 3 (apply returns_bind; [apply returns_emit | intros _]). exact Hrows.
Qed.

Lemma printSummary_returns (w : Z) (t : totals) : returns (printSummary w t).
Proof. unfold printSummary. receipt. Qed.

Lemma printPayments_returns (w : Z) (t : totals) : returns (printPayments w t).
Proof. rewrite printPayments_section. now eexists _, _. Qed.

Lemma printFooter_returns : returns printFooter.
Proof. now exists tt, footer_commands. Qed.

Lemma printHeader_outcome (w : Z) (data : receipt) :
  1 <= w ->
  if bin_and_vat_without_location data
  then printHeader w data = TypeError
  else returns (printHeader w data).
Proof.
  intros Hw. unfold bin_and_vat_without_location, printHeader.
  pose proof (fun text => returns_call_wrapText text w Hw).
  destruct (data_location data) as [l |] eqn:Hloc.
  - unfold loc_field_strict. rewrite Hloc. receipt.
  - unfold loc_field, loc_field_strict. rewrite Hloc.
    change (or_else None (binNumber data)) with (binNumber data).
    change (or_else None (vatFormNumber data)) with (vatFormNumber data).
    destruct (truthy (binNumber data)); cbn [andb when]; [| receipt].
    destruct (truthy (vatFormNumber data)); cbn [when]; [reflexivity | receipt].
Qed.

Lemma buildThermalReceipt_ends (w : Z) (data : receipt) (t : totals) :
  2 <= w ->
  if bin_and_vat_without_location data || item_without_quantity data
  then buildThermalReceipt w data t = TypeError
  else exists out, buildThermalReceipt w data t = Ok (tt, out).
Proof.
  intros Hw. pose proof (printHeader_outcome w data ltac:(lia)) as Hheader.
  pose proof (printItems_outcome w data Hw) as Hitems.
  unfold buildThermalReceipt.
  destruct (bin_and_vat_without_location data); cbn [orb].
  - rewrite Hheader. reflexivity.
  - destruct (item_without_quantity data).
    + assert (Hrun :
        (printHeader w data ;; printInvoiceInfo w data ;; printCustomer data ;;
         printItems w data ;; printSummary w t ;; printPayments w t ;;
         printNotes data ;; printFooter) = TypeError).
      { apply throws_after; [exact Hheader | intros _].
        apply throws_after; [apply printInvoiceInfo_returns | intros _].
        apply throws_after; [apply printCustomer_returns | intros _].
        now rewrite Hitems. }
      exact Hrun.
    + assert (Hrun : returns
        (printHeader w data ;; printInvoiceInfo w data ;; printCustomer data ;;
         printItems w data ;; printSummary w t ;; printPayments w t ;;
         printNotes data ;; printFooter)).
      { apply returns_bind; [exact Hheader | intros _].
        apply returns_bind; [apply printInvoiceInfo_returns | intros _].
        apply returns_bind; [apply printCustomer_returns | intros _].
        apply returns_bind; [exact Hitems | intros _].
        apply returns_bind; [apply printSummary_returns | intros _].
        apply returns_bind; [apply printPayments_returns | intros _].
        apply returns_bind; [| intros _; apply printFooter_returns].
        destruct (printNotes_returns data) as [out Hout]. now exists tt, out. }
      destruct Hrun as ([] & out & Hrun). now exists out.
Qed.

(** X8.  For a line of two characters or more, [buildThermalReceipt] throws
    exactly when the receipt carries a BIN and a VAT form number but no
    [location], or has an item without a quantity, and otherwise
    returns: it never fails to end. *)
Theorem buildThermalReceipt_outcome (w : Z) (data : receipt) (t : totals) :
  2 <= w ->
  (buildThermalReceipt w data t = TypeError <->
   bin_and_vat_without_location data = true \/
   item_without_quantity data = true) /\
  (bin_and_vat_without_location data = false /\
   item_without_quantity data = false <->
   exists out, buildThermalReceipt w data t = Ok (tt, out)) /\
  buildThermalReceipt w data t <> Diverges.
Proof.
  intros Hw. pose proof (buildThermalReceipt_ends w data t Hw) as H.
  destruct (bin_and_vat_without_location data), (item_without_quantity data);
    cbn [orb] in H.
  1-3: rewrite H; split; [tauto |]; split; [| discriminate];
    split; [intros [? ?]; discriminate | intros [out Hout]; discriminate].
  destruct H as [out ->]. split.
  - split; [discriminate | intros [? | ?]; discriminate].
  - split; [| discriminate]. split; [eauto | tauto].
Qed.

Lemma buildThermalReceipt_outcome_witness :
  buildThermalReceipt 48 receipt_without_location
    (make_totals (Some (num_of_Z 0)) (num_of_Z 0) [] (num_of_Z 0) [] NaN NaN)
  = TypeError.
Proof.
  apply (buildThermalReceipt_outcome 48 receipt_without_location);
    [lia | left; reflexivity].
Defined.

(** *** The paper is cut once *)

#[local] Hint Extern 1 (emits _ (emit _)) =>
  apply emits_emit; cbn; try discriminate : receipt.

Lemma printHeader_first (w : Z) (data : receipt) (out : list command) :
  printHeader w data = Ok (tt, out) -> head out = Some (Bold true).
Proof.
  unfold printHeader. intros Hrun.
  apply bind_inv in Hrun as ([] & out1 & out2 & [= <-] & _ & ->). reflexivity.
Qed.

(** X9.  A receipt that is built begins by switching emphasis on and ends
    with the footer, whose last command cuts the paper; nothing before
    the footer cuts it. *)
Theorem receipt_cut_once (w : Z) (data : receipt) (t : totals)
    (out : list command) :
  buildThermalReceipt w data t = Ok (tt, out) ->
  head out = Some (Bold true) /\
  last out = Some Cut /\
  exists body,
    out = body ++ footer_commands /\
    Forall (fun c => c <> Cut) body /\
    Forall (fun c => c <> Cut) (removelast footer_commands).
Proof.
  intros Hrun. unfold buildThermalReceipt in Hrun.
  apply bind_inv in Hrun as ([] & o1 & r1 & H1 & Hrun & ->).
  apply bind_inv in Hrun as ([] & o2 & r2 & H2 & Hrun & ->).
  apply bind_inv in Hrun as ([] & o3 & r3 & H3 & Hrun & ->).
  apply bind_inv in Hrun as ([] & o4 & r4 & H4 & Hrun & ->).
  apply bind_inv in Hrun as ([] & o5 & r5 & H5 & Hrun & ->).
  apply bind_inv in Hrun as ([] & o6 & r6 & H6 & Hrun & ->).
  apply bind_inv in Hrun as ([] & o7 & r7 & H7 & Hrun & ->).
  injection Hrun as <-.
  assert (Hhead : head o1 = Some (Bold true)) by now apply (printHeader_first w data).
  split; [| split].
  - destruct o1; [discriminate | exact Hhead].
  - rewrite !app_assoc, last_app. reflexivity.
  - exists (o1 ++ o2 ++ o3 ++ o4 ++ o5 ++ o6 ++ o7).
    split; [now rewrite <- !app_assoc |].
    split; [| repeat constructor; discriminate].
    repeat apply Forall_app_2.
    + assert (He : emits (fun c => c <> Cut) (printHeader w data))
        by (unfold printHeader; receipt).
      exact (He _ _ H1).
    + assert (He : emits (fun c => c <> Cut) (printInvoiceInfo w data))
        by (unfold printInvoiceInfo; receipt).
      exact (He _ _ H2).
    + assert (He : emits (fun c => c <> Cut) (printCustomer data))
        by (unfold printCustomer; receipt).
      exact (He _ _ H3).
    + assert (He : emits (fun c => c <> Cut) (printItems w data))
        by (unfold printItems, printItem; receipt).
      exact (He _ _ H4).
    + assert (He : emits (fun c => c <> Cut) (printSummary w t))
        by (unfold printSummary; receipt).
      exact (He _ _ H5).
    + assert (He : emits (fun c => c <> Cut) (printPayments w t))
        by (unfold printPayments; receipt).
      exact (He _ _ H6).
    + assert (He : emits (fun c => c <> Cut) (printNotes data))
        by (unfold printNotes; receipt).
      exact (He _ _ H7).
Qed.

Lemma receipt_cut_once_witness :
  exists out,
    buildThermalReceipt 32 sample_receipt
      (make_totals (Some (num_of_Z 2)) (num_of_Z 25) [] (num_of_Z 25)
         [sample_payment] (num_of_Z 20) (num_of_Z 5))
    = Ok (tt, out) /\
    head out = Some (Bold true) /\ last out = Some Cut.
Proof.
  destruct (buildThermalReceipt 32 sample_receipt
              (make_totals (Some (num_of_Z 2)) (num_of_Z 25) [] (num_of_Z 25)
                 [sample_payment] (num_of_Z 20) (num_of_Z 5)))
    as [[[] out] | |] eqn:Hrun.
  - exists out. split; [reflexivity |].
    destruct (receipt_cut_once _ _ _ _ Hrun) as (Hhead & Hlast & _).
    now split.
  - vm_compute in Hrun. discriminate.
  - vm_compute in Hrun. discriminate.
Defined.

(** *** The items table *)

Lemma emits_bind_run (P : command -> Prop) {A B : Type}
    (m : printing A) (k : A -> printing B) :
  emits P m -> (forall a out, m = Ok (a, out) -> emits P (k a)) ->
  emits P (m ≫= k).
Proof.
  intros Hm Hk b out Hrun.
  apply bind_inv in Hrun as (a & out1 & out2 & H1 & H2 & ->).
  apply Forall_app_2; [exact (Hm _ _ H1) | exact (Hk _ _ H1 _ _ H2)].
Qed.

Lemma emits_forEach_members (P : command -> Prop) {A : Type} (l : list A)
    (f : A -> printing unit) :
  Forall (fun x => emits P (f x)) l -> emits P (forEach l f).
Proof.
  intros Hl. unfold forEach. generalize 0.
  induction Hl as [| x l Hx _ IH]; intros i; cbn [forEach_from].
  - apply emits_ret.
  - apply emits_bind; [exact Hx | intros _; apply IH].
Qed.

Lemma wrapText_lines_short (text : jsstring) (w : Z) (lines : list jsstring) :
  0 <= w -> wrapText text w = Some lines ->
  lines <> [] /\ Forall (fun line => len line <= w) lines.
Proof.
  intros Hw Hrun. unfold wrapText in Hrun.
  destruct (Z.leb_spec (len text) w) as [Hfit | Hlong].
  - injection Hrun as <-. split; [discriminate | now repeat constructor].
  - split.
    + cbn [wrap_loop] in Hrun.
      destruct (Z.gtb_spec (len text) 0) as [_ | ?]; [| lia].
      destruct (Z.leb_spec (len text) w) as [? | _]; [lia |].
      apply wrap_loop_ink in Hrun as [_ Hlen].
      intros ->. cbn [app length] in Hlen. lia.
    + eapply wrap_loop_lines_short; [exact Hw | | exact Hrun]. constructor.
Qed.

(** X10.  On a line of eight characters or more the items table is printed
    whenever every item has a quantity, and an item without one makes
    the builder throw.  The table is made of separators and rows of
    four cells: the widths of a row add up to the whole line, no cell
    is left without a text, and the text of the item cell, heading or
    wrapped name, is never longer than the item column, 54 % of the
    line. *)
Theorem items_table_rows (w : Z) (data : receipt) :
  8 <= w ->
  (item_without_quantity data = true -> printItems w data = TypeError) /\
  (item_without_quantity data = false ->
   exists out,
     printItems w data = Ok (tt, out) /\
     Forall (items_table_row w) out).
Proof.
  intros Hw. pose proof (printItems_outcome w data ltac:(lia)) as Hout.
  split; [intros Hq; now rewrite Hq in Hout |].
  intros Hq. rewrite Hq in Hout. destruct Hout as ([] & out & Hrun).
  exists out. split; [exact Hrun |].
  assert (Hcol : 4 <= w * 54 / 100) by (apply Z.div_le_lower_bound; lia).
  cut (emits (items_table_row w) (printItems w data));
    [intros He; exact (He _ _ Hrun) |].
  clear Hrun out. unfold printItems.
  apply emits_bind; [apply emits_emit; exact I | intros _].
  apply emits_bind; [apply emits_emit | intros _].
  { cbn. split; [reflexivity |]. split; [| repeat split; discriminate].
    eexists. split; [reflexivity |]. exact Hcol. }
  apply emits_bind; [apply emits_emit; exact I | intros _].
  apply emits_forEach_from. intros item index. unfold printItem.
  apply emits_bind_run; [apply emits_call_wrapText |].
  intros lines o Hlines. unfold call_wrapText in Hlines.
  destruct (wrapText _ _) as [lines' |] eqn:Hwrap; [| discriminate].
  injection Hlines as -> _.
  apply wrapText_lines_short in Hwrap as [Hne Hshort]; [| lia].
  destruct lines as [| line rest]; [contradiction |].
  apply Forall_cons in Hshort as [Hline Hrest].
  apply emits_bind; [apply emits_toString_strict | intros quantityText].
  apply emits_bind; [apply emits_emit | intros _].
  - cbn. split; [reflexivity |]. split; [| repeat split; discriminate].
    eexists. split; [reflexivity |]. exact Hline.
  - apply emits_forEach_members. cbn [tail].
    eapply Forall_impl; [exact Hrest |]. intros l Hl.
    apply emits_emit. cbn. split; [reflexivity |].
    split; [| repeat split; discriminate].
    eexists. split; [reflexivity |]. exact Hl.
Qed.

Lemma items_table_rows_witness :
  exists out,
    printItems 32 sample_receipt = Ok (tt, out) /\
    Forall (items_table_row 32) out.
Proof. apply (items_table_rows 32 sample_receipt); [lia | reflexivity]. Defined.

(** *** The notes *)

(** X11.  The notes section depends on the visible notes only.  It is empty
    exactly when no note is visible; otherwise it is a blank line, a
    separator, the heading and the rows of the visible notes, in
    order. *)
Theorem notes_section_emitted (data : receipt) :
  printNotes data = Ok (tt, notes_section (visible_notes data)) /\
  (notes_section (visible_notes data) = [] <->
   Forall (fun n => visibleOnInvoice n = false) (notes data)) /\
  (forall n ns,
     notes_section (n :: ns)
     = [NewLine; DrawLine; Println (str "Notes:")] ++ flat_map note_rows (n :: ns)) /\
  (forall n, n ∈ visible_notes data <-> n ∈ notes data /\ visibleOnInvoice n = true).
Proof.
  split; [| split; [| split]].
  - unfold printNotes, notes_section, visible_notes.
    destruct (filter _ (notes data)) as [| n ns]; [reflexivity |].
    rewrite len_list_gt0_cons. unfold when, forEach.
    rewrite (forEach_from_rows _ note_rows); [reflexivity |].
    intros x _. unfold note_rows. destruct (note_createdAt x); reflexivity.
  - unfold visible_notes. split.
    + intros Hnone. apply Forall_forall. intros n Hn.
      destruct (visibleOnInvoice n) eqn:Hv; [| reflexivity].
      assert (Hin : n ∈ filter (fun n => visibleOnInvoice n = true) (notes data))
        by (apply list_elem_of_filter; split; [exact Hv | exact Hn]).
      destruct (filter _ (notes data)); [| discriminate].
      now apply elem_of_nil in Hin.
    + intros Hall.
      destruct (filter _ (notes data)) as [| n ns] eqn:Hf; [reflexivity |].
      assert (Hin : n ∈ filter (fun n => visibleOnInvoice n = true) (notes data))
        by (rewrite Hf; apply elem_of_cons; now left).
      apply list_elem_of_filter in Hin as [Hv Hin].
      rewrite Forall_forall in Hall.
      specialize (Hall _ Hin). congruence.
  - reflexivity.
  - intros n. unfold visible_notes. rewrite list_elem_of_filter. tauto.
Qed.

(** ** The [/print-thermal] endpoint *)

Section ThermalHandlerFacts.
Import ThermalHandler.

Lemma getOptimalCharacterWidth_range (widthMM : Q) :
  32 <= getOptimalCharacterWidth widthMM <= 64.
Proof.
  unfold getOptimalCharacterWidth.
  destruct (Qle_bool _ 2); [| lia].
  destruct (closer_nearest (round64 widthMM) [76; 80; 82; 110] 58) as [Hin _].
  change (fold_left (closer (round64 widthMM)) [76; 80; 82; 110] 58)
    with (closestWidth (round64 widthMM)) in Hin.
  cbn [In] in Hin.
  destruct Hin as [<- | [<- | [<- | [<- | [<- | []]]]]]; cbn; lia.
Qed.

(** X12.  A request is answered 400 exactly when the printer, the data or
    the totals are missing or the paper width is missing, zero or not
    a number, whatever the host does. *)
Theorem thermal_bad_request (req : body) (env : environment) :
  handle req env = Some BadRequest <->
  printer req = None \/ body_data req = None \/ body_totals req = None \/
  falsy (widthMM req) = true.
Proof.
  unfold handle, on_error.
  destruct (printer req) as [p |]; [| intuition].
  destruct (body_data req) as [data |]; [| intuition].
  destruct (body_totals req) as [t |]; [| intuition].
  destruct (widthMM req) as [| w]; [cbn; intuition |].
  destruct (falsy (Num w)); [intuition |].
  split; [| intros [? | [? | [? | ?]]]; discriminate].
  destruct (new_ThermalPrinter env); [| discriminate].
  destruct (buildThermalReceipt _ data t); [| discriminate ..].
  destruct (getBuffer env); [| discriminate].
  destruct (transport env); discriminate.
Qed.

(** X13.  Whatever the paper width, the receipt builder returns or throws, so
    a request whose transport settles is always answered, with 204, 400
    or 500 and never with 409. *)
Theorem thermal_request_answered (req : body) (env : environment) :
  transport env <> PrintHandler.Pending ->
  exists r,
    handle req env = Some r /\
    (status r = 204 \/ status r = 400 \/ status r = 500).
Proof.
  intros Hsettled. unfold handle, on_error.
  destruct (printer req) as [p |]; [| eexists; split; [reflexivity | cbn; lia]].
  destruct (body_data req) as [data |]; [| eexists; split; [reflexivity | cbn; lia]].
  destruct (body_totals req) as [t |]; [| eexists; split; [reflexivity | cbn; lia]].
  destruct (widthMM req) as [| w]; [eexists; split; [reflexivity | cbn; lia] |].
  destruct (falsy (Num w)); [eexists; split; [reflexivity | cbn; lia] |].
  destruct (new_ThermalPrinter env); [| eexists; split; [reflexivity | cbn; lia]].
  pose proof (getOptimalCharacterWidth_range w) as Hrange.
  pose proof (buildThermalReceipt_ends (getOptimalCharacterWidth w) data t
                ltac:(lia)) as Hbuild.
  destruct (bin_and_vat_without_location data || item_without_quantity data).
  - rewrite Hbuild. eexists; split; [reflexivity | cbn; lia].
  - destruct Hbuild as [out ->].
    destruct (getBuffer env); [| eexists; split; [reflexivity | cbn; lia]].
    destruct (transport env); [contradiction | |];
      eexists; split; try reflexivity; cbn; lia.
Qed.

Lemma thermal_request_answered_witness :
  exists r,
    handle (sample_thermal_body (Num (795 # 10)))
      (production [RawError (str "offline"); RawTimerFires]) = Some r /\
    (status r = 204 \/ status r = 400 \/ status r = 500).
Proof.
  apply (thermal_request_answered (sample_thermal_body (Num (795 # 10)))
           (production [RawError (str "offline"); RawTimerFires])).
  vm_compute. discriminate.
Defined.

Lemma raw_settled_stays (events : list raw_event) (st : send_state) :
  settled st <> PrintHandler.Pending ->
  settled (fold_left on_raw_event events st) = settled st.
Proof.
  revert st. induction events as [| ev events IH]; intros st Hst; [reflexivity |].
  cbn [fold_left].
  assert (Hstep : settled (on_raw_event st ev) = settled st).
  { destruct ev; cbn; [destruct (timer_spent st); [reflexivity |] | |];
      cbn; destruct (settled st); try reflexivity; contradiction. }
  rewrite IH; [exact Hstep | now rewrite Hstep].
Qed.

Lemma tcp_settled_stays (events : list tcp_event) (st : send_state) :
  settled st <> PrintHandler.Pending ->
  settled (fold_left on_tcp_event events st) = settled st.
Proof.
  revert st. induction events as [| ev events IH]; intros st Hst; [reflexivity |].
  cbn [fold_left].
  assert (Hstep : settled (on_tcp_event st ev) = settled st).
  { destruct ev as [| [] | |]; cbn;
      [destruct (timer_spent st); [reflexivity |] | | | |];
      cbn; destruct (settled st); try reflexivity; contradiction. }
  rewrite IH; [exact Hstep | now rewrite Hstep].
Qed.

Lemma tcp_connected_waits (n : nat) (st : send_state) :
  timer_spent st = true ->
  fold_left on_tcp_event (replicate n TcpTimerFires) st = st.
Proof.
  intros Hst. induction n as [| n IH]; [reflexivity |].
  cbn [replicate fold_left on_tcp_event]. now rewrite Hst.
Qed.

(** X14.  The first event that settles the transport decides the answer, and
    what comes later changes nothing.  In production the [success]
    callback resolves, the [error] callback and the timer reject.  In
    development an error of the socket rejects although the socket
    closes afterwards, a connection that is closed resolves, and once
    the socket has connected the timer no longer applies: the transport
    waits for the socket to close. *)
Theorem transport_first_outcome (later : list raw_event) (after : list tcp_event) :
  (forall jobID, send_raw Done (RawSuccess jobID :: later) = PrintHandler.Resolved) /\
  (forall err,
     send_raw Done (RawError err :: later)
     = PrintHandler.Rejected (str "Print failed: " ++ err)) /\
  send_raw Done (RawTimerFires :: later)
    = PrintHandler.Rejected (str "Print operation timed out after 30 seconds") /\
  (forall message,
     send_raw (Threw message) later
     = PrintHandler.Rejected (str "Failed to initialize print: " ++ template message)) /\
  (forall message,
     send_tcp Done (TcpError message :: after)
     = PrintHandler.Rejected
         (str "Failed to connect to emulator: " ++ template message)) /\
  send_tcp Done (TcpConnect Done :: TcpClose :: after) = PrintHandler.Resolved /\
  send_tcp Done (TcpTimerFires :: after)
    = PrintHandler.Rejected (str "TCP connection timed out after 10 seconds") /\
  (forall n,
     send_tcp Done (TcpConnect Done :: replicate n TcpTimerFires)
     = PrintHandler.Pending).
Proof.
  unfold send_raw, send_tcp.
  repeat split; intros; cbn [fold_left];
    try (rewrite raw_settled_stays; [reflexivity | discriminate]);
    try (rewrite tcp_settled_stays; [reflexivity | discriminate]).
  rewrite tcp_connected_waits; reflexivity.
Qed.

End ThermalHandlerFacts.

(** ** The [/print] endpoint, continued *)

Section PrintTimeoutFacts.
Import PrintHandler.

(** X15.  For a [/print] request that passes validation and whose page is
    loaded, the first of the timer and the print callback decides: when
    the timer fires first the answer is 500 with the time-out message
    and a callback that comes later is ignored; when the callback comes
    first the answer is 204; and when neither comes the request is
    never answered. *)
Theorem print_first_event_decides (req : body) (env : environment) :
  print_job_started req env ->
  (forall later,
     print_events env = TimerFires :: later ->
     handle req env
     = Some (ServerError (str "Print operation timed out after 30 seconds"))) /\
  (forall success failure later,
     print_events env = PrintCallback success failure :: later ->
     handle req env = Some NoContent) /\
  (print_events env = [] -> handle req env = None).
Proof.
  intros ((p & Hp & Hname) & Hwin & Hload).
  unfold handle. rewrite Hp, Hname, Hwin, Hload. cbn [negb].
  unfold await_print.
  split; [| split].
  - intros later ->. cbn [fold_left on_event callbackCalled].
    now rewrite events_after_settlement.
  - intros success failure later ->. cbn [fold_left on_event callbackCalled].
    destruct success; cbn [negb]; now rewrite events_after_settlement.
  - intros ->. reflexivity.
Qed.

Lemma print_first_event_decides_witness :
  handle
    {| printer := Some {| printer_name := Some (str "EPSON TM-T20") |};
       html := str "<p>receipt</p>";
       widthMM := num_of_Z 80;
       heightMM := num_of_Z 200 |}
    {| new_BrowserWindow := Done;
       loadURL := Done;
       print_events := [TimerFires; PrintCallback true []] |}
  = Some (ServerError (str "Print operation timed out after 30 seconds")).
Proof.
  eapply (print_first_event_decides _ _).
  - split; [eexists; split; reflexivity | split; reflexivity].
  - reflexivity.
Defined.

End PrintTimeoutFacts.

(** ** The job registry, continued *)

Section RegistryTracking.
Import JobRegistry.

(** X16.  In every state the service reaches, the registry holds exactly one
    entry for each job in flight, the key of that job under the name of
    its printer: no entry outlives its job, and when no job is in
    flight the registry is empty. *)
Theorem registry_tracks_jobs (events : list event) :
  let s := run initial events in
  activePrintJobs s = list_to_map (job_entry <$> in_flight s) /\
  size (activePrintJobs s) = length (in_flight s) /\
  (in_flight s = [] -> activePrintJobs s = ∅).
Proof.
  intros s.
  assert (Hs : consistent s) by apply run_consistent, consistent_initial.
  destruct Hs as [Hnd Hreg].
  assert (Hfst : (job_entry <$> in_flight s).*1 = job_name <$> in_flight s).
  { rewrite <- list_fmap_compose. reflexivity. }
  assert (Hmap : activePrintJobs s = list_to_map (job_entry <$> in_flight s)).
  { apply map_eq. intros name. apply option_eq. intros key.
    rewrite Hreg, <- elem_of_list_to_map by now rewrite Hfst.
    rewrite list_elem_of_fmap. unfold job_entry. split.
    - intros (j & Hj & <- & <-). now exists j.
    - intros (j & [= -> ->] & Hj). now exists j. }
  split; [exact Hmap |]. split.
  - rewrite Hmap, map_size_list_to_map by now rewrite Hfst.
    now rewrite length_fmap.
  - intros Hidle. rewrite Hmap, Hidle. reflexivity.
Qed.

Lemma registry_tracks_jobs_witness :
  let thermal :=
    {| route := PrintThermal;
       printer := Some {| printer_name := Some (str "PrinterA") |};
       payload_present := true |} in
  let j := {| job_route := PrintThermal; job_name := Some (str "PrinterA");
              job_key := jobKey (Some (str "PrinterA")) 1000 |} in
  activePrintJobs (run initial [Arrives thermal 1000; Finishes j (Threw None)]) = ∅.
Proof.
  intros thermal j.
  destruct (registry_tracks_jobs [Arrives thermal 1000; Finishes j (Threw None)])
    as (_ & _ & Hidle).
  apply Hidle. vm_compute. reflexivity.
Defined.

End RegistryTracking.

(** ** The port check *)

Section PortCheckFacts.
Import Startup.

Context {World : Type}.
Variable isPortAvailable : Z -> World -> bool * World.
Variable attemptGracefulShutdown : Z -> World -> bool * World.
Variable killProcessOnPort : Z -> World -> bool * World.

Abbreviation ensurePorts :=
  (ensurePortsAvailable isPortAvailable attemptGracefulShutdown killProcessOnPort).

Lemma port_check_continue (port : Z) (rest : list Z) (m mk : @machine World)
    (s : list action) (x : bool * @machine World) :
  s ∈ port_sequences port ->
  trace mk = trace m ++ s ->
  apiStartupAttempts mk = apiStartupAttempts m ->
  port_check_outcome rest mk x ->
  port_check_outcome (port :: rest) m x.
Proof.
  intros Hs Ht Hn (seqs & Ht' & Hn' & Hall & Hres).
  exists (s :: seqs). cbn [concat length take].
  split; [rewrite Ht', Ht, <- app_assoc; reflexivity |].
  split; [congruence |]. split; [now constructor |].
  destruct x.1; [cbn [length]; lia |].
  destruct Hres as (port' & s' & Hlast & Hport & Hkill).
  exists port', s'. split; [| split; [| exact Hkill]].
  - destruct seqs; [discriminate | exact Hlast].
  - destruct seqs as [| s0 seqs]; [discriminate |].
    match goal with |- _ !! ?n = _ =>
      replace n with (S (length (s0 :: seqs) - 1)) by (cbn [length]; lia)
    end.
    exact Hport.
Qed.

Lemma port_check_fail (port : Z) (rest : list Z) (m mk : @machine World)
    (s : list action) :
  s ∈ kill_sequences port ->
  trace mk = trace m ++ s ->
  apiStartupAttempts mk = apiStartupAttempts m ->
  port_check_outcome (port :: rest) m (false, mk).
Proof.
  intros Hs Ht Hn. exists [s]. cbn [concat length take fst snd].
  split; [now rewrite app_nil_r |]. split; [exact Hn |]. split.
  - constructor; [| constructor].
    unfold kill_sequences in Hs.
    apply (subseteq_drop 2 (port_sequences port)). exact Hs.
  - exists port, s. split; [reflexivity |]. split; [reflexivity | exact Hs].
Qed.

Lemma ensurePorts_outcome (ports : list Z) :
  forall m : @machine World, port_check_outcome ports m (ensurePorts ports m).
Proof.
  induction ports as [| port rest IH]; intros m.
  { exists []. cbn. rewrite app_nil_r. repeat split. constructor. }
  cbn [ensurePortsAvailable].
  unfold probe, mbind, io_bind, log, host, mret, io_ret.
  cbn [world trace apiStartupAttempts].
  destruct (isPortAvailable port (world m)) as [available w1].
  destruct available.
  { eapply port_check_continue; [| | | apply IH]; cbn [trace apiStartupAttempts];
      [| reflexivity | reflexivity].
    unfold port_sequences. set_solver. }
  cbn [world trace apiStartupAttempts].
  destruct (attemptGracefulShutdown port w1) as [graceful w2].
  destruct graceful.
  - cbn [world trace apiStartupAttempts].
    destruct (isPortAvailable port w2) as [nowAvailable w3].
    destruct nowAvailable.
    + eapply port_check_continue; [| | | apply IH]; cbn [trace apiStartupAttempts];
        [| rewrite <- !app_assoc; reflexivity | reflexivity].
      unfold port_sequences. set_solver.
    + cbn [world trace apiStartupAttempts].
      destruct (killProcessOnPort port w3) as [killed w4].
      cbn [world trace apiStartupAttempts].
      destruct (isPortAvailable port w4) as [finalCheck w5].
      destruct finalCheck.
      * eapply port_check_continue; [| | | apply IH];
          cbn [trace apiStartupAttempts];
          [| rewrite <- !app_assoc; reflexivity | reflexivity].
        unfold port_sequences. set_solver.
      * eapply port_check_fail; cbn [trace apiStartupAttempts];
          [| rewrite <- !app_assoc; reflexivity | reflexivity].
        unfold kill_sequences, port_sequences. cbn [drop]. set_solver.
  - cbn [world trace apiStartupAttempts].
    destruct (killProcessOnPort port w2) as [killed w4].
    cbn [world trace apiStartupAttempts].
    destruct (isPortAvailable port w4) as [finalCheck w5].
    destruct finalCheck.
    + eapply port_check_continue; [| | | apply IH];
        cbn [trace apiStartupAttempts];
        [| rewrite <- !app_assoc; reflexivity | reflexivity].
      unfold port_sequences. set_solver.
    + eapply port_check_fail; cbn [trace apiStartupAttempts];
        [| rewrite <- !app_assoc; reflexivity | reflexivity].
      unfold kill_sequences, port_sequences. cbn [drop]. set_solver.
Qed.

(** X17.  The ports are checked in order, each by one of the four sequences
    of its port: a shutdown request comes only after a probe of the
    same port, and a kill only after a shutdown request for it.  The
    check leaves the counter of attempts alone, answers [true] when
    every port has been through its sequence, and answers [false] right
    after a kill that did not free its port, without looking at the
    ports after it.  When every probe finds its port free the ports are
    only probed, once each. *)
Theorem port_check_protocol (ports : list Z) (m : @machine World) :
  port_check_outcome ports m (ensurePorts ports m) /\
  ((forall port w, (isPortAvailable port w).1 = true) ->
   (ensurePorts ports m).1 = true /\
   trace (ensurePorts ports m).2 = trace m ++ (Probe <$> ports)).
Proof.
  split; [apply ensurePorts_outcome |].
  intros Hfree. revert m. induction ports as [| port rest IH]; intros m.
  { cbn. now rewrite app_nil_r. }
  cbn [ensurePortsAvailable].
  unfold probe, mbind, io_bind, log, host, mret, io_ret.
  cbn [world trace apiStartupAttempts].
  pose proof (Hfree port (world m)) as Hport.
  destruct (isPortAvailable port (world m)) as [available w1].
  cbn [fst] in Hport. subst available.
  destruct (IH {| world := w1; apiStartupAttempts := apiStartupAttempts m;
                  trace := trace m ++ [Probe port] |}) as [Hres Htrace].
  split; [exact Hres |]. rewrite Htrace. cbn [trace fmap list_fmap].
  now rewrite <- app_assoc.
Qed.

End PortCheckFacts.

(** ** What the shell is told *)

Section StartupEndingFacts.
Import Startup.

Context {World : Type}.
Variable isPortAvailable : Z -> World -> bool * World.
Variable attemptGracefulShutdown : Z -> World -> bool * World.
Variable killProcessOnPort : Z -> World -> bool * World.
Variable startServices : World -> service_outcome * World.
Variable globalWebContents : bool.

Abbreviation start :=
  (startApi isPortAvailable attemptGracefulShutdown killProcessOnPort
     startServices globalWebContents).

Lemma port_action_silent (a : action) : port_action a -> silent a.
Proof. destruct a; cbn; tauto. Qed.

Lemma ending_told_after (pre t : list action) (e : ending) (n : Z) :
  Forall silent pre ->
  ending_told globalWebContents e n t ->
  ending_told globalWebContents e n (pre ++ t).
Proof.
  intros Hpre. destruct e; cbn [ending_told].
  - intros (Hlast & Hn & Ht). split; [| split; [exact Hn | now apply Forall_app_2]].
    rewrite last_app, Hlast. reflexivity.
  - destruct globalWebContents.
    + intros (t0 & error & -> & Ht0). exists (pre ++ t0), error.
      split; [now rewrite app_assoc | now apply Forall_app_2].
    + intros Ht. now apply Forall_app_2.
  - intros (Hlast & Ht). split; [| now apply Forall_app_2].
    rewrite last_app, Hlast. reflexivity.
Qed.

Lemma report_told (error : jsstring) (m2 : @machine World) :
  exists m' tl,
    (report globalWebContents error ≫= fun _ => mret (Some StartupFailed)) m2
      = (Some StartupFailed, m') /\
    trace m' = trace m2 ++ tl /\
    ending_told globalWebContents StartupFailed (apiStartupAttempts m') tl.
Proof.
  unfold report, mbind, io_bind, mret, io_ret, log, ending_told.
  destruct globalWebContents; do 2 eexists.
  - split; [reflexivity |]. split; [reflexivity |].
    exists [], error. split; [reflexivity | constructor].
  - split; [reflexivity |]. split; [symmetry; apply app_nil_r | constructor].
Qed.

Lemma retry_or_tell (flag : bool) (fuel : nat) (fin : @io World (option ending))
    (m m1 : @machine World) (pre : list action) :
  (forall (m0 : @machine World) e m',
     start flag fuel m0 = (Some e, m') ->
     exists t,
       trace m' = trace m0 ++ t /\
       ending_told globalWebContents e (apiStartupAttempts m') t) ->
  (forall (m2 : @machine World) e m',
     fin m2 = (Some e, m') ->
     exists tl,
       trace m' = trace m2 ++ tl /\
       ending_told globalWebContents e (apiStartupAttempts m') (pre ++ tl)) ->
  trace m1 = trace m ++ pre ->
  Forall silent pre ->
  forall e m',
    (get_attempts ≫= fun n =>
     set_attempts (n + 1) ≫= fun _ =>
     if n + 1 <? MAX_STARTUP_ATTEMPTS
     then log (RetryAfter 3000) ≫= fun _ => start flag fuel
     else fin) m1 = (Some e, m') ->
    exists t,
      trace m' = trace m ++ t /\
      ending_told globalWebContents e (apiStartupAttempts m') t.
Proof.
  intros IH Hfin Hpre Hsilent e m'.
  unfold mbind, io_bind, get_attempts, set_attempts, log. cbn beta iota.
  unfold MAX_STARTUP_ATTEMPTS.
  destruct (Z.ltb_spec (apiStartupAttempts m1 + 1) 3) as [Hretry | Hlast].
  - cbn [world apiStartupAttempts trace]. intros Hrun.
    destruct (IH _ _ _ Hrun) as (t' & Ht' & Htold).
    exists ((pre ++ [RetryAfter 3000]) ++ t'). split.
    + rewrite Ht'. cbn [trace]. rewrite Hpre. now rewrite <- !app_assoc.
    + apply ending_told_after; [| exact Htold].
      apply Forall_app_2; [exact Hsilent | repeat constructor].
  - intros Hrun. destruct (Hfin _ _ _ Hrun) as (tl & Htl & Htold).
    exists (pre ++ tl). split; [| exact Htold].
    rewrite Htl. cbn [trace]. rewrite Hpre. now rewrite <- app_assoc.
Qed.

(** Whatever the express and however long it goes on, a start-up that
    ends has told the shell what its ending calls for. *)
Lemma start_endings (flag : bool) (fuel : nat) :
  forall (m : @machine World) e m',
    start flag fuel m = (Some e, m') ->
    exists t,
      trace m' = trace m ++ t /\
      ending_told globalWebContents e (apiStartupAttempts m') t.
Proof.
  induction fuel as [| fuel IH]; intros m e m'; [discriminate |].
  cbn [startApi]. unfold mbind at 1 2, io_bind at 1 2.
  cbn [log].
  destruct (ensurePorts_port_run isPortAvailable attemptGracefulShutdown
              killProcessOnPort [21321; 21322]
              {| world := world m; apiStartupAttempts := apiStartupAttempts m;
                 trace := trace m ++ [CheckingPorts] |})
    as (pt & Hn & Ht & Hpt).
  destruct (ensurePortsAvailable _ _ _ _ _) as [b m1].
  cbn [snd apiStartupAttempts trace] in Hn, Ht.
  assert (Hsilent : Forall silent ([CheckingPorts] ++ pt)).
  { apply Forall_app_2; [repeat constructor |].
    eapply Forall_impl; [exact Hpt | exact port_action_silent]. }
  assert (Hsilent' : Forall silent (([CheckingPorts] ++ pt) ++ [StartServices])).
  { apply Forall_app_2; [exact Hsilent | repeat constructor]. }
  rewrite <- app_assoc in Ht.
  assert (Hfail : forall (m2 : @machine World) pre error e0 m0,
    Forall silent pre ->
    (report globalWebContents error ≫= fun _ => mret (Some StartupFailed)) m2
      = (Some e0, m0) ->
    exists tl,
      trace m0 = trace m2 ++ tl /\
      ending_told globalWebContents e0 (apiStartupAttempts m0) (pre ++ tl)).
  { intros m2 pre error e0 m0 Hpre Hrun.
    destruct (report_told error m2) as (m3 & tl & Hrun' & Htl & Htold).
    rewrite Hrun' in Hrun. injection Hrun as <- <-.
    exists tl. split; [exact Htl |]. now apply ending_told_after. }
  assert (Hstop : forall (m2 : @machine World) e0 m0,
    trace m2 = trace m ++ ([CheckingPorts] ++ pt) ++ [StartServices] ->
    (mret (Some Stopped) : @io World (option ending)) m2 = (Some e0, m0) ->
    exists t,
      trace m0 = trace m ++ t /\
      ending_told globalWebContents e0 (apiStartupAttempts m0) t).
  { intros m2 e0 m0 Hm2 [= <- <-].
    exists (([CheckingPorts] ++ pt) ++ [StartServices]).
    split; [exact Hm2 |]. split; [apply last_snoc | exact Hsilent']. }
  destruct b; cbn [negb].
  - unfold mbind at 1 2, io_bind at 1 2, log at 1, host at 1.
    cbn [world apiStartupAttempts trace].
    destruct (startServices (world m1)) as [outcome w'].
    destruct outcome as [| EADDRINUSE | message].
    + intros [= <- <-].
      exists (([CheckingPorts] ++ pt) ++ [StartServices]).
      cbn [trace apiStartupAttempts].
      split; [rewrite Ht, <- !app_assoc; reflexivity |].
      split; [apply last_snoc | split; [reflexivity | exact Hsilent']].
    + unfold mbind at 1, io_bind at 1.
      match goal with |- context [(if flag then ?a else ?b) ?m2] =>
        assert (Hm2 : trace ((if flag then a else b) m2).2
                      = trace m ++ ([CheckingPorts] ++ pt) ++ [StartServices])
          by (destruct flag; cbn; rewrite Ht, <- !app_assoc; reflexivity);
        destruct ((if flag then a else b) m2) as [[] m2']
      end.
      cbn [snd] in Hm2.
      destruct EADDRINUSE; [| now apply Hstop].
      apply (retry_or_tell flag fuel _ m m2'
               (([CheckingPorts] ++ pt) ++ [StartServices]));
        [exact IH | | exact Hm2 | exact Hsilent'].
      intros m3 e0 m0 [= <- <-]. exists []. split; [symmetry; apply app_nil_r |].
      rewrite app_nil_r. split; [apply last_snoc | exact Hsilent'].
    + apply (retry_or_tell flag fuel _ m _
               (([CheckingPorts] ++ pt) ++ [StartServices]));
        [exact IH | | | exact Hsilent'].
      * intros m2 e0 m0. now apply Hfail.
      * cbn [trace]. rewrite Ht, <- !app_assoc. reflexivity.
  - apply (retry_or_tell flag fuel _ m _ ([CheckingPorts] ++ pt));
      [exact IH | | | exact Hsilent].
    + intros m2 e0 m0. now apply Hfail.
    + rewrite Ht. reflexivity.
Qed.

(** X18.  Whatever the express and the host, a start-up from a fresh
    process that ends has told the shell of a failure exactly when it
    was given up after the last attempt, once and as its last action.
    When it ends with the services running the counter of attempts is
    back at zero; when an error of the HTTP server stops it, because
    the error is not an address in use or because no attempt is left,
    nothing is reported to the shell.  On an express that calls the
    callback of [listen] only when the server listens, and on any
    express when the server never fails to listen because the address
    is in use, the start-up ends within three calls of [startApi]. *)
Theorem startup_ending_told (w : World) (flag : bool) (fuel : nat) :
  (forall e m',
     start flag fuel (boot w) = (Some e, m') ->
     ending_told globalWebContents e (apiStartupAttempts m') (trace m')) /\
  ((flag = true -> forall w', fst (startServices w') <> ListenError true) ->
   (3 <= fuel)%nat ->
   exists e m', start flag fuel (boot w) = (Some e, m')).
Proof.
  split.
  - intros e m' Hrun.
    destruct (start_endings flag fuel (boot w) e m' Hrun) as (t & Ht & Htold).
    cbn in Ht. now rewrite Ht.
  - intros Hlisten Hfuel.
    destruct (start_bounded isPortAvailable attemptGracefulShutdown
                killProcessOnPort startServices globalWebContents flag fuel
                Hlisten (boot w))
      as (e & m' & t & Hrun & _); [lia | cbn; lia |].
    now exists e, m'.
Qed.

End StartupEndingFacts.

Lemma port_check_protocol_witness :
  (Startup.ensurePortsAvailable free_port no_effect no_effect [21321; 21322]
     (Startup.boot tt)).1 = true /\
  Startup.trace
    (Startup.ensurePortsAvailable free_port no_effect no_effect [21321; 21322]
       (Startup.boot tt)).2
  = [Startup.Probe 21321; Startup.Probe 21322].
Proof.
  apply (port_check_protocol free_port no_effect no_effect [21321; 21322]
           (Startup.boot tt)).
  reflexivity.
Defined.

Lemma startup_ending_told_witness :
  exists m',
    Startup.startApi free_port no_effect no_effect listen_fails true true 3
      (Startup.boot tt) = (Some Startup.Stopped, m') /\
    Forall silent (Startup.trace m').
Proof.
  destruct (startup_ending_told free_port no_effect no_effect listen_fails
              true tt true 3) as [Htold Hends].
  destruct (Hends ltac:(intros _ w'; discriminate) ltac:(lia))
    as (e & m' & Hrun).
  specialize (Htold e m' Hrun).
  vm_compute in Hrun. injection Hrun as <- <-.
  eexists. split; [reflexivity |]. apply Htold.
Defined.

(** ** The list of printers *)

Lemma starts_with_spec (s sub : jsstring) :
  starts_with s sub = true <-> exists post, s = sub ++ post.
Proof.
  revert s. induction sub as [| c sub IH]; intros s.
  - split; [intros _; now exists s | intros _; destruct s; reflexivity].
  - destruct s as [| d s]; cbn [starts_with];
      [split; [discriminate | intros [post [=]]] |].
    rewrite andb_true_iff, IH. split.
    + intros [Hc [post ->]]. apply Ascii.eqb_eq in Hc as ->. now exists post.
    + intros [post [= -> ->]]. split; [apply Ascii.eqb_refl | now exists post].
Qed.

Lemma includes_spec (s sub : jsstring) :
  includes s sub = true <-> exists pre post, s = pre ++ sub ++ post.
Proof.
  induction s as [| d s IH]; cbn [includes]; rewrite orb_true_iff, starts_with_spec.
  - split.
    + intros [[post H] | [=]]. now exists [], post.
    + intros (pre & post & H). left.
      destruct pre; [now exists post | discriminate].
  - rewrite IH. split.
    + intros [[post H] | (pre & post & ->)]; [now exists [], post |].
      now exists (d :: pre), post.
    + intros (pre & post & H). destruct pre as [| d' pre].
      * left. now exists post.
      * right. injection H as -> ->. now exists pre, post.
Qed.

Section PrinterListFacts.

Variable Number_of_string : jsstring -> number.

(** X19.  A printer is published as a PDF printer, without support for
    thermal receipts, exactly when the name it is shown by contains one
    of the nine names of [pdfPrinters], letter case apart; every other
    printer is published as physical, with support for thermal
    receipts. *)
Theorem pdf_printers_by_name (p : raw_printer) :
  let e := format_printer Number_of_string p in
  (entry_supportsThermal e = false <->
   exists known before after,
     In known pdfPrinters /\
     toLowerCase (shown_name p) = before ++ toLowerCase known ++ after) /\
  (entry_type e = str "pdf" <-> entry_supportsThermal e = false) /\
  (entry_type e = str "physical" <-> entry_supportsThermal e = true).
Proof.
  cbn [format_printer entry_supportsThermal entry_type].
  split; [| destruct (isPdfPrinter p); cbn; split; split;
            first [reflexivity | discriminate]].
  rewrite negb_false_iff. unfold isPdfPrinter. rewrite existsb_exists. split.
  - intros (known & Hin & Hinc). apply includes_spec in Hinc as (pre & post & H).
    now exists known, pre, post.
  - intros (known & pre & post & Hin & H). exists known. split; [exact Hin |].
    apply includes_spec. now exists pre, post.
Qed.


(** *** The paper size *)

Lemma match_group_greedy (class : ascii -> bool) (pattern : list regex_item)
    (s : jsstring) (captures : list jsstring) :
  (1 <= run_length class s)%nat ->
  match_here pattern (drop (run_length class s) s) = Some captures ->
  match_here (Group class :: pattern) s
  = Some (take (run_length class s) s :: captures).
Proof.
  intros Hk Hrest. cbn [match_here].
  destruct (run_length class s) as [| k]; [lia |]. now rewrite Hrest.
Qed.

Lemma match_group_none (class : ascii -> bool) (pattern : list regex_item)
    (s : jsstring) :
  (forall k, (1 <= k <= run_length class s)%nat ->
             match_here pattern (drop k s) = None) ->
  match_here (Group class :: pattern) s = None.
Proof.
  cbn [match_here]. generalize (run_length class s). intros n.
  induction n as [| n IH]; intros Hnone; [reflexivity |].
  rewrite Hnone by lia. apply IH. intros k Hk. apply Hnone. lia.
Qed.

Lemma run_length_app (class : ascii -> bool) (x : jsstring) (c : ascii)
    (rest : jsstring) :
  Forall (fun d => class d = true) x -> class c = false ->
  run_length class (x ++ c :: rest) = length x.
Proof.
  intros Hx Hc. induction Hx as [| d x Hd _ IH]; cbn [app run_length length].
  - now rewrite Hc.
  - now rewrite Hd, IH.
Qed.

Lemma run_length_all (class : ascii -> bool) (x : jsstring) :
  Forall (fun d => class d = true) x -> run_length class x = length x.
Proof.
  induction 1 as [| d x Hd _ IH]; cbn [run_length length]; [reflexivity |].
  now rewrite Hd, IH.
Qed.

Lemma run_length_within (class : ascii -> bool) (x rest : jsstring) (z : ascii) :
  last x = Some z -> class z = false ->
  (run_length class (x ++ rest) < length x)%nat.
Proof.
  intros Hlast Hz. induction x as [| d x IH]; [discriminate |].
  cbn [app run_length length]. destruct (class d) eqn:Hd; [| lia].
  destruct x as [| d' x].
  - injection Hlast as ->. congruence.
  - specialize (IH Hlast). cbn [length] in *. lia.
Qed.

Lemma digits_class (n : Z) (class : ascii -> bool) :
  0 <= n ->
  (forall d, 0 <= d <= 9 -> class (digit_char d) = true) ->
  Forall (fun c => class c = true) (digits n).
Proof.
  intros Hn Hclass. destruct (digits_spec n Hn) as (Hall & _).
  eapply Forall_impl; [exact Hall |]. intros c (d & Hd & ->). now apply Hclass.
Qed.

Lemma digit_is_digit (d : Z) : 0 <= d <= 9 -> is_digit (digit_char d) = true.
Proof. intros H. each_digit H; reflexivity. Qed.

Lemma digit_is_digit_or_point (d : Z) :
  0 <= d <= 9 -> is_digit_or_point (digit_char d) = true.
Proof. intros H. each_digit H; reflexivity. Qed.

Lemma digits_nonempty (n : Z) : 0 <= n -> (1 <= length (digits n))%nat.
Proof.
  intros Hn. destruct (Z.le_gt_cases n 9).
  - rewrite digits_small by lia. cbn. lia.
  - rewrite digits_step by lia. rewrite length_app. cbn. lia.
Qed.

Lemma match_lit (c d : ascii) (pattern : list regex_item) (s : jsstring) :
  toLowerCase_char c = toLowerCase_char d ->
  match_here (Lit c :: pattern) (d :: s) = match_here pattern s.
Proof. intros H. cbn [match_here]. now rewrite H, Ascii.eqb_refl. Qed.

Lemma match_size (w h : Z) (after : jsstring) :
  0 <= w -> 0 <= h ->
  match_here mmRegex (size_text [] w h after) = Some [digits w; digits h].
Proof.
  intros Hw Hh. unfold mmRegex, size_text. cbn [app].
  pose proof (digits_class w is_digit_or_point Hw digit_is_digit_or_point) as Hcw.
  pose proof (digits_class h is_digit_or_point Hh digit_is_digit_or_point) as Hch.
  change (str "x" ++ digits h ++ str "mm" ++ after)
    with ("x"%char :: digits h ++ "m"%char :: "m"%char :: after).
  erewrite match_group_greedy;
    rewrite ?run_length_app by (assumption || reflexivity).
  - rewrite take_app_length. reflexivity.
  - apply digits_nonempty, Hw.
  - rewrite drop_app_length, match_lit by reflexivity.
    erewrite match_group_greedy;
      rewrite ?run_length_app by (assumption || reflexivity).
    + rewrite take_app_length. reflexivity.
    + apply digits_nonempty, Hh.
    + rewrite drop_app_length, !match_lit by reflexivity. reflexivity.
Qed.

Lemma no_match_before (before rest : jsstring) :
  before <> [] -> no_size_begins before ->
  match_here mmRegex (before ++ rest) = None.
Proof.
  intros Hne [Hx Hlast]. unfold mmRegex. apply match_group_none. intros k Hk.
  destruct (last before) as [z |] eqn:Hz;
    [| destruct before; [contradiction | now apply last_None in Hz]].
  pose proof (run_length_within is_digit_or_point before rest z Hz Hlast) as Hrun.
  rewrite drop_app_le by lia.
  destruct (drop k before) as [| d tl] eqn:Hdrop.
  { apply (f_equal length) in Hdrop. rewrite length_drop in Hdrop.
    cbn [length] in Hdrop. lia. }
  cbn [app match_here].
  assert (Hd : toLowerCase_char d <> "x"%char).
  { rewrite Forall_forall in Hx. apply Hx.
    apply (subseteq_drop k before). rewrite Hdrop. apply elem_of_cons. now left. }
  change (toLowerCase_char "x") with "x"%char.
  destruct (Ascii.eqb_spec "x"%char (toLowerCase_char d)) as [Heq | _];
    [congruence | reflexivity].
Qed.

Lemma exec_size (before after : jsstring) (w h : Z) :
  0 <= w -> 0 <= h -> no_size_begins before ->
  exec mmRegex (size_text before w h after) = Some [digits w; digits h].
Proof.
  intros Hw Hh. induction before as [| c before IH]; intros Hbefore.
  - unfold size_text at 1.
    destruct (digits w ++ str "x" ++ digits h ++ str "mm" ++ after) eqn:Hs;
      cbn [exec app]; rewrite <- ?Hs;
      change (digits w ++ str "x" ++ digits h ++ str "mm" ++ after)
        with (size_text [] w h after);
      now rewrite match_size.
  - change (size_text (c :: before) w h after)
      with (c :: size_text before w h after).
    cbn [exec].
    change (c :: size_text before w h after)
      with ((c :: before) ++ size_text [] w h after).
    rewrite no_match_before by (discriminate || assumption).
    apply IH. destruct Hbefore as [Hx Hlast].
    apply Forall_cons in Hx as [_ Hx]. split; [exact Hx |].
    destruct before; [exact I | exact Hlast].
Qed.

Lemma parseFloat_digits_of (n : Z) :
  0 <= n -> exists q, parseFloat_digits (digits n) = Num q /\ (q == inject_Z n)%Q.
Proof.
  intros Hn. unfold parseFloat_digits.
  rewrite (run_length_all is_digit) by (apply digits_class; [assumption |];
                                        exact digit_is_digit).
  rewrite take_ge, drop_ge by lia. rewrite app_nil_r.
  destruct (digits_spec n Hn) as (_ & -> & _).
  eexists. split; [reflexivity |]. change (10 ^ len []) with 1.
  unfold Qeq, Qdiv, Qmult, Qinv, inject_Z. cbn. lia.
Qed.

(** X20.  A printer whose media text names its paper as a width, the letter x
    in either case, a height and the letters mm is published with that
    width and that height in millimetres, provided the text before them
    has no letter x and does not end with a digit or a point.  The
    width and the height are whole numbers up to 2^53, which
    [parseFloat] reads without rounding.  A printer with no media text
    has neither a width nor a height. *)
Theorem paper_size_read (p : raw_printer) :
  (forall before after w h,
     0 <= w <= 2 ^ 53 -> 0 <= h <= 2 ^ 53 -> no_size_begins before ->
     or_else (option_read p media) (option_read p media_default)
       = Some (size_text before w h after) ->
     exists qw qh,
       entry_widthMM (format_printer Number_of_string p) = Some (Num qw) /\
       entry_heightMM (format_printer Number_of_string p) = Some (Num qh) /\
       (qw == inject_Z w)%Q /\ (qh == inject_Z h)%Q) /\
  (truthy (or_else (option_read p media) (option_read p media_default)) = false ->
   entry_widthMM (format_printer Number_of_string p) = None /\
   entry_heightMM (format_printer Number_of_string p) = None).
Proof.
  split.
  - intros before after w h [Hw _] [Hh _] Hbefore Hmedia.
    destruct (parseFloat_digits_of w Hw) as (qw & Hqw & Heqw).
    destruct (parseFloat_digits_of h Hh) as (qh & Hqh & Heqh).
    exists qw, qh. cbn [format_printer entry_widthMM entry_heightMM].
    rewrite Hmedia.
    assert (Htext : or_default (Some (size_text before w h after)) []
                    = size_text before w h after).
    { unfold or_default.
      destruct (size_text before w h after) eqn:Hs; [| reflexivity].
      exfalso. apply (f_equal length) in Hs. unfold size_text in Hs.
      rewrite !length_app in Hs. cbn in Hs. lia. }
    rewrite Htext, exec_size by assumption.
    rewrite Hqw, Hqh. repeat split; assumption.
  - intros Hnone. cbn [format_printer entry_widthMM entry_heightMM].
    destruct (or_else _ _) as [[| c text] |]; [| discriminate |]; now split.
Qed.

(** *** The tray menu *)

Lemma find_format (raw : list raw_printer) :
  List.find entry_isDefault (formatPrinterList Number_of_string raw)
  = format_printer Number_of_string <$> List.find raw_isDefault raw.
Proof.
  induction raw as [| p raw IH]; [reflexivity |].
  cbn [formatPrinterList map List.find]. cbn [format_printer entry_isDefault].
  destruct (raw_isDefault p); [reflexivity | exact IH].
Qed.

(** X21.  The tray shows the printers that were found: "No Printers Found"
    when there is none, and otherwise the first printer that is the
    default one, by the name it is shown by, or "(none)" when no
    printer is the default one or that name is empty.  The list sent to
    the clients has one entry for each printer, in order, whose
    identifier is the name of the printer.  When the printers cannot be
    listed the menu says so and the clients are sent an empty list. *)
Theorem tray_shows_default_printer (raw : list raw_printer) :
  let update := updateTrayMenu Number_of_string (Some raw) in
  broadcast update = formatPrinterList Number_of_string raw /\
  map entry_id (broadcast update) = map raw_name raw /\
  (raw = [] <->
   contextMenu update = [Label (str "No Printers Found"); Separator; Restart]) /\
  (raw = [] <-> toolTip update = str "No printers detected") /\
  (raw <> [] ->
   contextMenu update
   = [Label (str "Default: " ++
        match List.find raw_isDefault raw with
        | Some p => or_default (Some (shown_name p)) (str "(none)")
        | None => str "(none)"
        end);
      Separator; Restart]) /\
  broadcast (updateTrayMenu Number_of_string None) = [] /\
  contextMenu (updateTrayMenu Number_of_string None)
    = [Label (str "Error detecting printers"); Restart].
Proof.
  cbn [updateTrayMenu broadcast contextMenu toolTip].
  split; [reflexivity |]. split.
  { unfold formatPrinterList. rewrite map_map. reflexivity. }
  destruct raw as [| p raw].
  - repeat split; intros; try reflexivity; try contradiction.
  - unfold formatPrinterList. cbn [map]. rewrite len_list_gt0_cons.
    split; [split; discriminate |]. split; [split; discriminate |].
    split; [| split; reflexivity].
    intros _. change (format_printer Number_of_string p
                        :: map (format_printer Number_of_string) raw)
                with (formatPrinterList Number_of_string (p :: raw)).
    rewrite find_format.
    destruct (List.find raw_isDefault (p :: raw)); reflexivity.
Qed.

End PrinterListFacts.

Lemma paper_size_read_witness :
  exists qw qh,
    entry_widthMM
      (format_printer parseFloat_digits
         (printer_with (str "POS-80") None (Some (str "om_80x297mm_roll"))))
    = Some (Num qw) /\
    entry_heightMM
      (format_printer parseFloat_digits
         (printer_with (str "POS-80") None (Some (str "om_80x297mm_roll"))))
    = Some (Num qh) /\
    (qw == 80)%Q /\ (qh == 297)%Q.
Proof.
  destruct (paper_size_read parseFloat_digits
              (printer_with (str "POS-80") None (Some (str "om_80x297mm_roll"))))
    as [Hsize _].
  apply (Hsize (str "om_") (str "_roll") 80 297).
  - lia.
  - lia.
  - split; [repeat constructor; discriminate | reflexivity].
  - reflexivity.
Defined.

Lemma tray_shows_default_printer_witness :
  contextMenu
    (updateTrayMenu parseFloat_digits
       (Some [printer_with (str "POS-80") None None;
              {| raw_name := str "HP_LaserJet";
                 raw_displayName := Some (str "HP LaserJet");
                 raw_isDefault := true;
                 raw_options := None |}]))
  = [Label (str "Default: HP LaserJet"); Separator; Restart].
Proof.
  destruct (tray_shows_default_printer parseFloat_digits
              [printer_with (str "POS-80") None None;
               {| raw_name := str "HP_LaserJet";
                  raw_displayName := Some (str "HP LaserJet");
                  raw_isDefault := true;
                  raw_options := None |}])
    as (_ & _ & _ & _ & Hmenu & _).
  rewrite Hmenu; [reflexivity | discriminate].
Defined.

(** ** The heartbeat *)

Section HeartbeatFacts.
Import Heartbeat.

Lemma tick_lookup (m : clients) (s : nat) :
  (tick m).1 !! s = match m !! s with Some true => Some false | _ => None end.
Proof.
  cbn [tick fst]. rewrite lookup_fmap.
  destruct (m !! s) as [[|] |] eqn:Hs.
  - erewrite map_lookup_filter_Some_2; [reflexivity | exact Hs | reflexivity].
  - rewrite map_lookup_filter_None_2; [reflexivity |].
    right. intros b Hb. cbn. congruence.
  - rewrite map_lookup_filter_None_2; [reflexivity | now left].
Qed.

Lemma tick_terminate (m : clients) (s : nat) :
  Terminate s ∈ (tick m).2 <-> m !! s = Some false.
Proof.
  cbn [tick snd]. rewrite list_elem_of_fmap. split.
  - intros ([s' b] & Hbeat & Hin). apply elem_of_map_to_list in Hin.
    unfold beat in Hbeat. cbn in Hbeat. destruct b; [discriminate |].
    injection Hbeat as ->. exact Hin.
  - intros Hs. exists (s, false). split; [reflexivity |].
    now apply elem_of_map_to_list.
Qed.

Lemma step_not_heard (s : nat) (e : event) (m : clients) :
  not_heard s e -> m !! s <> Some true -> (step m e).1 !! s <> Some true.
Proof.
  intros [Hpong Hconn] Hlow. destruct e as [s' | s' | s' |]; cbn [step fst].
  - rewrite lookup_insert_ne by congruence. exact Hlow.
  - rewrite lookup_alter_ne by congruence. exact Hlow.
  - destruct (decide (s' = s)) as [-> | Hne].
    + rewrite lookup_delete_eq. discriminate.
    + rewrite lookup_delete_ne by exact Hne. exact Hlow.
  - rewrite tick_lookup. destruct (m !! s) as [[|] |]; discriminate.
Qed.

Lemma step_still_lowered (s : nat) (e : event) (m : clients) :
  not_heard s e -> e <> Closes s -> e <> Tick ->
  m !! s = Some false -> (step m e).1 !! s = Some false /\ (step m e).2 = [].
Proof.
  intros [Hpong Hconn] Hclose Htick Hlow.
  destruct e as [s' | s' | s' |]; cbn [step fst snd]; [| | | contradiction].
  - rewrite lookup_insert_ne by congruence. now split.
  - rewrite lookup_alter_ne by congruence. now split.
  - rewrite lookup_delete_ne by congruence. now split.
Qed.

Lemma unheard_client_dropped (s : nat) (events : list event) :
  forall m : clients,
    Forall (not_heard s) events -> m !! s <> Some true ->
    (run m (events ++ [Tick])).1 !! s = None /\
    (m !! s = Some false -> Forall (fun e => e <> Closes s) events ->
     Terminate s ∈ (run m (events ++ [Tick])).2).
Proof.
  induction events as [| e events IH]; intros m Hquiet Hlow.
  - cbn [app run step]. pose proof (tick_lookup m s) as Hlook.
    pose proof (tick_terminate m s) as Hterm.
    destruct (tick m) as [m1 a1]. cbn [fst snd] in *. rewrite app_nil_r.
    split; [| intros Hs _; now apply Hterm].
    rewrite Hlook. destruct (m !! s) as [[|] |]; [contradiction | |]; reflexivity.
  - apply Forall_cons in Hquiet as [He Hquiet].
    pose proof (step_not_heard s e m He Hlow) as Hlow'.
    cbn [app run]. destruct (step m e) as [m1 a1] eqn:Hstep. cbn [fst] in Hlow'.
    destruct (IH m1 Hquiet Hlow') as [Hout Hterm].
    destruct (run m1 (events ++ [Tick])) as [m2 a2]. cbn [fst snd] in *.
    split; [exact Hout |].
    intros Hs Hopen. apply Forall_cons in Hopen as [Hopen_e Hopen].
    apply elem_of_app.
    destruct (decide (e = Tick)) as [-> | Htick].
    + left. cbn [step] in Hstep. pose proof (tick_terminate m s) as Ht.
      rewrite Hstep in Ht. now apply Ht.
    + right. apply Hterm; [| exact Hopen].
      destruct (step_still_lowered s e m He Hopen_e Htick Hs) as [Hkeep _].
      now rewrite Hstep in Hkeep.
Qed.

(** X22.  A client that is not heard of from one tick to a later one is gone
    after the later tick: from the first tick on its flag is down, no
    pong raises it, and the later tick, if not one before, terminates
    it.  Unless it closed the connection itself in the meantime, the
    server terminated it. *)
Theorem silent_client_terminated (s : nat) (m : clients) (events : list event) :
  Forall (not_heard s) events ->
  (run m (Tick :: events ++ [Tick])).1 !! s = None /\
  (is_Some (m !! s) -> Forall (fun e => e <> Closes s) events ->
   Terminate s ∈ (run m (Tick :: events ++ [Tick])).2).
Proof.
  intros Hquiet. cbn [run step].
  pose proof (tick_lookup m s) as Hlook.
  pose proof (tick_terminate m s) as Hfirst.
  destruct (tick m) as [m1 a1]. cbn [fst snd] in *.
  assert (Hlow : m1 !! s <> Some true)
    by (rewrite Hlook; destruct (m !! s) as [[|] |]; discriminate).
  destruct (unheard_client_dropped s events m1 Hquiet Hlow) as [Hout Hterm].
  destruct (run m1 (events ++ [Tick])) as [m2 a2]. cbn [fst snd] in *.
  split; [exact Hout |].
  intros [b Hb] Hopen. apply elem_of_app. destruct b.
  - right. apply Hterm; [| exact Hopen]. now rewrite Hlook, Hb.
  - left. now apply Hfirst.
Qed.

Lemma silent_client_terminated_witness :
  (run {[ 7%nat := true ]} [Tick; Pong 8%nat; Tick]).1 !! 7%nat = None /\
  Terminate 7%nat ∈ (run {[ 7%nat := true ]} [Tick; Pong 8%nat; Tick]).2.
Proof.
  destruct (silent_client_terminated 7 {[ 7%nat := true ]} [Pong 8%nat])
    as [Hgone Hterm].
  - repeat constructor; discriminate.
  - split; [exact Hgone |]. apply Hterm.
    + exists true. reflexivity.
    + repeat constructor. discriminate.
Defined.

Lemma responsive_run (s : nat) (events : list event) :
  forall (m : clients) (pinged : bool),
    m !! s = Some (negb pinged) ->
    answers s pinged events = true ->
    is_Some ((run m events).1 !! s) /\ Terminate s ∉ (run m events).2.
Proof.
  induction events as [| e events IH]; intros m pinged Hs Hans.
  - cbn [run fst snd]. split; [now rewrite Hs | apply not_elem_of_nil].
  - cbn [run]. destruct e as [s' | s' | s' |]; cbn [step answers] in *.
    + specialize (IH (<[s' := true]> m)
                     (if Nat.eqb s' s then false else pinged)).
      destruct (run (<[s' := true]> m) events) as [m2 a2]. cbn [fst snd] in *.
      apply IH; [| exact Hans].
      destruct (Nat.eqb_spec s' s) as [-> | Hne].
      * now rewrite lookup_insert_eq.
      * now rewrite lookup_insert_ne.
    + specialize (IH (alter (fun _ => true) s' m)
                     (if Nat.eqb s' s then false else pinged)).
      destruct (run (alter (fun _ => true) s' m) events) as [m2 a2].
      cbn [fst snd] in *. apply IH; [| exact Hans].
      destruct (Nat.eqb_spec s' s) as [-> | Hne].
      * rewrite lookup_alter_eq, Hs. reflexivity.
      * now rewrite lookup_alter_ne.
    + apply andb_true_iff in Hans as [Hne Hans].
      apply negb_true_iff, Nat.eqb_neq in Hne.
      specialize (IH (delete s' m) pinged).
      destruct (run (delete s' m) events) as [m2 a2]. cbn [fst snd] in *.
      apply IH; [| exact Hans]. now rewrite lookup_delete_ne.
    + apply andb_true_iff in Hans as [Hp Hans].
      apply negb_true_iff in Hp. subst pinged. cbn [negb] in Hs.
      pose proof (tick_lookup m s) as Hlook.
      pose proof (tick_terminate m s) as Hterm.
      destruct (tick m) as [m1 a1]. cbn [fst snd] in *.
      rewrite Hs in Hlook.
      specialize (IH m1 true Hlook Hans).
      destruct (run m1 events) as [m2 a2]. cbn [fst snd] in *.
      destruct IH as [Hkept Hnone]. split; [exact Hkept |].
      rewrite elem_of_app. intros [Hin | Hin]; [| contradiction].
      apply Hterm in Hin. congruence.
Qed.

(** X23.  A connected client that answers every ping before the next tick,
    and does not close the connection, stays connected through any
    number of ticks: the server never terminates it. *)
Theorem responsive_client_kept (s : nat) (m : clients) (events : list event) :
  m !! s = Some true ->
  answers s false events = true ->
  is_Some ((run m events).1 !! s) /\ Terminate s ∉ (run m events).2.
Proof. intros Hs Hans. now apply (responsive_run s events m false). Qed.

Lemma responsive_client_kept_witness :
  is_Some ((run {[ 7%nat := true ]}
              [Tick; Pong 7%nat; Tick; Pong 7%nat; Tick]).1 !! 7%nat).
Proof.
  apply (responsive_client_kept 7 {[ 7%nat := true ]}
           [Tick; Pong 7%nat; Tick; Pong 7%nat; Tick]); reflexivity.
Defined.

End HeartbeatFacts.

(** ** Thousands separators *)

Lemma split_on_none (c : ascii) (s : jsstring) :
  Forall (fun d => d <> c) s -> split_on c s = [s].
Proof.
  induction 1 as [| d s Hd _ IH]; [reflexivity |].
  cbn [split_on]. destruct (Ascii.eqb_spec d c); [contradiction |].
  now rewrite IH.
Qed.

Lemma split_on_first (c : ascii) (s t : jsstring) :
  Forall (fun d => d <> c) s ->
  split_on c (s ++ c :: t) = s :: split_on c t.
Proof.
  induction 1 as [| d s Hd _ IH]; cbn [app split_on].
  - now rewrite Ascii.eqb_refl.
  - destruct (Ascii.eqb_spec d c); [contradiction |]. now rewrite IH.
Qed.

Lemma comma_loop_groups (fuel : nat) :
  forall (n : jsstring) (a : list jsstring),
    (length n <= fuel)%nat ->
    Forall (fun g => len g = 3) a ->
    1 <= len n ->
    let '(n', a') := comma_loop fuel n a in
    concat (n' :: a') = concat (n :: a) /\ thousands (n' :: a').
Proof.
  induction fuel as [| fuel IH]; intros n a Hfuel Ha Hn.
  - unfold len in Hn. lia.
  - cbn [comma_loop]. destruct (Z.gtb_spec (len n) 3) as [Hlong | Hshort].
    + unfold substr.
      destruct (Z.ltb_spec (len n - 3) 0) as [? | _]; [lia |].
      destruct (Z.ltb_spec 0 0) as [? | _]; [lia |].
      replace (Z.min (len n - 3) (len n)) with (len n - 3) by lia.
      replace (Z.min 0 (len n)) with 0 by lia.
      replace (len n - (len n - 3)) with 3 by lia.
      replace (Z.min (Z.max (len n - 3) 0) (len n - 0)) with (len n - 3) by lia.
      change (Z.to_nat 0) with 0%nat. rewrite drop_0.
      set (k := Z.to_nat (len n - 3)).
      assert (Hk : (k + 3 = length n)%nat) by (unfold k, len in *; lia).
      rewrite (take_ge (drop k n)) by (rewrite length_drop; lia).
      assert (Hfuel' : (length (take k n) <= fuel)%nat)
        by (rewrite length_take; lia).
      assert (Ha' : Forall (fun g => len g = 3) (drop k n :: a)).
      { constructor; [| exact Ha]. unfold len. rewrite length_drop. lia. }
      assert (Hn' : 1 <= len (take k n))
        by (unfold len; rewrite length_take; lia).
      specialize (IH (take k n) (drop k n :: a) Hfuel' Ha' Hn').
      destruct (comma_loop fuel (take k n) (drop k n :: a)) as [n' a'].
      destruct IH as [Hcat Hgroups].
      split; [| exact Hgroups]. rewrite Hcat. cbn [concat].
      now rewrite app_assoc, take_drop.
    + split; [reflexivity |]. cbn [thousands]. split; [lia | exact Ha].
Qed.

Lemma jsstring_eqb_eq (a b : jsstring) : jsstring_eqb a b = true <-> a = b.
Proof.
  revert b. induction a as [| c a IH]; intros [| d b]; cbn [jsstring_eqb];
    try (split; [discriminate | intros [=]]); [tauto |].
  rewrite andb_true_iff, IH. split.
  - intros [Hc ->]. apply Ascii.eqb_eq in Hc. now subst.
  - intros [= -> ->]. split; [apply Ascii.eqb_refl | reflexivity].
Qed.

Lemma ends_with_split (s suffix : jsstring) :
  ends_with s suffix = true -> exists x, s = x ++ suffix.
Proof.
  unfold ends_with. intros H. apply jsstring_eqb_eq in H.
  exists (take (length s - length suffix) s).
  transitivity (take (length s - length suffix) s
                ++ drop (length s - length suffix) s);
    [symmetry; apply take_drop | now f_equal].
Qed.

Lemma split_on_last (c : ascii) (x t : jsstring) :
  Forall (fun d => d <> c) t ->
  last (split_on c (x ++ c :: t)) = Some t.
Proof.
  intros Ht.
  assert (H : exists p ps, split_on c (x ++ c :: t) = p :: ps ++ [t]).
  { induction x as [| d x (p & ps & IH)]; cbn [app split_on].
    - rewrite Ascii.eqb_refl, split_on_none by exact Ht. now exists [], [].
    - rewrite IH. destruct (Ascii.eqb d c).
      + now exists [], (p :: ps).
      + now exists (d :: p), ps. }
  destruct H as (p & ps & ->).
  change (p :: ps ++ [t]) with ((p :: ps) ++ [t]). apply last_snoc.
Qed.

Lemma replace_trailing_dot00_fraction (g frac : jsstring) :
  Forall (fun d => d <> "."%char) g ->
  Forall (fun d => d <> "."%char) frac ->
  replace_trailing_dot00 (if len frac <? 1 then g else g ++ str "." ++ frac)
  = g ++ printed_fraction frac.
Proof.
  intros Hg Hfrac. unfold replace_trailing_dot00, printed_fraction.
  destruct (Z.ltb_spec (len frac) 1) as [Hempty | Hsome]; cbn [orb].
  - destruct (ends_with g (str ".00")) eqn:Hend; [| now rewrite app_nil_r].
    apply ends_with_split in Hend as [x ->].
    apply Forall_app in Hg as [_ Hg]. apply Forall_cons in Hg as [Hdot _].
    contradiction.
  - destruct (jsstring_eqb frac (str "00")) eqn:Hzero.
    + apply jsstring_eqb_eq in Hzero as ->.
      assert (Hend : ends_with (g ++ str "." ++ str "00") (str ".00") = true).
      { unfold ends_with. rewrite length_app.
        change (length (str "." ++ str "00")) with 3%nat.
        change (length (str ".00")) with 3%nat.
        replace (length g + 3 - 3)%nat with (length g) by lia.
        rewrite drop_app_length. reflexivity. }
      rewrite Hend, length_app.
      change (length (str "." ++ str "00")) with 3%nat.
      replace (length g + 3 - 3)%nat with (length g) by lia.
      now rewrite take_app_length, app_nil_r.
    + destruct (ends_with (g ++ str "." ++ frac) (str ".00")) eqn:Hend;
        [| reflexivity].
      exfalso. apply ends_with_split in Hend as [x Hx].
      assert (Hl : last (split_on "." (g ++ "."%char :: frac)) = Some frac)
        by now apply split_on_last.
      change (g ++ str "." ++ frac) with (g ++ "."%char :: frac) in Hx.
      rewrite Hx in Hl. change (x ++ str ".00") with (x ++ "."%char :: str "00") in Hl.
      rewrite split_on_last in Hl by (repeat constructor; discriminate).
      injection Hl as <-. discriminate.
Qed.

Lemma join_no_point (groups : list jsstring) :
  Forall (fun d => d <> "."%char) (concat groups) ->
  Forall (fun d => d <> "."%char) (join (str ",") groups).
Proof.
  induction groups as [| g groups IH]; [constructor |].
  cbn [concat]. intros H. apply Forall_app in H as [Hg Hrest].
  destruct groups as [| g' groups]; [exact Hg |].
  change (join (str ",") (g :: g' :: groups))
    with (g ++ str "," ++ join (str ",") (g' :: groups)).
  apply Forall_app_2; [exact Hg |].
  constructor; [discriminate | now apply IH].
Qed.

Lemma digits_no_point (n : Z) :
  0 <= n -> Forall (fun d => d <> "."%char) (digits n).
Proof.
  intros Hn. destruct (digits_spec n Hn) as (Hall & _).
  eapply Forall_impl; [exact Hall |].
  intros c (d & Hd & ->). each_digit Hd; discriminate.
Qed.

Lemma parseInt_string_negative (n : Z) :
  1 <= n <= 2 ^ 53 -> parseInt_string (str "-" ++ digits n) = num_of_Z (- n).
Proof.
  intros [Hn H53].
  destruct (digits_spec n) as (Hall & Hparse & Hhead); [lia |].
  destruct (Hhead Hn) as (d & rest & Hd & Hdigits).
  destruct (digit_char_plain d Hd) as (_ & _ & _ & Hzero).
  unfold parseInt_string. cbn [str app list_ascii_of_string trim_start].
  change (is_white_space "-") with false. cbv iota.
  change (Ascii.eqb "-" "-") with true. cbv iota.
  rewrite Hdigits in *.
  destruct rest as [| cx r]; rewrite ?Hzero; cbn [andb];
    rewrite Hparse; replace (-1 * n) with (- n) by lia;
    apply double_whole; lia.
Qed.

Lemma CommaFormatted_parts (amount a0 d : jsstring) (v : Z)
    (first : jsstring) (rest : list jsstring) :
  comma_loop (length (digits (Z.abs v))) (digits (Z.abs v)) [] = (first, rest) ->
  (take 2 (split_on "." amount) = [a0] /\ d = [] \/
   take 2 (split_on "." amount) = [a0; d]) ->
  parseInt_string a0 = num_of_Z v ->
  Z.abs v < 10 ^ 21 ->
  Forall (fun c => c <> "."%char) d ->
  thousands (first :: rest) /\
  concat (first :: rest) = digits (Z.abs v) /\
  CommaFormatted amount
  = (if v <? 0 then str "-" else [])
    ++ join (str ",") (first :: rest) ++ printed_fraction d.
Proof.
  intros Hcomma Hsplit Hparse Hv Hd.
  pose proof (comma_loop_groups (length (digits (Z.abs v))) (digits (Z.abs v)) []
                ltac:(lia) ltac:(constructor)) as Hloop.
  pose proof (digits_nonempty (Z.abs v) ltac:(lia)) as Hlen.
  specialize (Hloop ltac:(unfold len; lia)).
  rewrite Hcomma in Hloop.
  destruct Hloop as [Hcat Hgroups]. cbn [concat] in Hcat. rewrite app_nil_r in Hcat.
  split; [exact Hgroups |]. split; [exact Hcat |].
  unfold CommaFormatted.
  assert (Hparts :
    match take 2 (split_on "." amount) with [_; d0] => d0 | _ => [] end = d /\
    match take 2 (split_on "." amount) with a1 :: _ => a1 | [] => [] end = a0).
  { destruct Hsplit as [[-> ->] | ->]; now split. }
  destruct Hparts as [-> ->]. rewrite Hparse. cbn [isNaN num_of_Z Math_abs].
  assert (Hstr : String_of_number (Num (Qabs (inject_Z v))) = digits (Z.abs v)).
  { change (Qabs (inject_Z v)) with (inject_Z (Z.abs v)).
    apply (String_of_Z_digits (Z.abs v)). lia. }
  rewrite Hstr, Hcomma.
  assert (Hpos : (len first >? 0) = true).
  { cbn [thousands] in Hgroups. apply Z.gtb_lt. lia. }
  rewrite Hpos.
  rewrite replace_trailing_dot00_fraction; [| | exact Hd].
  - f_equal. unfold num_lt, num_of_Z. change (inject_Z 0) with 0%Q.
    destruct (Qlt_le_dec (inject_Z v) 0) as [Hneg | Hnn];
      [unfold Qlt, inject_Z in Hneg; cbn [Qnum Qden] in Hneg
      | unfold Qle, inject_Z in Hnn; cbn [Qnum Qden] in Hnn];
      destruct (Z.ltb_spec v 0); try reflexivity; lia.
  - apply join_no_point. cbn [concat]. rewrite Hcat. apply digits_no_point. lia.
Qed.

(** X24.  For a whole number from 1 to 2^53, the range in which [parseInt]
    reads every digit, written in digits, [CommaFormatted] sets commas
    between groups of three digits counted from the right and changes
    no digit.  A fraction after the point is kept as it is, unless it
    is empty or "00", in which case it is dropped together with the
    point; a minus sign in front is kept. *)
Theorem CommaFormatted_groups (n : Z) (frac : jsstring) :
  1 <= n <= 2 ^ 53 ->
  Forall (fun c => c <> "."%char) frac ->
  exists groups,
    thousands groups /\
    concat groups = digits n /\
    CommaFormatted (digits n) = join (str ",") groups /\
    CommaFormatted (digits n ++ str "." ++ frac)
      = join (str ",") groups ++ printed_fraction frac /\
    CommaFormatted (str "-" ++ digits n ++ str "." ++ frac)
      = str "-" ++ join (str ",") groups ++ printed_fraction frac.
Proof.
  intros Hn53 Hfrac.
  assert (Hn : 1 <= n < 10 ^ 21).
  { assert (2 ^ 53 < 10 ^ 21) by reflexivity. lia. }
  pose proof (digits_no_point n ltac:(lia)) as Hdigits.
  assert (Hplus : parseInt_string (digits n) = num_of_Z n).
  { rewrite <- (app_nil_r (digits n)), <- (double_whole n) by lia.
    apply parseInt_string_digits; [lia | reflexivity]. }
  assert (Hsplit2 : forall sign,
    Forall (fun c => c <> "."%char) sign ->
    take 2 (split_on "." (sign ++ digits n ++ str "." ++ frac))
    = [sign ++ digits n; frac]).
  { intros sign Hsign. rewrite app_assoc.
    change ((sign ++ digits n) ++ str "." ++ frac)
      with ((sign ++ digits n) ++ "."%char :: frac).
    rewrite split_on_first by now apply Forall_app_2.
    now rewrite split_on_none. }
  destruct (comma_loop (length (digits n)) (digits n) []) as [first rest] eqn:Hcomma.
  assert (Habs : Z.abs n = n) by lia.
  assert (Hneg : Z.abs (- n) = n) by lia.
  destruct (CommaFormatted_parts (digits n) (digits n) [] n first rest)
    as (Ht1 & Hc1 & H1);
    [now rewrite Habs
    | left; rewrite split_on_none by exact Hdigits; now split
    | exact Hplus | lia | constructor |].
  destruct (CommaFormatted_parts (digits n ++ str "." ++ frac) (digits n) frac n
              first rest) as (_ & _ & H2);
    [now rewrite Habs
    | right; apply (Hsplit2 []); constructor | exact Hplus | lia | exact Hfrac |].
  destruct (CommaFormatted_parts (str "-" ++ digits n ++ str "." ++ frac)
              (str "-" ++ digits n) frac (- n) first rest) as (_ & _ & H3);
    [now rewrite Hneg
    | right; apply (Hsplit2 (str "-")); repeat constructor; discriminate
    | now apply parseInt_string_negative | lia | exact Hfrac |].
  exists (first :: rest). rewrite Habs in Hc1.
  split; [exact Ht1 |]. split; [exact Hc1 |].
  destruct (Z.ltb_spec n 0) as [? | _]; [lia |].
  destruct (Z.ltb_spec (- n) 0) as [_ | ?]; [| lia].
  split; [| split; [exact H2 | exact H3]].
  rewrite H1. cbn [app]. unfold printed_fraction. cbn. apply app_nil_r.
Qed.

Lemma CommaFormatted_groups_witness :
  exists groups,
    thousands groups /\
    concat groups = digits 1234567 /\
    CommaFormatted (digits 1234567) = join (str ",") groups /\
    CommaFormatted (digits 1234567 ++ str "." ++ str "5")
      = join (str ",") groups ++ printed_fraction (str "5") /\
    CommaFormatted (str "-" ++ digits 1234567 ++ str "." ++ str "5")
      = str "-" ++ join (str ",") groups ++ printed_fraction (str "5").
Proof.
  apply (CommaFormatted_groups 1234567 (str "5")).
  - lia.
  - repeat constructor. discriminate.
Defined.
